(** * A Bloom filter in Go: the filter core, its construction and its wire format

    A shallow embedding of the package [bloomfilter]: the bit-array engine
    ([Add], [AddHash], [Contains], [ContainsHash], [UnionInPlace], [Union]),
    the constructors ([New], [NewWithKeys], [NewCompatible]), the binary
    decoder ([UnmarshalFromReader], [UnmarshalBinary]) and the gzip adapter
    ([ReadFrom]).

    Conventions of the embedding.
    - A [uint64] is a [Z]; where Go's arithmetic can wrap, the reduction modulo
      [2^64] is written out ([u64]).  Bit operations are those of [Z].
    - A slice is a list; indexing is stdpp's lookup, and an index out of range
      is a run-time panic.
    - A function that can panic returns an [option]: [None] is the panic.
    - A Go result [(value, error)] is a [result] when the value is [nil] on
      error, and a tuple with an [option error] when the code goes on using
      the value.
    - A method with a pointer receiver is a function from the receiver's
      fields to its new fields; the methods that take a second filter are
      also given over a store of filters, where the two pointers may alias.
    - The read/write lock of a filter is not part of the sequential model. *)

From Stdlib Require Import ZArith Lia Bool.
From Stdlib Require Import Strings.Byte.
From stdpp Require Import base option list gmap.

Local Open Scope Z_scope.

(** ** Machine integers *)

(** Reduction of an arithmetic result to [uint64]. *)
Definition u64 (x : Z) : Z := x mod 2 ^ 64.

(** Reduction of an arithmetic result to [int64]. *)
Definition i64 (x : Z) : Z := (x + 2 ^ 63) mod 2 ^ 64 - 2 ^ 63.

(** [a % b] on [uint64]: division by zero panics. *)
Definition umod (a b : Z) : option Z :=
  if b =? 0 then None else Some (a mod b).

(** [len(s)]: an [int], never negative. *)
Definition len {A} (s : list A) : Z := Z.of_nat (length s).

(** [make([]T, k)] with the zero value [z].  The runtime's [make] panics
    above its allocation limit: the list stands for the slice of a call that
    returned.  The properties that say a call returns are stated for
    lengths of slices that exist; the others speak of the results of calls
    that returned. *)
Definition make {A} (z : A) (k : Z) : list A := replicate (Z.to_nat k) z.

(** [copy(dst, src)]: the first [min(len(dst), len(src))] elements. *)
Definition copy {A} (dst src : list A) : list A :=
  take (length dst) src ++ drop (length src) dst.

(** ** Errors *)

Inductive error : Type :=
  | errBits (was : Z)            (* number of bits in the filter must be >= MMin *)
  | errKeysLen (was : Z)         (* keys must have length KMin or greater *)
  | errKeysUnique                (* Bloom filter keys must be unique *)
  | errIncompatibleBloomFilters
  | errK                         (* "k too small" *)
  | errM                         (* "m too small" *)
  | errHash                      (* the stored digest does not match *)
  | EOF                          (* io.EOF *)
  | ErrUnexpectedEOF             (* io.ErrUnexpectedEOF *)
  | errOther (code : nat).       (* any other error of a reader *)

Global Instance error_eq_dec : EqDecision error.
Proof. solve_decision. Defined.

Inductive result (A : Type) : Type :=
  | Ok (a : A)
  | Err (e : error).
Arguments Ok {A} a.
Arguments Err {A} e.

(** ** The filter *)

Definition MMin : Z := 2.
Definition KMin : Z := 1.
Definition Uint64Bytes : Z := 8.

Record Filter : Type := mkFilter {
  bits : list Z;   (* the bit array, 64 bits a word *)
  keys : list Z;   (* the position keys *)
  m : Z;           (* number of bits the "bits" field should recognize *)
  n : Z            (* number of inserted elements *)
}.

Global Instance Filter_eq_dec : EqDecision Filter.
Proof. solve_decision. Defined.

(** [hash.Hash64]: a value that yields a 64-bit hash of itself. *)
Class Hash64 (V : Type) := Sum64 : V -> Z.

Definition M (f : Filter) : Z := m f.
Definition K (f : Filter) : Z := len (keys f).

(** ** new.go *)

(** The number of words [newBits] allocates: [(m+63)/64] in [uint64]. *)
Definition wordsFor (mm : Z) : Z := u64 (mm + 63) / 64.

Definition newBits (mm : Z) : result (list Z) :=
  if mm <? MMin then Err (errBits mm) else Ok (make 0 (wordsFor mm)).

Definition newKeysBlank (k : Z) : result (list Z) :=
  if k <? KMin then Err (errKeysLen k) else Ok (make 0 k).

(** The inner loop of [uniqueKeys] runs over the keys after [keys[j]]. *)
Fixpoint uniqueKeys (ks : list Z) : bool :=
  match ks with
  | [] => true
  | kj :: rest => forallb (fun ki => negb (ki =? kj)) rest && uniqueKeys rest
  end.

Definition newKeysCopy (origKeys : list Z) : result (list Z) :=
  if negb (uniqueKeys origKeys) then Err errKeysUnique
  else match newKeysBlank (len origKeys) with
       | Err e => Err e
       | Ok ks => Ok (copy ks origKeys)
       end.

Definition NewWithKeys (mm : Z) (origKeys : list Z) : result Filter :=
  match newBits mm with
  | Err e => Err e
  | Ok bs =>
      match newKeysCopy origKeys with
      | Err e => Err e
      | Ok ks => Ok {| bits := bs; keys := ks; m := mm; n := 0 |}
      end
  end.

Definition NewCompatible (f : Filter) : result Filter :=
  NewWithKeys (m f) (keys f).

Definition Keys (f : Filter) : list Z :=
  fold_left (fun cpy v => cpy ++ [v]) (keys f) [].

Definition newWithKeysAndBits (mm : Z) (ks bs : list Z) (nn : Z) : result Filter :=
  match NewWithKeys mm ks with
  | Err e => Err e
  | Ok f => Ok {| bits := copy (bits f) bs; keys := keys f; m := m f; n := nn |}
  end.

(** ** bloomfilter.go *)

(** [bs[i>>6] |= 1 << uint(i&0x3f)] *)
Definition setbit (bs : list Z) (i : Z) : option (list Z) :=
  w ← bs !! Z.to_nat (Z.shiftr i 6);
  Some (<[Z.to_nat (Z.shiftr i 6) := Z.lor w (Z.shiftl 1 (Z.land i 63))]> bs).

(** [(bs[i>>6] >> uint(i&0x3f)) & 1] *)
Definition getbit (bs : list Z) (i : Z) : option Z :=
  w ← bs !! Z.to_nat (Z.shiftr i 6);
  Some (Z.land (Z.shiftr w (Z.land i 63)) 1).

(** The loop of [Add] and [AddHash] over the keys still to visit. *)
Fixpoint add_loop (hash : Z) (mm : Z) (ks : list Z) (bs : list Z) : option (list Z) :=
  match ks with
  | [] => Some bs
  | key :: ks' =>
      i ← umod (Z.lxor hash key) mm;
      bs' ← setbit bs i;
      add_loop hash mm ks' bs'
  end.

Definition Add {V} `{Hash64 V} (f : Filter) (v : V) : option Filter :=
  let hash := Sum64 v in
  bs ← add_loop hash (m f) (keys f) (bits f);
  Some {| bits := bs; keys := keys f; m := m f; n := u64 (n f + 1) |}.

Definition AddHash (f : Filter) (hash : Z) : option Filter :=
  bs ← add_loop hash (m f) (keys f) (bits f);
  Some {| bits := bs; keys := keys f; m := m f; n := u64 (n f + 1) |}.

(** Modelled from the spec: [uint64ToBool] is not among the sources; the
    queries return true only if all tested bits are 1, so the conversion
    is true exactly on a non-zero word. *)
Definition uint64ToBool (x : Z) : bool := negb (x =? 0).

(** The loop of [Contains] and [ContainsHash]: it stops once [r] is 0. *)
Fixpoint contains_loop (hash : Z) (mm : Z) (bs : list Z) (ks : list Z) (r : Z) : option Z :=
  match ks with
  | [] => Some r
  | key :: ks' =>
      if r =? 0 then Some r
      else
        i ← umod (Z.lxor hash key) mm;
        b ← getbit bs i;
        contains_loop hash mm bs ks' (Z.land r b)
  end.

Definition Contains {V} `{Hash64 V} (f : Filter) (v : V) : option bool :=
  let hash := Sum64 v in
  r ← contains_loop hash (m f) (bits f) (keys f) 1;
  Some (uint64ToBool r).

Definition ContainsHash (f : Filter) (hash : Z) : option bool :=
  r ← contains_loop hash (m f) (bits f) (keys f) 1;
  Some (uint64ToBool r).

(** Modelled from the spec: [IsCompatible] is not among the sources; two
    filters are compatible when they have equal bit width and the identical
    sequence of position keys (same length, same values, same order). *)
Definition IsCompatible (f f2 : Filter) : bool :=
  bool_decide (m f = m f2) && bool_decide (keys f = keys f2).

(** [for i, bitword := range src { dst[i] |= bitword }] from index [i] on. *)
Fixpoint unionInPlace_loop (i : nat) (src : list Z) (dst : list Z) : option (list Z) :=
  match src with
  | [] => Some dst
  | bitword :: src' =>
      w ← dst !! i;
      unionInPlace_loop (S i) src' (<[i := Z.lor w bitword]> dst)
  end.

Definition UnionInPlace (f f2 : Filter) : option (Filter * option error) :=
  if negb (IsCompatible f f2) then Some (f, Some errIncompatibleBloomFilters)
  else
    bs ← unionInPlace_loop 0 (bits f2) (bits f);
    Some ({| bits := bs; keys := keys f; m := m f; n := u64 (n f + n f2) |}, None).

(** [for i, bitword := range src { out[i] = fb[i] | bitword }] from [i] on. *)
Fixpoint union_loop (i : nat) (src : list Z) (fb : list Z) (out : list Z) : option (list Z) :=
  match src with
  | [] => Some out
  | bitword :: src' =>
      w ← fb !! i;
      _ ← out !! i;
      union_loop (S i) src' fb (<[i := Z.lor w bitword]> out)
  end.

Definition Union (f f2 : Filter) : option (result Filter) :=
  if negb (IsCompatible f f2) then Some (Err errIncompatibleBloomFilters)
  else
    match NewCompatible f with
    | Err e => Some (Err e)
    | Ok out =>
        bs ← union_loop 0 (bits f2) (bits f) (bits out);
        Some (Ok {| bits := bs; keys := keys out; m := m out; n := u64 (n f + n f2) |})
    end.

Definition Copy (f : Filter) : result Filter :=
  match NewCompatible f with
  | Err e => Err e
  | Ok out => Ok {| bits := copy (bits out) (bits f); keys := keys out; m := m out; n := n f |}
  end.

(** ** Readers and the standard library around them *)

Global Instance byte_eq_dec : EqDecision byte := Byte.byte_eq_dec.

(** [io.Reader]: [Read r p] is the call [r.Read(p)]; it returns the reader
    after the call, the contents of [p] after the call, the count [n] and
    the error. *)
Class IOReader (R : Type) := Read : R -> list byte -> R * list byte * Z * option error.

(** A source of bytes that arrive in chunks, as from a buffer, a file or a
    decompressor: a [Read] delivers from the first chunk that has bytes left
    and never more than that chunk holds; once all chunks are drained it
    reports [final]. *)
Record Reader : Type := mkReader {
  chunks : list (list byte);
  final : error
}.

Fixpoint pending (cs : list (list byte)) : list (list byte) :=
  match cs with
  | [] :: cs' => pending cs'
  | _ => cs
  end.

Definition Reader_Read (r : Reader) (p : list byte) : Reader * list byte * Z * option error :=
  match pending (chunks r) with
  | [] => ({| chunks := []; final := final r |}, p, 0, Some (final r))
  | c :: cs =>
      let k := Nat.min (length p) (length c) in
      ({| chunks := drop k c :: cs; final := final r |},
       take k c ++ drop k p, Z.of_nat k, None)
  end.

Global Instance Reader_IOReader : IOReader Reader := Reader_Read.

(** [bytes.NewBuffer(data)] *)
Definition NewBuffer (data : list byte) : Reader :=
  {| chunks := [data]; final := EOF |}.

(** The loop of [io.ReadAtLeast(r, buf, len(buf))]: [got] is [buf[:n]] and
    [rest] is [buf[n:]].  The loop goes round as long as the buffer is not
    full and no error came; a call that returns no byte and no error makes
    no progress.  [fuel] bounds the calls, and [None] is a loop that was
    not over within the bound: [ReadFull] allows one call for each byte of
    the buffer, which is enough for every reader that delivers a byte or an
    error on each call, as the chunked readers do. *)
Fixpoint readAtLeast_loop {R} `{IOReader R} (fuel : nat) (r : R) (got rest : list byte)
  : option (R * list byte * option error) :=
  match rest with
  | [] => Some (r, got, None)
  | _ :: _ =>
      match fuel with
      | O => None
      | S fuel' =>
          let '(r', p', nn, err) := Read r rest in
          let got' := got ++ take (Z.to_nat nn) p' in
          let rest' := drop (Z.to_nat nn) p' in
          match err with
          | None => readAtLeast_loop fuel' r' got' rest'
          | Some e =>
              Some (r', got' ++ rest',
                    match rest' with
                    | [] => None
                    | _ :: _ =>
                        if (0 <? len got') && bool_decide (e = EOF)
                        then Some ErrUnexpectedEOF else Some e
                    end)
          end
      end
  end.

(** [io.ReadFull(r, buf)]: the buffer after the call and the error. *)
Definition ReadFull {R} `{IOReader R} (r : R) (buf : list byte)
  : option (R * list byte * option error) :=
  readAtLeast_loop (length buf) r [] buf.

(** [binary.LittleEndian.Uint64(bs)] *)
Definition Uint64 (bs : list byte) : Z :=
  fold_right (fun b acc => Z.of_N (Byte.to_N b) + 256 * acc) 0 (take 8 bs).

(** The decoding of [k] consecutive little-endian words. *)
Fixpoint Uint64s (k : nat) (bs : list byte) : list Z :=
  match k with
  | O => []
  | S k' => Uint64 bs :: Uint64s k' (drop 8 bs)
  end.

(** [binary.Read(r, binary.LittleEndian, data)] for data of [size] bytes:
    the bytes read, to be decoded by the caller, or the error. *)
Definition binary_Read {R} `{IOReader R} (r : R) (size : Z) : option (R * result (list byte)) :=
  '(r', bs, err) ← ReadFull r (make x00 size);
  Some (r', match err with Some e => Err e | None => Ok bs end).

(** [binary.Read(r, binary.LittleEndian, &x)] for [x uint64] holding [old]. *)
Definition binary_Read_uint64 {R} `{IOReader R} (r : R) (old : Z) : option (R * Z * option error) :=
  '(r', res) ← binary_Read r Uint64Bytes;
  Some (match res with
        | Ok bs => (r', Uint64 bs, None)
        | Err e => (r', old, Some e)
        end).

(** ** binaryunmarshaler.go *)

Definition unmarshalBinaryHeader {R} `{IOReader R} (r : R)
  : option (R * Z * Z * Z * option error) :=
  '(r, k, err) ← binary_Read_uint64 r 0;
  match err with
  | Some e => Some (r, k, 0, 0, Some e)
  | None =>
      if k <? KMin then Some (r, k, 0, 0, Some errK)
      else
        '(r, nn, err) ← binary_Read_uint64 r 0;
        match err with
        | Some e => Some (r, k, nn, 0, Some e)
        | None =>
            '(r, mm, err) ← binary_Read_uint64 r 0;
            match err with
            | Some e => Some (r, k, nn, mm, Some e)
            | None =>
                if mm <? MMin then Some (r, k, nn, mm, Some errM)
                else Some (r, k, nn, mm, None)
            end
        end
  end.

(** The loop of [unmarshalBinaryBits]: [done] are the words already stored,
    [todo] the words of [bits] still to fill, [bs] the 8-byte buffer, which
    is reused from one word to the next. *)
Fixpoint unmarshalBinaryBits_loop {R} `{IOReader R} (r : R) (bs : list byte)
    (done todo : list Z) : R * list Z * option error :=
  match todo with
  | [] => (r, done, None)
  | w :: todo' =>
      let '(r', bs', _, err) := Read r bs in
      match err with
      | Some e => (r', done ++ w :: todo', Some e)
      | None => unmarshalBinaryBits_loop r' bs' (done ++ [Uint64 bs']) todo'
      end
  end.

Definition unmarshalBinaryBits {R} `{IOReader R} (r : R) (mm : Z)
  : R * list Z * option error :=
  match newBits mm with
  | Err e => (r, [], Some e)
  | Ok bs0 => unmarshalBinaryBits_loop r (make x00 8) [] bs0
  end.

Definition unmarshalBinaryKeys {R} `{IOReader R} (r : R) (k : Z)
  : option (R * list Z * option error) :=
  let ks := make 0 k in
  '(r', res) ← binary_Read r (8 * len ks);
  Some (match res with
        | Ok bs => (r', Uint64s (length ks) bs, None)
        | Err e => (r', ks, Some e)
        end).

(** [hashingReader] reads from a reader and hashes the bytes that were
    read; the state of the hasher is the sequence of bytes written to it. *)
Record hashingReader (R : Type) : Type := mkHashingReader {
  reader : R;
  hasher : list byte;
  tot : Z
}.
Arguments mkHashingReader {R} _ _ _.
Arguments reader {R} _.
Arguments hasher {R} _.
Arguments tot {R} _.

Definition hashingReader_Read {R} `{IOReader R} (h : hashingReader R) (p : list byte)
  : hashingReader R * list byte * Z * option error :=
  let '(r', p', nn, err) := Read (reader h) p in
  let tot' := i64 (tot h + nn) in
  match err with
  | Some e => ({| reader := r'; hasher := hasher h; tot := tot' |}, p', nn, Some e)
  | None => ({| reader := r'; hasher := hasher h ++ p'; tot := tot' |}, p', nn, None)
  end.

Global Instance hashingReader_IOReader {R} `{IOReader R} : IOReader (hashingReader R) :=
  hashingReader_Read.

Section Codec.

(** The SHA-384 digest of a sequence of bytes. *)
Variable sha384 : list byte -> list byte.

Definition Size384 : Z := 48.

(** The receiver's fields after the call, the count of bytes read and the
    error. *)
Definition UnmarshalFromReader {R} `{IOReader R} (f : Filter) (input : R)
  : option (Filter * Z * option error) :=
  let buf := {| reader := input; hasher := []; tot := 0 |} in
  '(buf, k, nn, mm, err) ← unmarshalBinaryHeader buf;
  let f := {| bits := bits f; keys := keys f; m := mm; n := nn |} in
  match err with
  | Some e => Some (f, tot buf, Some e)
  | None =>
      '(buf, ks, err) ← unmarshalBinaryKeys buf k;
      let f := {| bits := bits f; keys := ks; m := m f; n := n f |} in
      match err with
      | Some e => Some (f, tot buf, Some e)
      | None =>
          let '(buf, bs, err) := unmarshalBinaryBits buf (m f) in
          let f := {| bits := bs; keys := keys f; m := m f; n := n f |} in
          match err with
          | Some e => Some (f, tot buf, Some e)
          | None =>
              let gotHash := sha384 (hasher buf) in
              '(buf, res) ← binary_Read buf Size384;
              match res with
              | Err e => Some (f, tot buf, Some e)
              | Ok expHash =>
                  if negb (bool_decide (gotHash = expHash))
                  then Some (f, tot buf, Some errHash)
                  else Some (f, tot buf, None)
              end
          end
      end
  end.

Definition UnmarshalBinary (f : Filter) (data : list byte) : option (Filter * option error) :=
  '(f', _, err) ← UnmarshalFromReader f (NewBuffer data);
  Some (f', err).

(** ** The encoder *)

(** The [k] low bytes of [x], least significant first. *)
Fixpoint PutUint (k : nat) (x : Z) : list byte :=
  match k with
  | O => []
  | S k' =>
      default x00 (Byte.of_N (Z.to_N (x mod 256))) :: PutUint k' (x / 256)
  end.

Definition PutUint64 (x : Z) : list byte := PutUint 8 x.

(** Modelled from the spec: the encoder ([MarshalBinary]) is not among the
    sources.  The layout is little-endian throughout, without padding: the
    key count, the element count, the bit width, the position keys in
    order, the bit-array words in order, then the digest of every byte
    above. *)
Definition payload (f : Filter) : list byte :=
  PutUint64 (K f) ++ PutUint64 (n f) ++ PutUint64 (m f)
    ++ concat (PutUint64 <$> keys f) ++ concat (PutUint64 <$> bits f).

(** Modelled from the spec: see [payload]. *)
Definition MarshalBinary (f : Filter) : list byte :=
  payload f ++ sha384 (payload f).

End Codec.

(** ** fileio.go *)

Section FileIO.

Variable sha384 : list byte -> list byte.

(** [gzip.NewReader(r)]: an error, or the reader of the decompressed
    stream. *)
Context {R Rraw : Type} `{IOReader Rraw}.
Variable gzip_NewReader : R -> result Rraw.

(** [new(Filter)] *)
Definition newFilter : Filter := {| bits := []; keys := []; m := 0; n := 0 |}.

Definition ReadFrom (r : R) : option (result (Filter * Z)) :=
  match gzip_NewReader r with
  | Err e => Some (Err e)
  | Ok rawR =>
      '(f, nn, err) ← UnmarshalFromReader sha384 newFilter rawR;
      match err with
      | Some e => Some (Err e)
      | None => Some (Ok (f, nn))
      end
  end.

Definition Filter_ReadFrom (f : Filter) (r : R) : option (Filter * Z * option error) :=
  res ← ReadFrom r;
  match res with
  | Err e => Some (f, -1, Some e)
  | Ok (f2, nn) =>
      Some ({| bits := bits f2; keys := keys f2; m := m f2; n := n f2 |}, nn, None)
  end.

End FileIO.


(** ** The random keys of [New] *)

(** [crand] is [crypto/rand.Reader]; a failed read of the keys panics. *)
Definition newRandKeys (crand : Reader) (mm k : Z) : option (list Z) :=
  let ks := make 0 k in
  '(_, res) ← binary_Read crand (8 * len ks);
  match res with
  | Ok bs => Some (Uint64s (length ks) bs)
  | Err _ => None
  end.

Definition New (crand : Reader) (mm k : Z) : option (result Filter) :=
  ks ← newRandKeys crand mm k;
  Some (NewWithKeys mm ks).

(** ** Filters behind pointers *)

(** A store of filters: [*Filter] is a key of the store, and a method
    called on a pointer that is not in the store panics. *)
Definition UnionInPlace_at (p q : positive) (σ : gmap positive Filter)
  : option (gmap positive Filter * option error) :=
  f ← σ !! p;
  f2 ← σ !! q;
  '(f', err) ← UnionInPlace f f2;
  Some (<[p := f']> σ, err).

(** [Union] allocates its result at a fresh pointer. *)
Definition Union_at (p q : positive) (σ : gmap positive Filter)
  : option (gmap positive Filter * result positive) :=
  f ← σ !! p;
  f2 ← σ !! q;
  res ← Union f f2;
  match res with
  | Err e => Some (σ, Err e)
  | Ok out => let o := fresh (dom σ) in Some (<[o := out]> σ, Ok o)
  end.

(** ** The notions the statements use *)

(** Bit [j] of a bit array packed 64 bits a word. *)
Definition bitAt (bs : list Z) (j : Z) : bool :=
  Z.testbit (default 0 (bs !! Z.to_nat (j / 64))) (j mod 64).

(** The bit positions of a hash: [(hash XOR key_i) mod m] for each key. *)
Definition positions (f : Filter) (hash : Z) : list Z :=
  (fun key => Z.lxor hash key mod m f) <$> keys f.

(** The query that tests every position, without the early exit. *)
Fixpoint testAll_loop (hash : Z) (mm : Z) (bs : list Z) (ks : list Z) (r : Z) : option Z :=
  match ks with
  | [] => Some r
  | key :: ks' =>
      i ← umod (Z.lxor hash key) mm;
      b ← getbit bs i;
      testAll_loop hash mm bs ks' (Z.land r b)
  end.

Definition testAll (f : Filter) (hash : Z) : option bool :=
  r ← testAll_loop hash (m f) (bits f) (keys f) 1;
  Some (uint64ToBool r).

(** A filter of the data model: at least [MMin] bits and [KMin] keys, the
    keys pairwise distinct, and a bit array that is what [newBits] allocates
    for [m] and holds a word for each of the [m] bits. *)
Record valid (f : Filter) : Prop := mkValid {
  valid_m : MMin <= m f;
  valid_k : KMin <= len (keys f);
  valid_keys : NoDup (keys f);
  valid_words : len (bits f) = wordsFor (m f);
  valid_bits : m f <= 64 * len (bits f)
}.

(** The fields hold values of their Go types. *)
Record typed (f : Filter) : Prop := mkTyped {
  typed_n : 0 <= n f < 2 ^ 64;
  typed_k : len (keys f) < 2 ^ 64;
  typed_keys : Forall (fun x => 0 <= x < 2 ^ 64) (keys f);
  typed_bits : Forall (fun x => 0 <= x < 2 ^ 64) (bits f)
}.

(** The operations a filter goes through after an insertion.  A union that
    builds or updates another filter carries on with that filter. *)
Inductive op (V : Type) : Type :=
  | opAdd (v : V)                 (* f.Add(v) *)
  | opAddHash (hash : Z)          (* f.AddHash(hash) *)
  | opUnionInPlace (g : Filter)   (* f.UnionInPlace(g) *)
  | opUnion (g : Filter)          (* f.Union(g), then the result *)
  | opUnionInto (g : Filter)      (* g.UnionInPlace(f), then g *)
  | opUnionOf (g : Filter).       (* g.Union(f), then the result *)
Arguments opAdd {V} v.
Arguments opAddHash {V} hash.
Arguments opUnionInPlace {V} g.
Arguments opUnion {V} g.
Arguments opUnionInto {V} g.
Arguments opUnionOf {V} g.

Definition operand {V} (o : op V) : option Filter :=
  match o with
  | opAdd _ | opAddHash _ => None
  | opUnionInPlace g | opUnion g | opUnionInto g | opUnionOf g => Some g
  end.

Definition step {V} `{Hash64 V} (f : Filter) (o : op V) : option Filter :=
  match o with
  | opAdd v => Add f v
  | opAddHash hash => AddHash f hash
  | opUnionInPlace g => fst <$> UnionInPlace f g
  | opUnion g =>
      res ← Union f g;
      Some (match res with Ok out => out | Err _ => f end)
  | opUnionInto g => fst <$> UnionInPlace g f
  | opUnionOf g =>
      res ← Union g f;
      Some (match res with Ok out => out | Err _ => f end)
  end.

Fixpoint run {V} `{Hash64 V} (f : Filter) (ops : list (op V)) : option Filter :=
  match ops with
  | [] => Some f
  | o :: ops' => f' ← step f o; run f' ops'
  end.

(** The bytes a chunked reader holds, in order. *)
Definition stream (r : Reader) : list byte := concat (chunks r).

(** The errors of a rejected construction. *)
Definition ConfigurationError (e : error) : Prop :=
  match e with
  | errBits _ | errKeysLen _ | errKeysUnique => True
  | _ => False
  end.

(** The hashing reader of [UnmarshalBinary] on [data] once the first [j]
    bytes have been read and hashed. *)
Definition bufferAt (data : list byte) (j : nat) : hashingReader Reader :=
  {| reader := {| chunks := [drop j data]; final := EOF |};
     hasher := take j data;
     tot := i64 (Z.of_nat j) |}.

(** ** Concrete filters and inputs *)

(** [NewWithKeys(64, [1,2,3])], empty. *)
Definition filter64 : Filter :=
  {| bits := [0]; keys := [1; 2; 3]; m := 64; n := 0 |}.

(** The same filter after [AddHash(42)]: bits 40, 41 and 43. *)
Definition filter64_42 : Filter :=
  {| bits := [12094627905536]; keys := [1; 2; 3]; m := 64; n := 1 |}.

(** A filter compatible with [filter64], holding bits 0 and 2. *)
Definition filter64_other : Filter :=
  {| bits := [5]; keys := [1; 2; 3]; m := 64; n := 7 |}.

(** Filters of 1024 and of 2048 bits over the same keys. *)
Definition filter1024 : Filter :=
  {| bits := replicate 16 0; keys := [1; 2; 3]; m := 1024; n := 0 |}.
Definition filter2048 : Filter :=
  {| bits := replicate 32 0; keys := [1; 2; 3]; m := 2048; n := 0 |}.

(** Integers hashing to themselves. *)
Definition selfHash : Hash64 Z := fun v => v.

(** A stand-in for the digest: 48 copies of the length of the input,
    reduced to a byte. *)
Definition lengthDigest (bs : list byte) : list byte :=
  replicate 48 (default x00 (Byte.of_N (N.of_nat (length bs) mod 256))).

(** A reader that delivers six bytes of zeros and two more in three chunks. *)
Definition zeroKeyCount : Reader :=
  {| chunks := [[x00; x00; x00]; [x00; x00; x00]; [x00; x00; x2a]]; final := EOF |}.

(** A header with one key, no element and a bit width of 1. *)
Definition narrowHeader : Reader :=
  {| chunks := [PutUint64 1; PutUint64 0 ++ PutUint64 1; [x2a]]; final := EOF |}.

(** The encoding of [filter64_42] with a digest of 48 bytes [0xff]. *)
Definition tampered : list byte := payload filter64_42 ++ replicate 48 xff.

(** A decompressor for streams that are stored as they are. *)
Definition storedStream : Reader -> result Reader := Ok.

(** Two compatible filters behind the pointers 1 and 2. *)
Definition store64 : gmap positive Filter :=
  <[2%positive := filter64_other]> (<[1%positive := filter64_42]> ∅).

(** A filter of 1024 bits and one of 2048 bits behind the pointers 1 and 2. *)
Definition storeWidths : gmap positive Filter :=
  <[2%positive := filter2048]> (<[1%positive := filter1024]> ∅).

(** Insertions and unions of every kind. *)
Definition laterOps : list (op Z) :=
  [opAddHash 7; opUnionInPlace filter64_other; opAdd 9;
   opUnion filter64_other; opUnionInto filter64_other;
   opUnionOf filter64_other].

(** The hashing reader over the rest of [data] from byte [j] on, when the
    hasher held [pre] at byte [j0] and every read since then was full. *)
Definition bufferFrom (pre data : list byte) (j0 j : nat) : hashingReader Reader :=
  {| reader := {| chunks := [drop j data]; final := EOF |};
     hasher := pre ++ drop j0 (take j data);
     tot := i64 (Z.of_nat j) |}.

(** The bytes the hasher holds after the first 8-byte field was read in two
    calls, the first of which delivered [j] bytes: the [j] bytes and the
    untouched rest of the buffer, then the bytes of the second call. *)
Definition splitField (data : list byte) (j : nat) : list byte :=
  (take j data ++ replicate (8 - j) x00) ++ take (8 - j) (drop j data).

(** The encoding of [filter64_42] with the stand-in digest. *)
Definition encoded64 : list byte := MarshalBinary lengthDigest filter64_42.

(** A filter with the keys and the bit width of [filter1024] and one word
    more than its bit width asks for, as a decoder of another format may
    leave it. *)
Definition wideWords : Filter :=
  {| bits := replicate 17 1; keys := [1; 2; 3]; m := 1024; n := 1 |}.

(** The bytes of [filter64_42] before the digest, followed by the stand-in
    digest of the bytes the decoder hashes when its first read ends after 4
    bytes: not the digest of the bytes before it. *)
Definition forged : list byte :=
  payload filter64_42
    ++ lengthDigest (splitField (payload filter64_42) 4 ++ drop 8 (payload filter64_42)).

(** * Properties *)

(** ** Words and bits *)

Lemma shiftr6 (i : Z) : Z.shiftr i 6 = i / 64.
Proof. rewrite Z.shiftr_div_pow2 by lia. reflexivity. Qed.

Lemma land63 (i : Z) : Z.land i 63 = i mod 64.
Proof. change 63 with (Z.ones 6). rewrite Z.land_ones by lia. reflexivity. Qed.

Lemma word_index_lt (bs : list Z) (i : Z) :
  0 <= i < 64 * len bs -> (Z.to_nat (i / 64) < length bs)%nat.
Proof.
  unfold len. intros Hi.
  assert (i / 64 < Z.of_nat (length bs)) by (apply Z.div_lt_upper_bound; lia).
  assert (0 <= i / 64) by (apply Z.div_pos; lia).
  lia.
Qed.

Lemma same_bit_iff (i j : Z) :
  0 <= i -> 0 <= j ->
  (j =? i) = bool_decide (Z.to_nat (j / 64) = Z.to_nat (i / 64)) && (i mod 64 =? j mod 64).
Proof.
  intros Hi Hj.
  assert (0 <= i / 64) by (apply Z.div_pos; lia).
  assert (0 <= j / 64) by (apply Z.div_pos; lia).
  pose proof (Z.div_mod i 64 ltac:(lia)).
  pose proof (Z.div_mod j 64 ltac:(lia)).
  destruct (Z.eqb_spec j i) as [->|Hne].
  - rewrite bool_decide_eq_true_2 by reflexivity. rewrite Z.eqb_refl. reflexivity.
  - case_bool_decide as Hw; [|reflexivity]. simpl.
    destruct (Z.eqb_spec (i mod 64) (j mod 64)); [|reflexivity].
    exfalso. apply Hne. assert (j / 64 = i / 64) by lia. lia.
Qed.

Lemma setbit_Some (bs : list Z) (i : Z) :
  0 <= i < 64 * len bs -> is_Some (setbit bs i).
Proof.
  intros Hi. unfold setbit. rewrite shiftr6.
  destruct (lookup_lt_is_Some_2 bs (Z.to_nat (i / 64)) (word_index_lt bs i Hi)) as [w ->].
  simpl. eauto.
Qed.

Lemma setbit_length (bs bs' : list Z) (i : Z) :
  setbit bs i = Some bs' -> length bs' = length bs.
Proof.
  unfold setbit. intros Hs.
  destruct (bs !! Z.to_nat (Z.shiftr i 6)); simplify_eq/=.
  apply length_insert.
Qed.

Lemma setbit_bitAt (bs bs' : list Z) (i j : Z) :
  0 <= i -> 0 <= j ->
  setbit bs i = Some bs' ->
  bitAt bs' j = bitAt bs j || (j =? i).
Proof.
  intros Hi Hj. unfold setbit. rewrite shiftr6, land63. intros Hs.
  destruct (bs !! Z.to_nat (i / 64)) as [w|] eqn:Hw; simplify_eq/=.
  assert (Hlt : (Z.to_nat (i / 64) < length bs)%nat) by (eapply lookup_lt_Some; eauto).
  rewrite (same_bit_iff i j) by assumption.
  unfold bitAt.
  case_bool_decide as Hidx.
  - rewrite Hidx, list_lookup_insert_eq, Hw by assumption. simpl.
    rewrite Z.lor_spec, Z.shiftl_1_l.
    rewrite Z.pow2_bits_eqb by (apply Z.mod_pos_bound; lia).
    reflexivity.
  - rewrite list_lookup_insert_ne by congruence.
    simpl. rewrite orb_false_r. reflexivity.
Qed.

Lemma getbit_Some (bs : list Z) (i : Z) :
  0 <= i < 64 * len bs ->
  getbit bs i = Some (if bitAt bs i then 1 else 0).
Proof.
  intros Hi. unfold getbit, bitAt. rewrite shiftr6, land63.
  destruct (lookup_lt_is_Some_2 bs (Z.to_nat (i / 64)) (word_index_lt bs i Hi)) as [w ->].
  simpl. f_equal.
  change 1 with (Z.ones 1) at 1. rewrite Z.land_ones by lia.
  change (2 ^ 1) with 2.
  rewrite <- Z.bit0_mod, Z.shiftr_spec, Z.add_0_l by lia.
  destruct (Z.testbit w (i mod 64)); reflexivity.
Qed.

Lemma position_range (hash key mm : Z) :
  0 < mm -> 0 <= Z.lxor hash key mod mm < mm.
Proof. intros. apply Z.mod_pos_bound. assumption. Qed.

Lemma umod_Some (a b : Z) : 0 < b -> umod a b = Some (a mod b).
Proof. intros. unfold umod. destruct (Z.eqb_spec b 0); [lia|reflexivity]. Qed.

(** ** Insertion and query *)

Lemma bool_decide_elem_cons (j x : Z) (l : list Z) :
  bool_decide (j ∈ x :: l) = (j =? x) || bool_decide (j ∈ l).
Proof.
  destruct (Z.eqb_spec j x) as [->|Hne]; simpl.
  - apply bool_decide_eq_true_2. left.
  - apply bool_decide_ext. rewrite elem_of_cons. tauto.
Qed.

Lemma add_loop_spec (hash mm : Z) (ks bs : list Z) :
  0 < mm <= 64 * len bs ->
  exists bs',
    add_loop hash mm ks bs = Some bs' /\
    length bs' = length bs /\
    forall j, 0 <= j ->
      bitAt bs' j = bitAt bs j
                    || bool_decide (j ∈ (fun key => Z.lxor hash key mod mm) <$> ks).
Proof.
  revert bs. induction ks as [|key ks IH]; intros bs Hm; simpl.
  - exists bs. repeat split. intros j _. rewrite orb_false_r. reflexivity.
  - rewrite umod_Some by lia. simpl.
    pose proof (position_range hash key mm ltac:(lia)) as Hi.
    destruct (setbit_Some bs (Z.lxor hash key mod mm) ltac:(lia)) as [bs1 Hs].
    rewrite Hs. simpl.
    pose proof (setbit_length _ _ _ Hs) as Hl1.
    destruct (IH bs1) as (bs' & Hrun & Hl & Hbits).
    { unfold len in *. rewrite Hl1. assumption. }
    exists bs'. split; [assumption|]. split; [congruence|].
    intros j Hj.
    rewrite (Hbits j Hj), (setbit_bitAt bs bs1 (Z.lxor hash key mod mm) j ltac:(lia) Hj Hs).
    rewrite bool_decide_elem_cons, orb_assoc. reflexivity.
Qed.

Lemma Add_AddHash {V} `{Hash64 V} (f : Filter) (v : V) :
  Add f v = AddHash f (Sum64 v).
Proof. reflexivity. Qed.

Lemma Contains_ContainsHash {V} `{Hash64 V} (f : Filter) (v : V) :
  Contains f v = ContainsHash f (Sum64 v).
Proof. reflexivity. Qed.

Lemma AddHash_spec (f : Filter) (hash : Z) :
  0 < m f <= 64 * len (bits f) ->
  exists f',
    AddHash f hash = Some f' /\
    (forall j, 0 <= j ->
       bitAt (bits f') j = bitAt (bits f) j || bool_decide (j ∈ positions f hash)) /\
    length (bits f') = length (bits f) /\
    keys f' = keys f /\ m f' = m f /\ n f' = u64 (n f + 1).
Proof.
  intros Hm. unfold AddHash.
  destruct (add_loop_spec hash (m f) (keys f) (bits f) Hm) as (bs' & -> & Hl & Hbits).
  simpl. eexists. split; [reflexivity|]. simpl. auto.
Qed.

Lemma land_bit (r b : bool) :
  Z.land (if r then 1 else 0) (if b then 1 else 0) = if r && b then 1 else 0.
Proof. destruct r, b; reflexivity. Qed.

Lemma testAll_loop_spec (hash mm : Z) (bs ks : list Z) (r : bool) :
  0 < mm <= 64 * len bs ->
  testAll_loop hash mm bs ks (if r then 1 else 0)
  = Some (if r && forallb (bitAt bs) ((fun key => Z.lxor hash key mod mm) <$> ks)
          then 1 else 0).
Proof.
  intros Hm. revert r. induction ks as [|key ks IH]; intros r; simpl.
  - rewrite andb_true_r. reflexivity.
  - rewrite umod_Some by lia. simpl.
    pose proof (position_range hash key mm ltac:(lia)).
    rewrite getbit_Some by lia. simpl.
    rewrite land_bit, IH, andb_assoc. reflexivity.
Qed.

Lemma contains_loop_testAll (hash mm : Z) (bs ks : list Z) (r : bool) :
  0 < mm <= 64 * len bs ->
  contains_loop hash mm bs ks (if r then 1 else 0)
  = testAll_loop hash mm bs ks (if r then 1 else 0).
Proof.
  intros Hm. revert r. induction ks as [|key ks IH]; intros r; [reflexivity|].
  destruct r.
  - simpl. rewrite umod_Some by lia. simpl.
    pose proof (position_range hash key mm ltac:(lia)).
    rewrite getbit_Some by lia. simpl.
    rewrite (land_bit true), IH. reflexivity.
  - rewrite (testAll_loop_spec hash mm bs (key :: ks) false Hm). reflexivity.
Qed.

Lemma ContainsHash_spec (f : Filter) (hash : Z) :
  0 < m f <= 64 * len (bits f) ->
  ContainsHash f hash = Some (forallb (bitAt (bits f)) (positions f hash)).
Proof.
  intros Hm. unfold ContainsHash.
  rewrite (contains_loop_testAll hash (m f) (bits f) (keys f) true Hm).
  rewrite (testAll_loop_spec hash (m f) (bits f) (keys f) true Hm). simpl.
  unfold positions. destruct (forallb _ _); reflexivity.
Qed.

Lemma ContainsHash_mono (f g : Filter) (hash : Z) :
  0 < m f <= 64 * len (bits f) ->
  0 < m g <= 64 * len (bits g) ->
  m g = m f -> keys g = keys f ->
  (forall j, 0 <= j -> bitAt (bits f) j = true -> bitAt (bits g) j = true) ->
  ContainsHash f hash = Some true -> ContainsHash g hash = Some true.
Proof.
  intros Hf Hg Hm Hk Hsub. rewrite !ContainsHash_spec by assumption.
  intros [= Hall]. f_equal.
  rewrite forallb_forall in Hall. apply forallb_forall. intros j Hj.
  unfold positions in *. rewrite Hm, Hk in Hj.
  apply Hsub; [|apply Hall; assumption].
  apply in_map_iff in Hj as (key & <- & _). apply position_range. lia.
Qed.

(** C2.  On a filter whose bit array holds a word for each of its [m] bits,
    [AddHash(h)] returns (it does not panic); afterwards a bit is set exactly
    if it was set before or its index is [(h XOR key_i) mod m] for one of the
    keys; keys, bit width and the number of words are as before; the element
    count is the old one plus 1 (a [uint64]: the sum is taken modulo [2^64]),
    whatever was inserted before.  [Add(v)] is [AddHash] of [v]'s hash: same
    bit update, same increment.  Inserting [h] once more changes no bit and
    adds 1 to the count again. *)
Theorem AddHash_sets_positions {V} `{Hash64 V} (f : Filter) (h : Z) :
  0 < m f <= 64 * len (bits f) ->
  exists f',
    AddHash f h = Some f' /\
    (forall j, 0 <= j ->
       bitAt (bits f') j = bitAt (bits f) j || bool_decide (j ∈ positions f h)) /\
    length (bits f') = length (bits f) /\
    keys f' = keys f /\ m f' = m f /\
    n f' = u64 (n f + 1) /\
    (forall v : V, Sum64 v = h -> Add f v = Some f') /\
    (exists f'',
       AddHash f' h = Some f'' /\
       (forall j, 0 <= j -> bitAt (bits f'') j = bitAt (bits f') j) /\
       n f'' = u64 (n f' + 1)).
Proof.
  intros Hm.
  destruct (AddHash_spec f h Hm) as (f' & Hadd & Hbits & Hl & Hk & Hmm & Hn).
  exists f'. repeat (split; [assumption|]).
  split; [intros v <-; rewrite Add_AddHash; assumption|].
  destruct (AddHash_spec f' h) as (f'' & Hadd' & Hbits' & _ & _ & _ & Hn').
  { unfold len in *. rewrite Hmm, Hl. assumption. }
  exists f''. split; [assumption|]. split; [|assumption].
  intros j Hj. rewrite (Hbits' j Hj). unfold positions. rewrite Hk, Hmm.
  fold (positions f h). rewrite (Hbits j Hj), <- orb_assoc, orb_diag. reflexivity.
Qed.

(** C3.  On a filter whose bit array holds a word for each of its [m] bits,
    [ContainsHash(h)] returns true if and only if the bit at
    [(h XOR key_i) mod m] is 1 for every key, and false otherwise; the loop
    with the early exit returns what the loop that tests all positions
    returns; [Contains(v)] is [ContainsHash] of [v]'s hash. *)
Theorem ContainsHash_all_positions {V} `{Hash64 V} (f : Filter) (h : Z) :
  0 < m f <= 64 * len (bits f) ->
  exists b,
    ContainsHash f h = Some b /\
    (b = true <->
       forall key, key ∈ keys f -> bitAt (bits f) (Z.lxor h key mod m f) = true) /\
    testAll f h = Some b /\
    (forall v : V, Sum64 v = h -> Contains f v = Some b).
Proof.
  intros Hm. exists (forallb (bitAt (bits f)) (positions f h)).
  split; [apply ContainsHash_spec; assumption|]. split; [|split].
  - rewrite forallb_forall. unfold positions. split.
    + intros Hall key Hkey. apply Hall, in_map_iff. exists key.
      split; [reflexivity|]. apply list_elem_of_In. assumption.
    + intros Hall j Hj. apply in_map_iff in Hj as (key & <- & Hkey).
      apply Hall, list_elem_of_In. assumption.
  - unfold testAll.
    rewrite (testAll_loop_spec h (m f) (bits f) (keys f) true Hm). simpl.
    unfold positions. destruct (forallb _ _); reflexivity.
  - intros v <-. rewrite Contains_ContainsHash. apply ContainsHash_spec. assumption.
Qed.

(** ** Construction *)

Lemma forallb_differs (kj : Z) (rest : list Z) :
  forallb (fun ki => negb (ki =? kj)) rest = true <-> kj ∉ rest.
Proof.
  induction rest as [|x rest IH]; simpl.
  - split; [intros _; apply not_elem_of_nil|reflexivity].
  - rewrite andb_true_iff, IH, not_elem_of_cons, negb_true_iff, Z.eqb_neq.
    split; intros [? ?]; split; congruence.
Qed.

Lemma uniqueKeys_NoDup (ks : list Z) : uniqueKeys ks = true <-> NoDup ks.
Proof.
  induction ks as [|kj rest IH]; simpl.
  - split; [intros _; constructor|reflexivity].
  - rewrite andb_true_iff, forallb_differs, IH, NoDup_cons. reflexivity.
Qed.

Lemma make_length {A} (z : A) (k : Z) : length (make z k) = Z.to_nat k.
Proof. apply length_replicate. Qed.

Lemma copy_blank (ks : list Z) : copy (make 0 (len ks)) ks = ks.
Proof.
  unfold copy, len, make. rewrite length_replicate, Nat2Z.id.
  rewrite firstn_all, drop_replicate, Nat.sub_diag. apply app_nil_r.
Qed.

Lemma newKeysCopy_Ok (ks : list Z) :
  KMin <= len ks -> NoDup ks -> newKeysCopy ks = Ok ks.
Proof.
  intros Hk Hnd. unfold newKeysCopy, newKeysBlank.
  apply uniqueKeys_NoDup in Hnd. rewrite Hnd. simpl.
  destruct (Z.ltb_spec (len ks) KMin); [lia|].
  rewrite copy_blank. reflexivity.
Qed.

Lemma NewWithKeys_Ok (mm : Z) (ks : list Z) :
  MMin <= mm -> KMin <= len ks -> NoDup ks ->
  NewWithKeys mm ks = Ok {| bits := make 0 (wordsFor mm); keys := ks; m := mm; n := 0 |}.
Proof.
  intros Hm Hk Hnd. unfold NewWithKeys, newBits.
  destruct (Z.ltb_spec mm MMin); [lia|].
  rewrite newKeysCopy_Ok by assumption. reflexivity.
Qed.

Lemma NewWithKeys_rejects (mm : Z) (ks : list Z) :
  mm < MMin \/ len ks < KMin \/ ~ NoDup ks ->
  exists e, NewWithKeys mm ks = Err e /\ ConfigurationError e.
Proof.
  intros Hbad. unfold NewWithKeys, newBits.
  destruct (Z.ltb_spec mm MMin); [eexists; split; [reflexivity|exact I]|].
  unfold newKeysCopy, newKeysBlank.
  destruct (uniqueKeys ks) eqn:Hu; simpl; [|eexists; split; [reflexivity|exact I]].
  destruct (Z.ltb_spec (len ks) KMin); [eexists; split; [reflexivity|exact I]|].
  apply uniqueKeys_NoDup in Hu. exfalso. destruct Hbad as [?|[?|?]]; [lia|lia|tauto].
Qed.

Lemma NewCompatible_Ok (f : Filter) :
  valid f ->
  NewCompatible f
  = Ok {| bits := make 0 (wordsFor (m f)); keys := keys f; m := m f; n := 0 |}.
Proof. intros [? ? ? ? ?]. apply NewWithKeys_Ok; assumption. Qed.

(** ** Union *)

Lemma IsCompatible_iff (f f2 : Filter) :
  IsCompatible f f2 = true <-> m f = m f2 /\ keys f = keys f2.
Proof.
  unfold IsCompatible. rewrite andb_true_iff, !bool_decide_eq_true. reflexivity.
Qed.

Lemma IsCompatible_sym (f f2 : Filter) :
  IsCompatible f f2 = true -> IsCompatible f2 f = true.
Proof. rewrite !IsCompatible_iff. intros [-> ->]. split; reflexivity. Qed.

Lemma compatible_words (f f2 : Filter) :
  valid f -> valid f2 -> IsCompatible f f2 = true ->
  length (bits f2) = length (bits f).
Proof.
  intros Hf Hf2 [Hm _]%IsCompatible_iff.
  pose proof (valid_words f Hf). pose proof (valid_words f2 Hf2).
  unfold len in *. rewrite Hm in *. lia.
Qed.

Lemma unionInPlace_loop_spec (src pre d : list Z) :
  (length src <= length d)%nat ->
  unionInPlace_loop (length pre) src (pre ++ d)
  = Some (pre ++ zip_with Z.lor (take (length src) d) src ++ drop (length src) d).
Proof.
  revert pre d. induction src as [|b src IH]; intros pre d Hl; simpl.
  - rewrite drop_0. reflexivity.
  - destruct d as [|w d]; simpl in Hl; [lia|].
    rewrite list_lookup_middle by reflexivity. simpl.
    rewrite insert_app_r_alt, Nat.sub_diag by lia. simpl.
    specialize (IH (pre ++ [Z.lor w b]) d ltac:(lia)).
    rewrite length_app, <- app_assoc in IH. simpl in IH.
    rewrite Nat.add_1_r in IH. rewrite IH, <- app_assoc. reflexivity.
Qed.

Lemma union_loop_spec (src pre pa a o : list Z) :
  length pa = length pre ->
  (length src <= length a)%nat -> (length src <= length o)%nat ->
  union_loop (length pre) src (pa ++ a) (pre ++ o)
  = Some (pre ++ zip_with Z.lor (take (length src) a) src ++ drop (length src) o).
Proof.
  revert pre pa a o. induction src as [|b src IH]; intros pre pa a o Hp Ha Ho; simpl.
  - rewrite drop_0. reflexivity.
  - destruct a as [|w a]; simpl in Ha; [lia|].
    destruct o as [|x o]; simpl in Ho; [lia|].
    rewrite <- Hp at 1. rewrite list_lookup_middle by reflexivity. simpl.
    rewrite list_lookup_middle by reflexivity. simpl.
    rewrite insert_app_r_alt, Nat.sub_diag by lia. simpl.
    specialize (IH (pre ++ [Z.lor w b]) (pa ++ [w]) a o).
    rewrite !length_app, <- !app_assoc in IH. simpl in IH.
    rewrite !Nat.add_1_r in IH.
    rewrite IH by lia. reflexivity.
Qed.

Lemma UnionInPlace_spec (f f2 : Filter) :
  IsCompatible f f2 = true -> length (bits f2) = length (bits f) ->
  UnionInPlace f f2
  = Some ({| bits := zip_with Z.lor (bits f) (bits f2); keys := keys f;
             m := m f; n := u64 (n f + n f2) |}, None).
Proof.
  intros Hc Hl. unfold UnionInPlace. rewrite Hc. simpl.
  pose proof (unionInPlace_loop_spec (bits f2) [] (bits f) ltac:(lia)) as Hloop.
  simpl in Hloop. rewrite Hloop. simpl.
  rewrite Hl, firstn_all, drop_all, app_nil_r. reflexivity.
Qed.

Lemma Union_spec (f f2 : Filter) :
  valid f -> IsCompatible f f2 = true -> length (bits f2) = length (bits f) ->
  Union f f2
  = Some (Ok {| bits := zip_with Z.lor (bits f) (bits f2); keys := keys f;
                m := m f; n := u64 (n f + n f2) |}).
Proof.
  intros Hv Hc Hl. unfold Union. rewrite Hc. simpl.
  rewrite NewCompatible_Ok by assumption. simpl.
  assert (Hout : length (make 0 (wordsFor (m f))) = length (bits f)).
  { rewrite make_length, <- (valid_words f Hv). apply Nat2Z.id. }
  pose proof (union_loop_spec (bits f2) [] [] (bits f) (make 0 (wordsFor (m f)))
                eq_refl ltac:(lia) ltac:(lia)) as Hloop.
  simpl in Hloop. rewrite Hloop. simpl.
  rewrite Hl, firstn_all, <- Hout, drop_all, app_nil_r. reflexivity.
Qed.

Lemma bitAt_zip_lor (a b : list Z) (j : Z) :
  length a = length b ->
  bitAt (zip_with Z.lor a b) j = bitAt a j || bitAt b j.
Proof.
  intros Hl. unfold bitAt. rewrite lookup_zip_with.
  destruct (a !! Z.to_nat (j / 64)) as [x|] eqn:Ha; simpl.
  - destruct (lookup_lt_is_Some_2 b (Z.to_nat (j / 64))) as [y Hb].
    { rewrite <- Hl. eapply lookup_lt_Some; eassumption. }
    rewrite Hb. simpl. apply Z.lor_spec.
  - apply lookup_ge_None in Ha. rewrite Hl in Ha. apply lookup_ge_None in Ha.
    rewrite Ha. simpl. rewrite Z.bits_0. reflexivity.
Qed.

Lemma zip_lor_length (a b : list Z) :
  length a = length b -> length (zip_with Z.lor a b) = length a.
Proof. intros Hl. rewrite length_zip_with. lia. Qed.

Lemma fresh_unused (σ : gmap positive Filter) : σ !! fresh (dom σ) = None.
Proof. apply not_elem_of_dom, is_fresh. Qed.

(** C4.  For compatible filters [A] and [B] held at [p] and [q]:
    [A.UnionInPlace(B)] returns without error and writes only the filter at
    [p]: its words become the word-wise OR of [A]'s and [B]'s words and its
    element count the sum of both counts (a [uint64] sum, modulo [2^64]),
    keys and bit width staying; [B], a filter other than [A], is as before.
    [A.Union(B)] returns without error a filter at a pointer that was not
    in use, with the OR of the words and the sum of the counts; [A] and [B]
    are as before. *)
Theorem union_of_compatible (σ : gmap positive Filter) (p q : positive) (A B : Filter) :
  σ !! p = Some A -> σ !! q = Some B ->
  valid A -> valid B -> IsCompatible A B = true ->
  (exists A',
     UnionInPlace_at p q σ = Some (<[p := A']> σ, None) /\
     bits A' = zip_with Z.lor (bits A) (bits B) /\
     n A' = u64 (n A + n B) /\
     keys A' = keys A /\ m A' = m A /\
     (p <> q -> <[p := A']> σ !! q = Some B)) /\
  (exists out o,
     Union_at p q σ = Some (<[o := out]> σ, Ok o) /\
     σ !! o = None /\
     bits out = zip_with Z.lor (bits A) (bits B) /\
     n out = u64 (n A + n B) /\
     keys out = keys A /\ m out = m A /\
     <[o := out]> σ !! p = Some A /\
     <[o := out]> σ !! q = Some B).
Proof.
  intros Hp Hq HA HB Hc.
  pose proof (compatible_words A B HA HB Hc) as Hl.
  split.
  - eexists. unfold UnionInPlace_at. rewrite Hp, Hq. simpl.
    rewrite (UnionInPlace_spec A B Hc Hl). simpl.
    split; [reflexivity|]. simpl. repeat (split; [reflexivity|]).
    intros Hne. rewrite lookup_insert_ne by assumption. assumption.
  - eexists. exists (fresh (dom σ)). unfold Union_at. rewrite Hp, Hq. simpl.
    rewrite (Union_spec A B HA Hc Hl). simpl.
    pose proof (fresh_unused σ) as Hfresh.
    split; [reflexivity|]. split; [assumption|]. simpl.
    repeat (split; [reflexivity|]).
    split; (rewrite lookup_insert_ne; [assumption|congruence]).
Qed.

Lemma IsCompatible_refl (f : Filter) : IsCompatible f f = true.
Proof. apply IsCompatible_iff. split; reflexivity. Qed.

(** A filter united with itself in place: the one filter is both operands,
    its words stay what they are as sets of bits and its count doubles. *)
Lemma UnionInPlace_at_self (σ : gmap positive Filter) (p : positive) (A : Filter) :
  σ !! p = Some A ->
  UnionInPlace_at p p σ
  = Some (<[p := {| bits := zip_with Z.lor (bits A) (bits A); keys := keys A;
                    m := m A; n := u64 (n A + n A) |}]> σ, None).
Proof.
  intros Hp. unfold UnionInPlace_at. rewrite Hp. simpl.
  rewrite (UnionInPlace_spec A A (IsCompatible_refl A) eq_refl). reflexivity.
Qed.

(** C5.  For filters [A] and [B] held at [p] and [q] that differ in bit
    width or in their sequence of position keys, [A.UnionInPlace(B)] and
    [A.Union(B)] both return the incompatibility error, and the store of
    filters, so every field of both operands, is as before. *)
Theorem incompatible_union_rejected (σ : gmap positive Filter) (p q : positive)
    (A B : Filter) :
  σ !! p = Some A -> σ !! q = Some B ->
  m A <> m B \/ keys A <> keys B ->
  UnionInPlace_at p q σ = Some (σ, Some errIncompatibleBloomFilters) /\
  Union_at p q σ = Some (σ, Err errIncompatibleBloomFilters).
Proof.
  intros Hp Hq Hdiff.
  assert (Hc : IsCompatible A B = false).
  { apply not_true_is_false. rewrite IsCompatible_iff. tauto. }
  unfold UnionInPlace_at, Union_at, UnionInPlace, Union.
  rewrite Hp, Hq. simpl. rewrite Hc. simpl.
  rewrite insert_id by assumption. split; reflexivity.
Qed.

(** ** No false negatives *)

Lemma valid_addressable (f : Filter) : valid f -> 0 < m f <= 64 * len (bits f).
Proof. intros [Hm _ _ _ Hb]. unfold MMin in Hm. lia. Qed.

Lemma valid_same_shape (f g : Filter) :
  valid f -> m g = m f -> keys g = keys f -> length (bits g) = length (bits f) ->
  valid g.
Proof.
  intros [? ? ? ? ?] Hm Hk Hl.
  constructor; unfold len in *; rewrite ?Hm, ?Hk, ?Hl; assumption.
Qed.

Lemma step_spec {V} `{Hash64 V} (f : Filter) (o : op V) :
  valid f ->
  (forall g, operand o = Some g -> valid g /\ IsCompatible f g = true) ->
  exists f',
    step f o = Some f' /\ valid f' /\ m f' = m f /\ keys f' = keys f /\
    (forall j, 0 <= j -> bitAt (bits f) j = true -> bitAt (bits f') j = true).
Proof.
  intros Hv Hop.
  assert (Hunion : forall g, valid g /\ IsCompatible f g = true ->
            let u := {| bits := zip_with Z.lor (bits f) (bits g); keys := keys f;
                        m := m f; n := u64 (n f + n g) |} in
            valid u /\ m u = m f /\ keys u = keys f /\
            (forall j, 0 <= j -> bitAt (bits f) j = true -> bitAt (bits u) j = true)).
  { intros g [Hg Hc]. pose proof (compatible_words f g Hv Hg Hc) as Hl. simpl.
    split; [|split; [reflexivity|split; [reflexivity|]]].
    - apply (valid_same_shape f); [assumption|reflexivity|reflexivity|].
      simpl. apply zip_lor_length. congruence.
    - intros j _ Hj. rewrite bitAt_zip_lor, Hj by congruence. reflexivity. }
  assert (Hinto : forall g, valid g /\ IsCompatible f g = true ->
            let u := {| bits := zip_with Z.lor (bits g) (bits f); keys := keys g;
                        m := m g; n := u64 (n g + n f) |} in
            valid u /\ m u = m f /\ keys u = keys f /\
            (forall j, 0 <= j -> bitAt (bits f) j = true -> bitAt (bits u) j = true)).
  { intros g [Hg Hc]. pose proof (compatible_words f g Hv Hg Hc) as Hl.
    apply IsCompatible_iff in Hc as [Hm Hk]. simpl.
    split; [|split; [congruence|split; [congruence|]]].
    - apply (valid_same_shape g); [assumption|reflexivity|reflexivity|].
      simpl. apply zip_lor_length. congruence.
    - intros j _ Hj. rewrite bitAt_zip_lor, Hj by congruence. apply orb_true_r. }
  assert (Hins : forall hash, exists f',
            AddHash f hash = Some f' /\ valid f' /\ m f' = m f /\ keys f' = keys f /\
            (forall j, 0 <= j -> bitAt (bits f) j = true -> bitAt (bits f') j = true)).
  { intros hash.
    destruct (AddHash_spec f hash (valid_addressable f Hv))
      as (f' & Hadd & Hbits & Hl & Hk & Hm & _).
    exists f'. split; [assumption|]. split; [|split; [assumption|split; [assumption|]]].
    - apply (valid_same_shape f); assumption.
    - intros j Hpos Hj. rewrite (Hbits j Hpos), Hj. reflexivity. }
  destruct o as [v|hash|g|g|g|g]; simpl.
  - rewrite Add_AddHash. apply Hins.
  - apply Hins.
  - destruct (Hop g eq_refl) as [Hg Hc].
    rewrite (UnionInPlace_spec f g Hc (compatible_words f g Hv Hg Hc)). simpl.
    eexists. split; [reflexivity|]. apply (Hunion g). split; assumption.
  - destruct (Hop g eq_refl) as [Hg Hc].
    rewrite (Union_spec f g Hv Hc (compatible_words f g Hv Hg Hc)). simpl.
    eexists. split; [reflexivity|]. apply (Hunion g). split; assumption.
  - destruct (Hop g eq_refl) as [Hg Hc].
    pose proof (compatible_words f g Hv Hg Hc) as Hl.
    rewrite (UnionInPlace_spec g f (IsCompatible_sym f g Hc) (eq_sym Hl)). simpl.
    eexists. split; [reflexivity|]. apply (Hinto g). split; assumption.
  - destruct (Hop g eq_refl) as [Hg Hc].
    pose proof (compatible_words f g Hv Hg Hc) as Hl.
    rewrite (Union_spec g f Hg (IsCompatible_sym f g Hc) (eq_sym Hl)). simpl.
    eexists. split; [reflexivity|]. apply (Hinto g). split; assumption.
Qed.

Lemma IsCompatible_shape (f f' g : Filter) :
  m f' = m f -> keys f' = keys f -> IsCompatible f g = IsCompatible f' g.
Proof. unfold IsCompatible. intros -> ->. reflexivity. Qed.

Lemma run_spec {V} `{Hash64 V} (f0 f : Filter) (ops : list (op V)) :
  valid f -> m f = m f0 -> keys f = keys f0 ->
  Forall (fun o => forall g, operand o = Some g -> valid g /\ IsCompatible f0 g = true) ops ->
  exists f',
    run f ops = Some f' /\ valid f' /\ m f' = m f /\ keys f' = keys f /\
    (forall j, 0 <= j -> bitAt (bits f) j = true -> bitAt (bits f') j = true).
Proof.
  intros Hv Hm Hk Hops. revert f Hv Hm Hk.
  induction Hops as [|o ops Ho Hops IH]; intros f Hv Hm Hk; simpl.
  - exists f. auto.
  - destruct (step_spec f o Hv) as (f1 & Hstep & Hv1 & Hm1 & Hk1 & Hsub1).
    { intros g Hg. rewrite <- (IsCompatible_shape f0 f g) by assumption. auto. }
    rewrite Hstep. simpl.
    destruct (IH f1 Hv1 ltac:(congruence) ltac:(congruence))
      as (f' & Hrun & Hv' & Hm' & Hk' & Hsub').
    exists f'. split; [assumption|]. split; [assumption|].
    split; [congruence|]. split; [congruence|]. auto.
Qed.

(** C1.  On a filter of the data model, [AddHash(h)] returns, and
    [ContainsHash(h)] is true right after it and after any further sequence
    of [Add], [AddHash] and unions with compatible filters of the data model
    (in place or not, the filter as receiver or as argument), all of which
    return; the same holds for [Add(v)] and [Contains(v)] of a value that
    hashes to [h]. *)
Theorem no_false_negatives {V} `{Hash64 V} (f : Filter) (h : Z) (ops : list (op V)) :
  valid f ->
  Forall (fun o => forall g, operand o = Some g -> valid g /\ IsCompatible f g = true) ops ->
  exists f1 f2,
    AddHash f h = Some f1 /\
    ContainsHash f1 h = Some true /\
    run f1 ops = Some f2 /\
    ContainsHash f2 h = Some true /\
    (forall v : V, Sum64 v = h ->
       Add f v = Some f1 /\ Contains f1 v = Some true /\ Contains f2 v = Some true).
Proof.
  intros Hv Hops.
  destruct (AddHash_spec f h (valid_addressable f Hv))
    as (f1 & Hadd & Hbits & Hl & Hk & Hm & _).
  assert (Hv1 : valid f1) by (apply (valid_same_shape f); assumption).
  assert (Hin : ContainsHash f1 h = Some true).
  { rewrite ContainsHash_spec by (apply valid_addressable; assumption).
    f_equal. apply forallb_forall. intros j Hj.
    assert (0 <= j).
    { unfold positions in Hj. apply in_map_iff in Hj as (key & <- & _).
      apply position_range. pose proof (valid_addressable f1 Hv1). lia. }
    rewrite Hbits by assumption.
    unfold positions in *. rewrite Hk, Hm in Hj.
    rewrite (bool_decide_eq_true_2 _ (proj2 (list_elem_of_In _ _) Hj)).
    apply orb_true_r. }
  destruct (run_spec f f1 ops Hv1 Hm Hk Hops) as (f2 & Hrun & Hv2 & Hm2 & Hk2 & Hsub).
  assert (Hin2 : ContainsHash f2 h = Some true).
  { apply (ContainsHash_mono f1 f2); try assumption;
      apply valid_addressable; assumption. }
  exists f1, f2. repeat (split; [assumption|]).
  intros v <-. rewrite Add_AddHash, !Contains_ContainsHash. auto.
Qed.

(** ** Reading from a buffer *)

(** A [Read] of the hashing reader over a chunked reader, laid open. *)
Ltac unfold_Read :=
  unfold Read, hashingReader_IOReader, hashingReader_Read, Read, Reader_IOReader,
    Reader_Read.

Lemma i64_add_l (a b : Z) : i64 (i64 a + b) = i64 (a + b).
Proof.
  unfold i64.
  replace ((a + 2 ^ 63) mod 2 ^ 64 - 2 ^ 63 + b + 2 ^ 63)
    with ((a + 2 ^ 63) mod 2 ^ 64 + b) by lia.
  rewrite Z.add_mod_idemp_l by lia. do 2 f_equal. lia.
Qed.

Lemma pending_cons (c : list byte) (cs : list (list byte)) :
  c <> [] -> pending (c :: cs) = c :: cs.
Proof. destruct c; [congruence|reflexivity]. Qed.

Lemma readAtLeast_loop_nil {R} `{IOReader R} (fuel : nat) (r : R) (got : list byte) :
  readAtLeast_loop fuel r got [] = Some (r, got, None).
Proof. destruct fuel; reflexivity. Qed.

Lemma readAtLeast_loop_S {R} `{IOReader R} (fuel : nat) (r : R) (got rest : list byte) :
  rest <> [] ->
  readAtLeast_loop (S fuel) r got rest
  = let '(r', p', nn, err) := Read r rest in
    let got' := got ++ take (Z.to_nat nn) p' in
    let rest' := drop (Z.to_nat nn) p' in
    match err with
    | None => readAtLeast_loop fuel r' got' rest'
    | Some e =>
        Some (r', got' ++ rest',
              match rest' with
              | [] => None
              | _ :: _ =>
                  if (0 <? len got') && bool_decide (e = EOF)
                  then Some ErrUnexpectedEOF else Some e
              end)
    end.
Proof. destruct rest; [congruence|reflexivity]. Qed.

Lemma nonempty_length {A} (l : list A) : (0 < length l)%nat -> l <> [].
Proof. destruct l; simpl; [lia|congruence]. Qed.

Lemma Read_bufferAt (data : list byte) (j : nat) (p : list byte) :
  (0 < length p)%nat -> (j + length p <= length data)%nat ->
  Read (bufferAt data j) p
  = (bufferAt data (j + length p), take (length p) (drop j data),
     Z.of_nat (length p), None).
Proof.
  intros Hp Hj.
  assert (Hd : (length p <= length (drop j data))%nat) by (rewrite length_drop; lia).
  unfold_Read. unfold bufferAt. cbn [reader chunks final hasher tot].
  rewrite pending_cons by (apply nonempty_length; lia).
  rewrite Nat.min_l by assumption.
  rewrite drop_all, app_nil_r, drop_drop, take_take_drop.
  rewrite i64_add_l, Nat2Z.inj_add. reflexivity.
Qed.

Lemma ReadFull_bufferAt (data : list byte) (j k : nat) :
  (0 < k)%nat -> (j + k <= length data)%nat ->
  ReadFull (bufferAt data j) (replicate k x00)
  = Some (bufferAt data (j + k), take k (drop j data), None).
Proof.
  intros Hk Hj. unfold ReadFull. rewrite length_replicate.
  destruct k as [|k]; [lia|].
  rewrite readAtLeast_loop_S by (simpl; congruence).
  rewrite Read_bufferAt by (rewrite length_replicate; lia).
  rewrite length_replicate. cbv beta iota zeta.
  rewrite Nat2Z.id, take_idemp.
  rewrite (drop_ge (take (S k) (drop j data)) (S k))
    by (rewrite length_take, length_drop; lia).
  apply readAtLeast_loop_nil.
Qed.

Lemma binary_Read_bufferAt (data : list byte) (j : nat) (size : Z) :
  0 < size -> (j + Z.to_nat size <= length data)%nat ->
  binary_Read (bufferAt data j) size
  = Some (bufferAt data (j + Z.to_nat size), Ok (take (Z.to_nat size) (drop j data))).
Proof.
  intros Hs Hj. unfold binary_Read, make.
  rewrite ReadFull_bufferAt by lia. reflexivity.
Qed.

Lemma Uint64_take (bs : list byte) : Uint64 (take 8 bs) = Uint64 bs.
Proof. unfold Uint64. rewrite take_idemp. reflexivity. Qed.

Lemma binary_Read_uint64_bufferAt (data : list byte) (j : nat) (old : Z) :
  (j + 8 <= length data)%nat ->
  binary_Read_uint64 (bufferAt data j) old
  = Some (bufferAt data (j + 8), Uint64 (drop j data), None).
Proof.
  intros Hj. unfold binary_Read_uint64, Uint64Bytes.
  rewrite binary_Read_bufferAt by (simpl; lia).
  change (Z.to_nat 8) with 8%nat. simpl. rewrite Uint64_take. reflexivity.
Qed.

Lemma unmarshalBinaryBits_loop_bufferAt (todo : list Z) (data : list byte) (j : nat)
    (bs : list byte) (done : list Z) :
  length bs = 8%nat -> (j + 8 * length todo <= length data)%nat ->
  unmarshalBinaryBits_loop (bufferAt data j) bs done todo
  = (bufferAt data (j + 8 * length todo),
     done ++ Uint64s (length todo) (drop j data), None).
Proof.
  revert j bs done. induction todo as [|w todo IH]; intros j bs done Hbs Hj.
  - simpl. rewrite Nat.add_0_r, app_nil_r. reflexivity.
  - cbn [unmarshalBinaryBits_loop length Uint64s]. cbn [length] in Hj.
    rewrite Read_bufferAt by lia. rewrite Hbs.
    rewrite IH.
    + rewrite Uint64_take, drop_drop, <- app_assoc. simpl.
      do 3 f_equal. lia.
    + rewrite length_take, length_drop. lia.
    + lia.
Qed.

Lemma unmarshalBinaryHeader_bufferAt (data : list byte) :
  (24 <= length data)%nat ->
  KMin <= Uint64 data -> MMin <= Uint64 (drop 16 data) ->
  unmarshalBinaryHeader (bufferAt data 0)
  = Some (bufferAt data 24, Uint64 data, Uint64 (drop 8 data), Uint64 (drop 16 data), None).
Proof.
  intros Hl Hk Hm. unfold unmarshalBinaryHeader.
  rewrite binary_Read_uint64_bufferAt by lia. cbn [mbind option_bind Nat.add].
  rewrite drop_0.
  destruct (Z.ltb_spec (Uint64 data) KMin); [lia|].
  rewrite binary_Read_uint64_bufferAt by lia. cbn [mbind option_bind Nat.add].
  rewrite binary_Read_uint64_bufferAt by lia. cbn [mbind option_bind Nat.add].
  destruct (Z.ltb_spec (Uint64 (drop 16 data)) MMin); [lia|].
  reflexivity.
Qed.

Lemma Uint64s_take (k : nat) (bs : list byte) :
  Uint64s k (take (8 * k) bs) = Uint64s k bs.
Proof.
  revert bs. induction k as [|k IH]; intros bs; [reflexivity|].
  cbn [Uint64s]. f_equal.
  - unfold Uint64. rewrite take_take. f_equal. f_equal. lia.
  - rewrite <- (IH (drop 8 bs)). f_equal.
    rewrite take_drop_commute. do 2 f_equal. lia.
Qed.

Lemma unmarshalBinaryKeys_bufferAt (data : list byte) (j : nat) (k : Z) :
  KMin <= k -> (j + 8 * Z.to_nat k <= length data)%nat ->
  unmarshalBinaryKeys (bufferAt data j) k
  = Some (bufferAt data (j + 8 * Z.to_nat k), Uint64s (Z.to_nat k) (drop j data), None).
Proof.
  intros Hk Hj. unfold unmarshalBinaryKeys, KMin in *.
  assert (Hlen : len (make 0 k) = k) by (unfold len; rewrite make_length; lia).
  rewrite Hlen.
  rewrite binary_Read_bufferAt by lia.
  replace (Z.to_nat (8 * k)) with (8 * Z.to_nat k)%nat by lia.
  cbn [mbind option_bind]. rewrite make_length, Uint64s_take. reflexivity.
Qed.

Lemma unmarshalBinaryBits_bufferAt (data : list byte) (j : nat) (mm : Z) :
  MMin <= mm -> (j + 8 * Z.to_nat (wordsFor mm) <= length data)%nat ->
  unmarshalBinaryBits (bufferAt data j) mm
  = (bufferAt data (j + 8 * Z.to_nat (wordsFor mm)),
     Uint64s (Z.to_nat (wordsFor mm)) (drop j data), None).
Proof.
  intros Hm Hj. unfold unmarshalBinaryBits, newBits.
  destruct (Z.ltb_spec mm MMin); [lia|].
  rewrite unmarshalBinaryBits_loop_bufferAt; rewrite ?make_length; try reflexivity.
  assumption.
Qed.

Section CodecFacts.
Variable sha384 : list byte -> list byte.

Lemma UnmarshalFromReader_buffer (f : Filter) (data : list byte) :
  let k := Uint64 data in
  let nn := Uint64 (drop 8 data) in
  let mm := Uint64 (drop 16 data) in
  let plen := (24 + 8 * Z.to_nat k + 8 * Z.to_nat (wordsFor mm))%nat in
  KMin <= k -> MMin <= mm -> (plen + 48 <= length data)%nat ->
  UnmarshalFromReader sha384 f (NewBuffer data)
  = Some ({| bits := Uint64s (Z.to_nat (wordsFor mm)) (drop (24 + 8 * Z.to_nat k) data);
             keys := Uint64s (Z.to_nat k) (drop 24 data);
             m := mm; n := nn |},
          i64 (Z.of_nat (plen + 48)),
          if bool_decide (sha384 (take plen data) = take 48 (drop plen data))
          then None else Some errHash).
Proof.
  intros k nn mm plen Hk Hm Hlen.
  unfold UnmarshalFromReader.
  change ({| reader := NewBuffer data; hasher := []; tot := 0 |}) with (bufferAt data 0).
  rewrite unmarshalBinaryHeader_bufferAt by (assumption || lia).
  cbn [mbind option_bind bits keys m n].
  rewrite unmarshalBinaryKeys_bufferAt by (assumption || (fold k; lia)).
  cbn [mbind option_bind bits keys m n].
  rewrite unmarshalBinaryBits_bufferAt by (assumption || (fold k mm; lia)).
  cbn [mbind option_bind bits keys m n].
  unfold Size384. rewrite binary_Read_bufferAt by (simpl; fold k mm plen; lia).
  cbn [mbind option_bind hasher tot bufferAt].
  fold k mm nn plen. change (Z.to_nat 48) with 48%nat.
  destruct (bool_decide _); reflexivity.
Qed.
End CodecFacts.

(** ** Little-endian words *)

Lemma byte_of_to_N (x : Z) :
  Z.of_N (Byte.to_N (default x00 (Byte.of_N (Z.to_N (x mod 256))))) = x mod 256.
Proof.
  pose proof (Z.mod_pos_bound x 256 ltac:(lia)) as Hx.
  destruct (Byte.of_N (Z.to_N (x mod 256))) as [b|] eqn:Hb; simpl.
  - apply Byte.to_of_N in Hb. rewrite Hb. lia.
  - apply Byte.of_N_None_iff in Hb. lia.
Qed.

Lemma PutUint_length (k : nat) (x : Z) : length (PutUint k x) = k.
Proof. revert x. induction k; intros x; simpl; [reflexivity|]. rewrite IHk. reflexivity. Qed.

Lemma decode_PutUint (k : nat) (x : Z) :
  fold_right (fun b acc => Z.of_N (Byte.to_N b) + 256 * acc) 0 (PutUint k x)
  = x mod 256 ^ Z.of_nat k.
Proof.
  revert x. induction k as [|k IH]; intros x.
  - simpl. rewrite Z.mod_1_r. reflexivity.
  - cbn [PutUint fold_right]. rewrite IH, byte_of_to_N.
    rewrite Nat2Z.inj_succ, Z.pow_succ_r by lia.
    rewrite Z.rem_mul_r by lia. reflexivity.
Qed.

Lemma Uint64_PutUint64 (x : Z) (rest : list byte) :
  0 <= x < 2 ^ 64 -> Uint64 (PutUint64 x ++ rest) = x.
Proof.
  intros Hx. unfold Uint64, PutUint64.
  rewrite take_app_length' by (rewrite PutUint_length; reflexivity).
  rewrite decode_PutUint. change (256 ^ Z.of_nat 8) with (2 ^ 64).
  apply Z.mod_small. assumption.
Qed.

Lemma drop_PutUint64 (x : Z) (rest : list byte) : drop 8 (PutUint64 x ++ rest) = rest.
Proof. reflexivity. Qed.

Lemma PutUint64s_length (l : list Z) :
  length (concat (PutUint64 <$> l)) = (8 * length l)%nat.
Proof.
  induction l as [|x l IH]; [reflexivity|].
  rewrite fmap_cons. cbn [concat length]. rewrite length_app, IH.
  unfold PutUint64. rewrite PutUint_length. lia.
Qed.

Lemma Uint64s_PutUint64s (l : list Z) (rest : list byte) :
  Forall (fun x => 0 <= x < 2 ^ 64) l ->
  Uint64s (length l) (concat (PutUint64 <$> l) ++ rest) = l.
Proof.
  induction 1 as [|x l Hx Hl IH]; [reflexivity|].
  rewrite fmap_cons. cbn [concat length Uint64s]. rewrite <- app_assoc.
  rewrite Uint64_PutUint64, drop_PutUint64, IH by assumption. reflexivity.
Qed.

(** ** Reading from a chunked reader *)

Lemma pending_concat (cs : list (list byte)) : concat (pending cs) = concat cs.
Proof. induction cs as [|c cs IH]; [reflexivity|]. destruct c; [exact IH|reflexivity]. Qed.

Lemma pending_head (cs cs' : list (list byte)) (c : list byte) :
  pending cs = c :: cs' -> c <> [].
Proof.
  induction cs as [|c0 cs IH]; simpl; [discriminate|].
  destruct c0; [exact IH|]. intros [= <- _]. discriminate.
Qed.

Lemma i64_idem (x : Z) : i64 (i64 x) = i64 x.
Proof. pose proof (i64_add_l x 0) as Hx. rewrite !Z.add_0_r in Hx. exact Hx. Qed.

(** A [Read] into a non-empty buffer from a reader that has bytes left
    delivers some of them, in order. *)
Lemma Read_stream (h : hashingReader Reader) (p : list byte) :
  p <> [] -> stream (reader h) <> [] ->
  exists h' k,
    (0 < k <= length p)%nat /\ (k <= length (stream (reader h)))%nat /\
    Read h p = (h', take k (stream (reader h)) ++ drop k p, Z.of_nat k, None) /\
    stream (reader h') = drop k (stream (reader h)) /\
    tot h' = i64 (tot h + Z.of_nat k).
Proof.
  intros Hp Hs. unfold stream in *.
  destruct (pending (chunks (reader h))) as [|c cs] eqn:Hpend.
  { exfalso. apply Hs. rewrite <- pending_concat, Hpend. reflexivity. }
  pose proof (pending_head _ _ _ Hpend) as Hc.
  assert (Hcat : concat (chunks (reader h)) = c ++ concat cs).
  { rewrite <- pending_concat, Hpend. reflexivity. }
  assert (0 < length p)%nat by (destruct p; simpl; [congruence|lia]).
  assert (0 < length c)%nat by (destruct c; simpl; [congruence|lia]).
  eexists. exists (Nat.min (length p) (length c)).
  split; [lia|]. split; [rewrite Hcat, length_app; lia|].
  unfold_Read. rewrite Hpend. cbn [reader chunks final hasher tot].
  rewrite Hcat. rewrite take_app_le, drop_app_le by lia.
  split; [reflexivity|]. cbn [reader chunks tot concat]. split; reflexivity.
Qed.

Lemma readAtLeast_loop_stream (fuel : nat) (h : hashingReader Reader)
    (got rest : list byte) :
  (length rest <= fuel)%nat ->
  (length rest <= length (stream (reader h)))%nat ->
  i64 (tot h) = tot h ->
  exists h',
    readAtLeast_loop fuel h got rest
    = Some (h', got ++ take (length rest) (stream (reader h)), None) /\
    stream (reader h') = drop (length rest) (stream (reader h)) /\
    tot h' = i64 (tot h + len rest).
Proof.
  revert h got rest. induction fuel as [|fuel IH]; intros h got rest Hfuel Hlen Htot.
  - destruct rest; simpl in Hfuel; [|lia].
    exists h. simpl. rewrite app_nil_r, Z.add_0_r. auto.
  - destruct rest as [|b rest0] eqn:Hrest.
    { exists h. simpl. rewrite app_nil_r, Z.add_0_r. auto. }
    rewrite <- Hrest in *.
    assert (Hne : rest <> []) by (rewrite Hrest; discriminate).
    assert (Hpos : (0 < length rest)%nat) by (rewrite Hrest; simpl; lia).
    destruct (Read_stream h rest Hne) as (h1 & k & Hk & Hks & Hread & Hs1 & Ht1).
    { apply nonempty_length. lia. }
    rewrite readAtLeast_loop_S, Hread by assumption. cbv beta iota zeta.
    rewrite Nat2Z.id.
    rewrite take_app_length', drop_app_length' by (rewrite length_take; lia).
    destruct (IH h1 (got ++ take k (stream (reader h))) (drop k rest))
      as (h' & Hloop & Hs' & Ht').
    { rewrite length_drop. lia. }
    { rewrite Hs1, !length_drop. lia. }
    { rewrite Ht1. apply i64_idem. }
    exists h'. rewrite Hloop, Hs', Ht', Hs1, Ht1.
    rewrite <- app_assoc, take_take_drop, drop_drop, i64_add_l, length_drop.
    unfold len. rewrite length_drop.
    replace (k + (length rest - k))%nat with (length rest) by lia.
    split; [reflexivity|]. split; [reflexivity|]. f_equal. lia.
Qed.

Lemma binary_Read_uint64_stream (h : hashingReader Reader) (old : Z) :
  (8 <= length (stream (reader h)))%nat -> i64 (tot h) = tot h ->
  exists h',
    binary_Read_uint64 h old = Some (h', Uint64 (stream (reader h)), None) /\
    stream (reader h') = drop 8 (stream (reader h)) /\
    tot h' = i64 (tot h + 8).
Proof.
  intros Hlen Htot. unfold binary_Read_uint64, binary_Read, ReadFull.
  destruct (readAtLeast_loop_stream (length (make x00 Uint64Bytes)) h []
              (make x00 Uint64Bytes) ltac:(lia) Hlen Htot) as (h' & Hloop & Hs & Ht).
  exists h'. rewrite Hloop. cbn [mbind option_bind app].
  change (length (make x00 Uint64Bytes)) with 8%nat in *.
  rewrite Uint64_take. auto.
Qed.

(** A chunked reader never makes [io.ReadFull] spin. *)
Lemma readAtLeast_loop_total (fuel : nat) (h : hashingReader Reader)
    (got rest : list byte) :
  (length rest <= fuel)%nat -> is_Some (readAtLeast_loop fuel h got rest).
Proof.
  revert h got rest. induction fuel as [|fuel IH]; intros h got rest Hfuel.
  - destruct rest; simpl in Hfuel; [|lia]. simpl. eauto.
  - destruct rest as [|b rest0] eqn:Hrest; [simpl; eauto|].
    rewrite <- Hrest in *.
    assert (Hne : rest <> []) by (rewrite Hrest; discriminate).
    assert (Hpos : (0 < length rest)%nat) by (rewrite Hrest; simpl; lia).
    rewrite readAtLeast_loop_S by assumption.
    destruct (pending (chunks (reader h))) as [|c cs] eqn:Hpend.
    + unfold_Read. rewrite Hpend. cbv beta iota zeta. eauto.
    + destruct (Read_stream h rest Hne) as (h1 & k & Hk & Hks & Hread & _).
      { unfold stream. rewrite <- pending_concat, Hpend.
        pose proof (pending_head _ _ _ Hpend). destruct c; [congruence|discriminate]. }
      rewrite Hread. cbv beta iota zeta. apply IH.
      rewrite Nat2Z.id, drop_app_length' by (rewrite length_take; lia).
      rewrite length_drop. lia.
Qed.

(** ** The wire format *)

Lemma layout_decode (k nn mm : Z) (rest : list byte) :
  0 <= k < 2 ^ 64 -> 0 <= nn < 2 ^ 64 -> 0 <= mm < 2 ^ 64 ->
  let data := PutUint64 k ++ PutUint64 nn ++ PutUint64 mm ++ rest in
  Uint64 data = k /\ Uint64 (drop 8 data) = nn /\ Uint64 (drop 16 data) = mm /\
  drop 24 data = rest.
Proof.
  intros Hk Hn Hm data. subst data.
  change (drop 8 (PutUint64 k ++ PutUint64 nn ++ PutUint64 mm ++ rest))
    with (PutUint64 nn ++ PutUint64 mm ++ rest).
  change (drop 16 (PutUint64 k ++ PutUint64 nn ++ PutUint64 mm ++ rest))
    with (PutUint64 mm ++ rest).
  rewrite !Uint64_PutUint64 by assumption. repeat split.
Qed.

Lemma valid_m_range (f : Filter) : valid f -> 0 <= m f < 2 ^ 64.
Proof.
  intros [Hm _ _ Hw Hb]. unfold MMin in Hm. split; [lia|].
  unfold wordsFor, u64 in Hw.
  pose proof (Z.mod_pos_bound (m f + 63) (2 ^ 64) ltac:(lia)) as Hmod.
  pose proof (Z.mul_div_le ((m f + 63) mod 2 ^ 64) 64 ltac:(lia)).
  lia.
Qed.

Section CodecRoundTrip.
Variable sha384 : list byte -> list byte.

Lemma payload_length (f : Filter) :
  length (payload f) = (24 + 8 * length (keys f) + 8 * length (bits f))%nat.
Proof.
  unfold payload. rewrite !length_app, !PutUint64s_length.
  unfold PutUint64. rewrite !PutUint_length. lia.
Qed.

Lemma UnmarshalFromReader_MarshalBinary (f0 f : Filter) :
  (forall x, length (sha384 x) = 48%nat) ->
  valid f -> typed f ->
  UnmarshalFromReader sha384 f0 (NewBuffer (MarshalBinary sha384 f))
  = Some (f, i64 (Z.of_nat (length (MarshalBinary sha384 f))), None).
Proof.
  intros Hsha Hv Ht.
  pose proof (valid_m_range f Hv) as Hm.
  destruct Ht as [Hn Hk Hks Hbs].
  assert (HK : 0 <= K f < 2 ^ 64) by (unfold K, len in *; lia).
  pose proof (payload_length f) as Hplen.
  assert (Hwords : Z.to_nat (wordsFor (m f)) = length (bits f)).
  { rewrite <- (valid_words f Hv). apply Nat2Z.id. }
  assert (Hkeys : Z.to_nat (K f) = length (keys f)) by apply Nat2Z.id.
  assert (Hdata : MarshalBinary sha384 f
                  = PutUint64 (K f) ++ PutUint64 (n f) ++ PutUint64 (m f)
                      ++ concat (PutUint64 <$> keys f)
                      ++ concat (PutUint64 <$> bits f) ++ sha384 (payload f)).
  { unfold MarshalBinary. unfold payload at 1. rewrite <- !app_assoc. reflexivity. }
  destruct (layout_decode (K f) (n f) (m f)
              (concat (PutUint64 <$> keys f)
                 ++ concat (PutUint64 <$> bits f) ++ sha384 (payload f)) HK Hn Hm)
    as (Dk & Dn & Dm & Drest).
  rewrite <- Hdata in Dk, Dn, Dm, Drest.
  pose proof (UnmarshalFromReader_buffer sha384 f0 (MarshalBinary sha384 f)) as Hdec.
  cbv zeta in Hdec. rewrite Dk, Dn, Dm, Hwords, Hkeys, <- Hplen in Hdec.
  assert (Hlen : length (MarshalBinary sha384 f) = (length (payload f) + 48)%nat).
  { unfold MarshalBinary. rewrite length_app, Hsha. reflexivity. }
  rewrite Hdec; clear Hdec.
  - f_equal.
    assert (Htake : take (length (payload f)) (MarshalBinary sha384 f) = payload f).
    { unfold MarshalBinary. apply take_app_length. }
    assert (Hdrop : drop (length (payload f)) (MarshalBinary sha384 f) = sha384 (payload f)).
    { unfold MarshalBinary. apply drop_app_length. }
    rewrite Htake, Hdrop, firstn_all2 by (rewrite Hsha; lia).
    rewrite bool_decide_eq_true_2 by reflexivity.
    rewrite <- Hlen. f_equal. f_equal.
    rewrite <- drop_drop, Drest.
    rewrite drop_app_length' by (symmetry; apply PutUint64s_length).
    rewrite !Uint64s_PutUint64s by assumption.
    destruct f; reflexivity.
  - unfold KMin, K. pose proof (valid_k f Hv). unfold KMin in *. assumption.
  - apply (valid_m f Hv).
  - lia.
Qed.
End CodecRoundTrip.

Section CodecContract.
Variable sha384 : list byte -> list byte.

(** C7.  With a 48-byte digest, for a filter [f] of the data model whose
    fields hold [uint64] values, decoding the bytes of the encoding of [f]
    into any receiver returns without error, and the receiver then has the
    bit width, the position keys, the words and the element count of [f]. *)
Theorem Marshal_Unmarshal_roundtrip (f0 f : Filter) :
  (forall x, length (sha384 x) = 48%nat) ->
  valid f -> typed f ->
  UnmarshalBinary sha384 f0 (MarshalBinary sha384 f) = Some (f, None).
Proof.
  intros Hsha Hv Ht. unfold UnmarshalBinary.
  rewrite (UnmarshalFromReader_MarshalBinary sha384 f0 f Hsha Hv Ht).
  reflexivity.
Qed.

Lemma UnmarshalFromReader_errK (f : Filter) (r : Reader) :
  (8 <= length (stream r))%nat -> Uint64 (stream r) < KMin ->
  UnmarshalFromReader sha384 f r
  = Some ({| bits := bits f; keys := keys f; m := 0; n := 0 |}, 8, Some errK).
Proof.
  intros Hlen Hk. unfold UnmarshalFromReader, unmarshalBinaryHeader.
  destruct (binary_Read_uint64_stream {| reader := r; hasher := []; tot := 0 |} 0
              Hlen eq_refl) as (h1 & -> & _ & Ht1).
  cbn [mbind option_bind reader].
  destruct (Z.ltb_spec (Uint64 (stream r)) KMin); [|lia].
  cbn [mbind option_bind]. rewrite Ht1. reflexivity.
Qed.

Lemma UnmarshalFromReader_errM (f : Filter) (r : Reader) :
  (24 <= length (stream r))%nat ->
  KMin <= Uint64 (stream r) -> Uint64 (drop 16 (stream r)) < MMin ->
  UnmarshalFromReader sha384 f r
  = Some ({| bits := bits f; keys := keys f;
             m := Uint64 (drop 16 (stream r)); n := Uint64 (drop 8 (stream r)) |},
          24, Some errM).
Proof.
  intros Hlen Hk Hm. unfold UnmarshalFromReader, unmarshalBinaryHeader.
  destruct (binary_Read_uint64_stream {| reader := r; hasher := []; tot := 0 |} 0
              ltac:(simpl; lia) eq_refl) as (h1 & -> & Hs1 & Ht1).
  cbn [mbind option_bind reader] in *.
  destruct (Z.ltb_spec (Uint64 (stream r)) KMin); [lia|].
  destruct (binary_Read_uint64_stream h1 0) as (h2 & -> & Hs2 & Ht2).
  { rewrite Hs1, length_drop. lia. }
  { rewrite Ht1. apply i64_idem. }
  cbn [mbind option_bind].
  destruct (binary_Read_uint64_stream h2 0) as (h3 & -> & Hs3 & Ht3).
  { rewrite Hs2, Hs1, !length_drop. lia. }
  { rewrite Ht2. apply i64_idem. }
  cbn [mbind option_bind].
  rewrite Hs2, Hs1, drop_drop. change (8 + 8)%nat with 16%nat.
  destruct (Z.ltb_spec (Uint64 (drop 16 (stream r))) MMin); [|lia].
  cbn [mbind option_bind]. rewrite Ht3, Ht2, Ht1. reflexivity.
Qed.

(** X23.  Decoding into a receiver [f]:
    - from any reader whose first 8 bytes hold a key count below [KMin],
      it returns the error "k too small" after reading those 8 bytes only,
      and the receiver's keys and words are as before;
    - from any reader whose first 24 bytes hold a key count of at least
      [KMin] and a bit width below [MMin], it returns the error
      "m too small" after reading those 24 bytes only, and the receiver's
      keys and words are as before;
    - from a byte slice that holds a header with a key count [k] and a bit
      width [m] that pass, then [k] keys, the words for [m] and 48 more
      bytes that differ from the digest of all bytes before them, it
      returns the digest error. *)
Theorem Unmarshal_error_contract (f : Filter) :
  (forall r : Reader,
     (8 <= length (stream r))%nat -> Uint64 (stream r) < KMin ->
     exists f',
       UnmarshalFromReader sha384 f r = Some (f', 8, Some errK) /\
       keys f' = keys f /\ bits f' = bits f) /\
  (forall r : Reader,
     (24 <= length (stream r))%nat ->
     KMin <= Uint64 (stream r) -> Uint64 (drop 16 (stream r)) < MMin ->
     exists f',
       UnmarshalFromReader sha384 f r = Some (f', 24, Some errM) /\
       keys f' = keys f /\ bits f' = bits f) /\
  (forall data : list byte,
     let k := Uint64 data in
     let mm := Uint64 (drop 16 data) in
     let plen := (24 + 8 * Z.to_nat k + 8 * Z.to_nat (wordsFor mm))%nat in
     KMin <= k -> MMin <= mm -> (plen + 48 <= length data)%nat ->
     take 48 (drop plen data) <> sha384 (take plen data) ->
     exists f', UnmarshalBinary sha384 f data = Some (f', Some errHash)).
Proof.
  split; [|split].
  - intros r Hlen Hk. eexists. split; [apply UnmarshalFromReader_errK; assumption|].
    split; reflexivity.
  - intros r Hlen Hk Hm. eexists.
    split; [apply UnmarshalFromReader_errM; assumption|]. split; reflexivity.
  - intros data k mm plen Hk Hm Hlen Hdigest. unfold UnmarshalBinary.
    rewrite (UnmarshalFromReader_buffer sha384 f data Hk Hm Hlen).
    fold k mm plen. rewrite bool_decide_eq_false_2 by congruence.
    cbn [mbind option_bind]. eauto.
Qed.

(** C10.  Whatever the reader and the decompressor: when [Filter.ReadFrom]
    returns an error, of the decompressor, of the decoder or of the digest
    check, the receiver's fields are what they were before the call and the
    count is -1; when it returns no error, the receiver's fields are those
    of the filter that [ReadFrom] decoded on its own.  An error of the
    decompressor is returned as it is, beside the receiver as it was. *)
Theorem Filter_ReadFrom_atomic :
  (forall (R Rraw : Type) (readRaw : IOReader Rraw) (gzip_NewReader : R -> result Rraw)
          (f : Filter) (r : R) (f' : Filter) (cnt : Z) (err : option error),
     Filter_ReadFrom sha384 gzip_NewReader f r = Some (f', cnt, err) ->
     match err with
     | Some _ => f' = f /\ cnt = -1
     | None => ReadFrom sha384 gzip_NewReader r = Some (Ok (f', cnt))
     end) /\
  (forall (R Rraw : Type) (readRaw : IOReader Rraw) (gzip_NewReader : R -> result Rraw)
          (f : Filter) (r : R) (e : error),
     gzip_NewReader r = Err e ->
     Filter_ReadFrom sha384 gzip_NewReader f r = Some (f, -1, Some e)).
Proof.
  split.
  - intros R Rraw readRaw gzip_NewReader f r f' cnt err.
    unfold Filter_ReadFrom, ReadFrom.
    destruct (gzip_NewReader r) as [rawR|e]; cbn [mbind option_bind].
    + destruct (UnmarshalFromReader sha384 newFilter rawR) as [[[f2 cnt2] [e|]]|];
        cbn [mbind option_bind]; [| |discriminate].
      * intros [= <- <- <-]. auto.
      * intros [= <- <- <-]. destruct f2; reflexivity.
    + intros [= <- <- <-]. auto.
  - intros R Rraw readRaw gzip_NewReader f r e Hgz.
    unfold Filter_ReadFrom, ReadFrom. rewrite Hgz. reflexivity.
Qed.
End CodecContract.

(** ** Construction at the boundaries *)

Lemma wordsFor_ceil (mm : Z) : 0 <= mm <= 2 ^ 64 - 64 -> wordsFor mm = (mm + 63) / 64.
Proof. intros Hm. unfold wordsFor, u64. rewrite Z.mod_small by lia. reflexivity. Qed.

Lemma NewWithKeys_valid (mm : Z) (ks : list Z) :
  MMin <= mm <= 2 ^ 64 - 64 -> KMin <= len ks -> NoDup ks ->
  exists f,
    NewWithKeys mm ks = Ok f /\ valid f /\
    m f = mm /\ keys f = ks /\ n f = 0 /\
    bits f = replicate (Z.to_nat ((mm + 63) / 64)) 0.
Proof.
  intros Hm Hk Hnd. unfold MMin in Hm. eexists.
  split; [apply NewWithKeys_Ok; unfold MMin; (assumption || lia)|].
  assert (Hw : 0 <= wordsFor mm).
  { rewrite wordsFor_ceil by lia. apply Z.div_pos; lia. }
  split; [|rewrite <- wordsFor_ceil by lia; repeat split].
  constructor; simpl; unfold len, MMin; rewrite ?make_length; try assumption; try lia.
  rewrite Z2Nat.id, wordsFor_ceil by (assumption || lia).
  pose proof (Z.div_mod (mm + 63) 64 ltac:(lia)).
  pose proof (Z.mod_pos_bound (mm + 63) 64 ltac:(lia)). lia.
Qed.

Lemma Uint64s_length (k : nat) (bs : list byte) : length (Uint64s k bs) = k.
Proof. revert bs. induction k; intros bs; simpl; [reflexivity|]. rewrite IHk. reflexivity. Qed.

Lemma New_rejects (crand : Reader) (mm k : Z) (res : result Filter) :
  mm < MMin \/ k < KMin ->
  New crand mm k = Some res ->
  exists e, res = Err e /\ ConfigurationError e.
Proof.
  intros Hbad. unfold New, newRandKeys.
  destruct (binary_Read crand _) as [[r' [bs|e]]|]; cbn [mbind option_bind];
    [|discriminate|discriminate].
  intros [= <-]. apply NewWithKeys_rejects.
  destruct Hbad as [Hm|Hk]; [left; assumption|right; left].
  unfold len, KMin in *. rewrite Uint64s_length, make_length. lia.
Qed.

Lemma readAtLeast_loop_reader {R} `{IOReader R} (fuel : nat) (h : hashingReader R)
    (got rest : list byte) :
  readAtLeast_loop fuel (reader h) got rest
  = (fun '(h', b, e) => (reader h', b, e)) <$> readAtLeast_loop fuel h got rest.
Proof.
  revert h got rest. induction fuel as [|fuel IH]; intros h got rest;
    destruct rest as [|b rest]; try reflexivity.
  cbn [readAtLeast_loop].
  unfold Read at 2, hashingReader_IOReader, hashingReader_Read.
  destruct (Read (reader h) (b :: rest)) as [[[r' p'] nn] [e|]]; [reflexivity|].
  apply (IH {| reader := r'; hasher := hasher h ++ p'; tot := i64 (tot h + nn) |}).
Qed.

Lemma New_2_1 (crand : Reader) :
  (8 <= length (stream crand))%nat ->
  New crand 2 1
  = Some (Ok {| bits := [0]; keys := [Uint64 (stream crand)]; m := 2; n := 0 |}).
Proof.
  intros Hlen. unfold New, newRandKeys, binary_Read, ReadFull.
  rewrite (readAtLeast_loop_reader _ {| reader := crand; hasher := []; tot := 0 |}).
  destruct (readAtLeast_loop_stream (length (make x00 (8 * len (make 0 1))))
              {| reader := crand; hasher := []; tot := 0 |} [] (make x00 (8 * len (make 0 1)))
              ltac:(lia) Hlen eq_refl) as (h' & -> & _).
  cbn [fmap option_fmap option_map mbind option_bind app reader].
  change (length (make 0 1)) with 1%nat.
  change (length (make x00 (8 * len (make 0 1)))) with 8%nat.
  cbn [Uint64s]. rewrite Uint64_take. reflexivity.
Qed.

(** C6.  The word count of [newBits] wraps.  [NewWithKeys(2^64-1, [1])]
    passes the checks and returns a filter with bit width [2^64-1] and no
    word at all, where [ceil(m/64)] is [2^58]; the first [AddHash] on that
    filter indexes the empty bit array and panics. *)
Theorem NewWithKeys_word_count_wraps :
  NewWithKeys (2 ^ 64 - 1) [1]
  = Ok {| bits := []; keys := [1]; m := 2 ^ 64 - 1; n := 0 |} /\
  (2 ^ 64 - 1 + 63) / 64 = 2 ^ 58 /\
  AddHash {| bits := []; keys := [1]; m := 2 ^ 64 - 1; n := 0 |} 0 = None.
Proof. repeat split. Qed.

(** ** Instances of the statements *)

Lemma filter64_valid : valid filter64.
Proof.
  constructor; cbn; unfold len, MMin, KMin; cbn; try lia.
  - apply uniqueKeys_NoDup. reflexivity.
  - reflexivity.
Qed.

Lemma filter64_42_valid : valid filter64_42.
Proof. apply (valid_same_shape filter64); [apply filter64_valid|reflexivity..]. Qed.

Lemma filter64_other_valid : valid filter64_other.
Proof. apply (valid_same_shape filter64); [apply filter64_valid|reflexivity..]. Qed.

Lemma filter64_42_typed : typed filter64_42.
Proof. constructor; cbn; unfold len; cbn; try lia; repeat constructor; lia. Qed.

(** The scenario [NewWithKeys(64, [1,2,3])], [AddHash(42)]: exactly the bits
    43, 40 and 41 are set, 42 is found and 7 is not. *)
Example scenario_64 :
  NewWithKeys 64 [1; 2; 3] = Ok filter64 /\
  AddHash filter64 42 = Some filter64_42 /\
  positions filter64 42 = [43; 40; 41] /\
  bits filter64_42 = [2 ^ 43 + 2 ^ 40 + 2 ^ 41] /\
  ContainsHash filter64_42 42 = Some true /\
  ContainsHash filter64_42 7 = Some false.
Proof. repeat split. Qed.

(** The word count at the largest bit width it is right for, and one past. *)
Example wordsFor_boundary :
  wordsFor (2 ^ 64 - 64) = 2 ^ 58 - 1 /\ wordsFor (2 ^ 64 - 63) = 0.
Proof. split; reflexivity. Qed.

(** [hashingReader.Read] hashes its whole buffer also when the read was
    short: an intact encoding that arrives in two chunks, the first one
    ending inside a header field, fails the digest check. *)
Example short_read_digest :
  UnmarshalBinary lengthDigest newFilter (MarshalBinary lengthDigest filter64_42)
  = Some (filter64_42, None) /\
  UnmarshalFromReader lengthDigest newFilter
    {| chunks := [take 13 (MarshalBinary lengthDigest filter64_42);
                  drop 13 (MarshalBinary lengthDigest filter64_42)];
       final := EOF |}
  = Some (filter64_42, 104, Some errHash).
Proof. split; vm_compute; reflexivity. Qed.

Lemma AddHash_sets_positions_witness :
  0 < m filter64 <= 64 * len (bits filter64) /\
  exists f',
    AddHash filter64 42 = Some f' /\
    (forall j, 0 <= j ->
       bitAt (bits f') j = bitAt (bits filter64) j
                           || bool_decide (j ∈ positions filter64 42)) /\
    length (bits f') = length (bits filter64) /\
    keys f' = keys filter64 /\ m f' = m filter64 /\
    n f' = u64 (n filter64 + 1) /\
    (forall v : Z, @Sum64 Z selfHash v = 42 -> @Add Z selfHash filter64 v = Some f') /\
    (exists f'',
       AddHash f' 42 = Some f'' /\
       (forall j, 0 <= j -> bitAt (bits f'') j = bitAt (bits f') j) /\
       n f'' = u64 (n f' + 1)).
Proof.
  assert (Hm : 0 < m filter64 <= 64 * len (bits filter64)) by (vm_compute; split; congruence).
  split; [exact Hm|].
  exact (@AddHash_sets_positions Z selfHash filter64 42 Hm).
Defined.

Lemma ContainsHash_all_positions_witness :
  0 < m filter64_42 <= 64 * len (bits filter64_42) /\
  exists b,
    ContainsHash filter64_42 42 = Some b /\
    (b = true <->
       forall key, key ∈ keys filter64_42 ->
         bitAt (bits filter64_42) (Z.lxor 42 key mod m filter64_42) = true) /\
    testAll filter64_42 42 = Some b /\
    (forall v : Z, @Sum64 Z selfHash v = 42 -> @Contains Z selfHash filter64_42 v = Some b).
Proof.
  assert (Hm : 0 < m filter64_42 <= 64 * len (bits filter64_42))
    by (vm_compute; split; congruence).
  split; [exact Hm|].
  exact (@ContainsHash_all_positions Z selfHash filter64_42 42 Hm).
Defined.

Lemma no_false_negatives_witness :
  valid filter64 /\
  Forall (fun o => forall g, operand o = Some g ->
                     valid g /\ IsCompatible filter64 g = true) laterOps /\
  exists f1 f2,
    AddHash filter64 42 = Some f1 /\
    ContainsHash f1 42 = Some true /\
    @run Z selfHash f1 laterOps = Some f2 /\
    ContainsHash f2 42 = Some true /\
    (forall v : Z, @Sum64 Z selfHash v = 42 ->
       @Add Z selfHash filter64 v = Some f1 /\
       @Contains Z selfHash f1 v = Some true /\
       @Contains Z selfHash f2 v = Some true).
Proof.
  assert (Hops : Forall (fun o : op Z => forall g, operand o = Some g ->
                           valid g /\ IsCompatible filter64 g = true) laterOps).
  { unfold laterOps.
    repeat (apply Forall_cons_2;
              [intros g Hg; try discriminate Hg; injection Hg as <-;
               (split; [apply filter64_other_valid|reflexivity])|]).
    apply Forall_nil_2. }
  split; [apply filter64_valid|]. split; [exact Hops|].
  exact (@no_false_negatives Z selfHash filter64 42 laterOps filter64_valid Hops).
Defined.

Lemma union_of_compatible_witness :
  store64 !! 1%positive = Some filter64_42 /\ store64 !! 2%positive = Some filter64_other /\
  valid filter64_42 /\ valid filter64_other /\
  IsCompatible filter64_42 filter64_other = true /\
  (exists A',
     UnionInPlace_at 1 2 store64 = Some (<[1%positive := A']> store64, None) /\
     bits A' = zip_with Z.lor (bits filter64_42) (bits filter64_other) /\
     n A' = u64 (n filter64_42 + n filter64_other) /\
     keys A' = keys filter64_42 /\ m A' = m filter64_42 /\
     (1%positive <> 2%positive -> <[1%positive := A']> store64 !! 2%positive = Some filter64_other)) /\
  (exists out o,
     Union_at 1 2 store64 = Some (<[o := out]> store64, Ok o) /\
     store64 !! o = None /\
     bits out = zip_with Z.lor (bits filter64_42) (bits filter64_other) /\
     n out = u64 (n filter64_42 + n filter64_other) /\
     keys out = keys filter64_42 /\ m out = m filter64_42 /\
     <[o := out]> store64 !! 1%positive = Some filter64_42 /\
     <[o := out]> store64 !! 2%positive = Some filter64_other).
Proof.
  assert (H1 : store64 !! 1%positive = Some filter64_42) by reflexivity.
  assert (H2 : store64 !! 2%positive = Some filter64_other) by reflexivity.
  assert (Hc : IsCompatible filter64_42 filter64_other = true) by reflexivity.
  split; [exact H1|]. split; [exact H2|].
  split; [apply filter64_42_valid|]. split; [apply filter64_other_valid|].
  split; [exact Hc|].
  exact (union_of_compatible store64 1 2 filter64_42 filter64_other H1 H2
           filter64_42_valid filter64_other_valid Hc).
Defined.

Lemma incompatible_union_rejected_witness :
  storeWidths !! 1%positive = Some filter1024 /\ storeWidths !! 2%positive = Some filter2048 /\
  (m filter1024 <> m filter2048 \/ keys filter1024 <> keys filter2048) /\
  UnionInPlace_at 1 2 storeWidths = Some (storeWidths, Some errIncompatibleBloomFilters) /\
  Union_at 1 2 storeWidths = Some (storeWidths, Err errIncompatibleBloomFilters).
Proof.
  assert (H1 : storeWidths !! 1%positive = Some filter1024) by reflexivity.
  assert (H2 : storeWidths !! 2%positive = Some filter2048) by reflexivity.
  assert (Hd : m filter1024 <> m filter2048 \/ keys filter1024 <> keys filter2048)
    by (left; vm_compute; discriminate).
  split; [exact H1|]. split; [exact H2|]. split; [exact Hd|].
  exact (incompatible_union_rejected storeWidths 1 2 filter1024 filter2048 H1 H2 Hd).
Defined.

Lemma lengthDigest_length (x : list byte) : length (lengthDigest x) = 48%nat.
Proof. apply length_replicate. Qed.

Lemma Marshal_Unmarshal_roundtrip_witness :
  (forall x, length (lengthDigest x) = 48%nat) /\
  valid filter64_42 /\ typed filter64_42 /\
  UnmarshalBinary lengthDigest filter1024 (MarshalBinary lengthDigest filter64_42)
  = Some (filter64_42, None).
Proof.
  split; [exact lengthDigest_length|].
  split; [exact filter64_42_valid|]. split; [exact filter64_42_typed|].
  exact (Marshal_Unmarshal_roundtrip lengthDigest filter1024 filter64_42
           lengthDigest_length filter64_42_valid filter64_42_typed).
Defined.

Lemma Unmarshal_error_contract_witness :
  ((8 <= length (stream zeroKeyCount))%nat /\ Uint64 (stream zeroKeyCount) < KMin /\
   exists f',
     UnmarshalFromReader lengthDigest filter64 zeroKeyCount = Some (f', 8, Some errK) /\
     keys f' = keys filter64 /\ bits f' = bits filter64) /\
  ((24 <= length (stream narrowHeader))%nat /\
   KMin <= Uint64 (stream narrowHeader) /\ Uint64 (drop 16 (stream narrowHeader)) < MMin /\
   exists f',
     UnmarshalFromReader lengthDigest filter64 narrowHeader = Some (f', 24, Some errM) /\
     keys f' = keys filter64 /\ bits f' = bits filter64) /\
  (KMin <= Uint64 tampered /\ MMin <= Uint64 (drop 16 tampered) /\
   (24 + 8 * Z.to_nat (Uint64 tampered)
      + 8 * Z.to_nat (wordsFor (Uint64 (drop 16 tampered))) + 48 <= length tampered)%nat /\
   take 48 (drop (24 + 8 * Z.to_nat (Uint64 tampered)
                    + 8 * Z.to_nat (wordsFor (Uint64 (drop 16 tampered)))) tampered)
   <> lengthDigest (take (24 + 8 * Z.to_nat (Uint64 tampered)
                            + 8 * Z.to_nat (wordsFor (Uint64 (drop 16 tampered)))) tampered) /\
   exists f', UnmarshalBinary lengthDigest filter64 tampered = Some (f', Some errHash)).
Proof.
  destruct (Unmarshal_error_contract lengthDigest filter64) as (HK & HM & HH).
  assert (A1 : (8 <= length (stream zeroKeyCount))%nat) by (vm_compute; lia).
  assert (A2 : Uint64 (stream zeroKeyCount) < KMin) by (vm_compute; reflexivity).
  assert (B1 : (24 <= length (stream narrowHeader))%nat) by (vm_compute; lia).
  assert (B2 : KMin <= Uint64 (stream narrowHeader)) by (vm_compute; discriminate).
  assert (B3 : Uint64 (drop 16 (stream narrowHeader)) < MMin) by (vm_compute; reflexivity).
  assert (C1 : KMin <= Uint64 tampered) by (vm_compute; discriminate).
  assert (C2 : MMin <= Uint64 (drop 16 tampered)) by (vm_compute; discriminate).
  assert (C3 : (24 + 8 * Z.to_nat (Uint64 tampered)
      + 8 * Z.to_nat (wordsFor (Uint64 (drop 16 tampered))) + 48 <= length tampered)%nat)
    by (vm_compute; lia).
  assert (C4 : take 48 (drop (24 + 8 * Z.to_nat (Uint64 tampered)
                    + 8 * Z.to_nat (wordsFor (Uint64 (drop 16 tampered)))) tampered)
   <> lengthDigest (take (24 + 8 * Z.to_nat (Uint64 tampered)
                            + 8 * Z.to_nat (wordsFor (Uint64 (drop 16 tampered)))) tampered))
    by (vm_compute; discriminate).
  split; [|split].
  - split; [exact A1|]. split; [exact A2|]. exact (HK zeroKeyCount A1 A2).
  - split; [exact B1|]. split; [exact B2|]. split; [exact B3|].
    exact (HM narrowHeader B1 B2 B3).
  - split; [exact C1|]. split; [exact C2|]. split; [exact C3|]. split; [exact C4|].
    exact (HH tampered C1 C2 C3 C4).
Defined.

Lemma Filter_ReadFrom_atomic_witness :
  Filter_ReadFrom lengthDigest storedStream filter64 zeroKeyCount
  = Some (filter64, -1, Some errK) /\
  (filter64 = filter64 /\ -1 = -1).
Proof.
  assert (Hrun : Filter_ReadFrom lengthDigest storedStream filter64 zeroKeyCount
                 = Some (filter64, -1, Some errK)) by (vm_compute; reflexivity).
  split; [exact Hrun|].
  exact (proj1 (Filter_ReadFrom_atomic lengthDigest) Reader Reader _ storedStream
           filter64 zeroKeyCount filter64 (-1) (Some errK) Hrun).
Defined.

(** * Further properties of the code *)

(** ** Keys and copies *)

(** X1.  [uniqueKeys] returns true exactly when no value stands at two
    indices of the key slice. *)
Theorem uniqueKeys_no_equal_pair (ks : list Z) :
  uniqueKeys ks = true <->
  forall (i j : nat) (x : Z), ks !! i = Some x -> ks !! j = Some x -> i = j.
Proof. rewrite uniqueKeys_NoDup. apply NoDup_alt. Qed.

Lemma fold_left_snoc {A} (l acc : list A) :
  fold_left (fun cpy v => cpy ++ [v]) l acc = acc ++ l.
Proof.
  revert acc. induction l as [|x l IH]; intros acc; simpl.
  - rewrite app_nil_r. reflexivity.
  - rewrite IH, <- app_assoc. reflexivity.
Qed.

(** X2.  [Keys] returns the position keys, in their order, and [K] is the
    number of keys it returns. *)
Theorem Keys_keys (f : Filter) : Keys f = keys f /\ K f = len (Keys f).
Proof.
  assert (Hk : Keys f = keys f) by apply fold_left_snoc.
  split; [exact Hk|]. rewrite Hk. reflexivity.
Qed.

Lemma copy_into_blank (w : nat) (bs : list Z) :
  copy (replicate w 0) bs = take w bs ++ replicate (w - length bs) 0.
Proof. unfold copy. rewrite length_replicate, drop_replicate. reflexivity. Qed.

Lemma NewWithKeys_Err_unique (mm : Z) (ks : list Z) :
  MMin <= mm -> ~ NoDup ks -> NewWithKeys mm ks = Err errKeysUnique.
Proof.
  intros Hm Hnd. unfold NewWithKeys, newBits, newKeysCopy.
  destruct (Z.ltb_spec mm MMin); [lia|].
  destruct (uniqueKeys ks) eqn:Hu; [|reflexivity].
  apply uniqueKeys_NoDup in Hu. tauto.
Qed.

Lemma Copy_Ok (f : Filter) :
  MMin <= m f -> KMin <= len (keys f) -> NoDup (keys f) ->
  Copy f = Ok {| bits := take (Z.to_nat (wordsFor (m f))) (bits f)
                         ++ replicate (Z.to_nat (wordsFor (m f)) - length (bits f)) 0;
                 keys := keys f; m := m f; n := n f |}.
Proof.
  intros Hm Hk Hnd. unfold Copy, NewCompatible. rewrite NewWithKeys_Ok by assumption.
  cbn [bits keys m n]. unfold make. rewrite copy_into_blank. reflexivity.
Qed.

Lemma Copy_same (f : Filter) :
  MMin <= m f -> KMin <= len (keys f) -> NoDup (keys f) ->
  len (bits f) = wordsFor (m f) -> Copy f = Ok f.
Proof.
  intros Hm Hk Hnd Hw. rewrite Copy_Ok by assumption. unfold len in Hw.
  rewrite <- Hw, Nat2Z.id, firstn_all, Nat.sub_diag. simpl. rewrite app_nil_r.
  destruct f; reflexivity.
Qed.

(** X3.  [Copy] of a filter with at least [MMin] bits and [KMin] keys whose
    bit array has at least the words [newBits] allocates for [m] (so that
    [Copy] allocates no more words than the source holds): with pairwise
    distinct keys it returns a filter with the same keys, bit width and
    count, whose words are the first words of the source, as many as
    [newBits] allocates, which is the source itself when its bit array has
    that many words.  On a filter whose keys repeat, as a decoded filter
    may be, [Copy] returns the error of [NewWithKeys]. *)
Theorem Copy_spec (f : Filter) :
  MMin <= m f -> KMin <= len (keys f) -> wordsFor (m f) <= len (bits f) ->
  (NoDup (keys f) ->
   Copy f = Ok {| bits := take (Z.to_nat (wordsFor (m f))) (bits f);
                  keys := keys f; m := m f; n := n f |} /\
   (len (bits f) = wordsFor (m f) -> Copy f = Ok f)) /\
  (~ NoDup (keys f) -> Copy f = Err errKeysUnique).
Proof.
  intros Hm Hk Hw. split.
  - intros Hnd. split; [|intros Hw'; apply Copy_same; assumption].
    rewrite Copy_Ok by assumption. unfold len in Hw.
    replace (Z.to_nat (wordsFor (m f)) - length (bits f))%nat with 0%nat by lia.
    cbn [replicate]. rewrite app_nil_r. reflexivity.
  - intros Hnd. unfold Copy, NewCompatible.
    rewrite NewWithKeys_Err_unique by assumption. reflexivity.
Qed.

(** X4.  [newWithKeysAndBits] with at least [MMin] bits, [KMin] pairwise
    distinct keys and at least the words [newBits] allocates for [m] (so
    that it allocates no more words than it is given) returns a filter with
    these keys, this bit width and the count [n], whose bit array has the
    words [newBits] allocates for [m]: the first words of [bits], the
    others are cut. *)
Theorem newWithKeysAndBits_spec (mm : Z) (ks bs : list Z) (nn : Z) :
  MMin <= mm -> KMin <= len ks -> NoDup ks -> wordsFor mm <= len bs ->
  exists f,
    newWithKeysAndBits mm ks bs nn = Ok f /\
    keys f = ks /\ m f = mm /\ n f = nn /\
    len (bits f) = wordsFor mm /\
    bits f = take (Z.to_nat (wordsFor mm)) bs.
Proof.
  intros Hm Hk Hnd Hw. unfold newWithKeysAndBits.
  rewrite NewWithKeys_Ok by assumption. cbn [bits keys m n].
  unfold make. rewrite copy_into_blank. unfold len in Hw.
  replace (Z.to_nat (wordsFor mm) - length bs)%nat with 0%nat by lia.
  cbn [replicate]. rewrite app_nil_r.
  eexists. split; [reflexivity|]. cbn [bits keys m n].
  repeat (split; [reflexivity|]). split; [|reflexivity].
  assert (0 <= wordsFor mm).
  { unfold wordsFor, u64. apply Z.div_pos; [|lia].
    apply Z.mod_pos_bound. lia. }
  unfold len. rewrite length_take. lia.
Qed.

(** ** Unions *)

Lemma zip_lor_comm (a b : list Z) : zip_with Z.lor a b = zip_with Z.lor b a.
Proof.
  revert b. induction a as [|x a IH]; intros [|y b]; simpl; try reflexivity.
  rewrite Z.lor_comm, IH. reflexivity.
Qed.

Lemma zip_lor_assoc (a b c : list Z) :
  zip_with Z.lor (zip_with Z.lor a b) c = zip_with Z.lor a (zip_with Z.lor b c).
Proof.
  revert b c. induction a as [|x a IH]; intros [|y b] [|z c]; simpl; try reflexivity.
  rewrite Z.lor_assoc, IH. reflexivity.
Qed.

Lemma zip_lor_diag (a : list Z) : zip_with Z.lor a a = a.
Proof. induction a as [|x a IH]; simpl; [reflexivity|]. rewrite Z.lor_diag, IH. reflexivity. Qed.

Lemma u64_add_l (a b : Z) : u64 (u64 a + b) = u64 (a + b).
Proof. unfold u64. apply Z.add_mod_idemp_l. lia. Qed.

Lemma u64_add_r (a b : Z) : u64 (a + u64 b) = u64 (a + b).
Proof. unfold u64. apply Z.add_mod_idemp_r. lia. Qed.

(** X5.  For compatible filters of the data model, [f.Union(g)] and
    [g.Union(f)] return the same filter: same words, keys, bit width and
    count. *)
Theorem Union_comm (f g : Filter) :
  valid f -> valid g -> IsCompatible f g = true ->
  Union f g = Union g f /\ exists u, Union f g = Some (Ok u).
Proof.
  intros Hf Hg Hc. pose proof (compatible_words f g Hf Hg Hc) as Hl.
  rewrite (Union_spec f g Hf Hc Hl).
  rewrite (Union_spec g f Hg (IsCompatible_sym f g Hc) (eq_sym Hl)).
  apply IsCompatible_iff in Hc as [Hm Hk].
  split; [|eauto]. rewrite zip_lor_comm, Hm, Hk, (Z.add_comm (n f)). reflexivity.
Qed.

(** X6.  For pairwise compatible filters of the data model, uniting [f]
    with [g] and the result with [h] returns the filter that uniting [f]
    with the union of [g] and [h] returns. *)
Theorem Union_assoc (f g h : Filter) :
  valid f -> valid g -> valid h ->
  IsCompatible f g = true -> IsCompatible g h = true ->
  exists fg gh u,
    Union f g = Some (Ok fg) /\ Union g h = Some (Ok gh) /\
    Union fg h = Some (Ok u) /\ Union f gh = Some (Ok u).
Proof.
  intros Hf Hg Hh Hfg Hgh.
  pose proof (compatible_words f g Hf Hg Hfg) as Hl1.
  pose proof (compatible_words g h Hg Hh Hgh) as Hl2.
  pose proof (proj1 (IsCompatible_iff f g) Hfg) as [Hm1 Hk1].
  pose proof (proj1 (IsCompatible_iff g h) Hgh) as [Hm2 Hk2].
  set (fg := {| bits := zip_with Z.lor (bits f) (bits g); keys := keys f;
                m := m f; n := u64 (n f + n g) |}).
  set (gh := {| bits := zip_with Z.lor (bits g) (bits h); keys := keys g;
                m := m g; n := u64 (n g + n h) |}).
  assert (Hvfg : valid fg).
  { apply (valid_same_shape f); [assumption|reflexivity|reflexivity|].
    apply zip_lor_length. congruence. }
  assert (Hvgh : valid gh).
  { apply (valid_same_shape g); [assumption|reflexivity|reflexivity|].
    apply zip_lor_length. congruence. }
  assert (Hc1 : IsCompatible fg h = true).
  { apply IsCompatible_iff. simpl. split; congruence. }
  assert (Hc2 : IsCompatible f gh = true).
  { apply IsCompatible_iff. simpl. split; congruence. }
  exists fg, gh. eexists.
  split; [apply Union_spec; assumption|].
  split; [apply Union_spec; assumption|].
  split.
  - apply Union_spec; [assumption|assumption|].
    simpl. rewrite zip_lor_length by congruence. congruence.
  - rewrite (Union_spec f gh Hf Hc2).
    + simpl. rewrite zip_lor_assoc, u64_add_l, u64_add_r, Z.add_assoc. reflexivity.
    + simpl. rewrite zip_lor_length by congruence. congruence.
Qed.

(** X7.  For compatible filters of the data model, [f.Union(g)] returns the
    filter that [UnionInPlace(g)] leaves in a [Copy] of [f], and [Copy] and
    [UnionInPlace] both return without error. *)
Theorem Union_is_Copy_UnionInPlace (f g : Filter) :
  valid f -> valid g -> IsCompatible f g = true ->
  exists c u,
    Copy f = Ok c /\ UnionInPlace c g = Some (u, None) /\ Union f g = Some (Ok u).
Proof.
  intros Hf Hg Hc. pose proof (compatible_words f g Hf Hg Hc) as Hl.
  exists f. eexists.
  split; [apply Copy_same; [apply Hf..]|].
  split; [apply UnionInPlace_spec; assumption|].
  apply Union_spec; assumption.
Qed.

(** X8.  A hash that a filter of the data model reports is reported by its
    union with a compatible filter of the data model, whichever of the two
    is the receiver. *)
Theorem Union_keeps_members (f g : Filter) (h : Z) :
  valid f -> valid g -> IsCompatible f g = true ->
  ContainsHash f h = Some true ->
  exists u v,
    Union f g = Some (Ok u) /\ ContainsHash u h = Some true /\
    Union g f = Some (Ok v) /\ ContainsHash v h = Some true.
Proof.
  intros Hf Hg Hc Hin. pose proof (compatible_words f g Hf Hg Hc) as Hl.
  pose proof (proj1 (IsCompatible_iff f g) Hc) as [Hm Hk].
  eexists. eexists.
  split; [apply Union_spec; assumption|].
  split; [|split; [apply Union_spec;
                     [assumption|apply IsCompatible_sym; assumption|congruence]|]].
  - apply (ContainsHash_mono f); try assumption; try reflexivity.
    + apply valid_addressable. assumption.
    + simpl. unfold len. rewrite zip_lor_length by congruence.
      apply (valid_addressable f Hf).
    + simpl. intros j _ Hj. rewrite bitAt_zip_lor, Hj by congruence. reflexivity.
  - apply (ContainsHash_mono f); try assumption; simpl; try congruence.
    + apply valid_addressable. assumption.
    + unfold len. rewrite zip_lor_length by congruence.
      apply (valid_addressable g Hg).
    + intros j _ Hj. rewrite bitAt_zip_lor, Hj by congruence. apply orb_true_r.
Qed.

(** X9.  A filter united in place with itself: the call returns without
    error, the words, keys and bit width are as before, and the count is
    twice the old one (a [uint64]: modulo [2^64]). *)
Theorem UnionInPlace_self (σ : gmap positive Filter) (p : positive) (A : Filter) :
  σ !! p = Some A ->
  UnionInPlace_at p p σ
  = Some (<[p := {| bits := bits A; keys := keys A; m := m A;
                    n := u64 (2 * n A) |}]> σ, None).
Proof.
  intros Hp. rewrite (UnionInPlace_at_self σ p A Hp), zip_lor_diag.
  replace (n A + n A) with (2 * n A) by lia. reflexivity.
Qed.

(** ** Invariants the operations keep *)

Lemma lor_u64 (a b : Z) :
  0 <= a < 2 ^ 64 -> 0 <= b < 2 ^ 64 -> 0 <= Z.lor a b < 2 ^ 64.
Proof.
  intros Ha Hb.
  assert (Hnn : 0 <= Z.lor a b) by (apply Z.lor_nonneg; lia).
  split; [assumption|].
  destruct (Z.eq_dec (Z.lor a b) 0) as [->|Hne]; [lia|].
  apply Z.log2_lt_pow2; [lia|].
  rewrite Z.log2_lor by lia.
  assert (Hlog : forall x, 0 <= x < 2 ^ 64 -> Z.log2 x < 64).
  { intros x Hx. destruct (Z.eq_dec x 0) as [->|Hx0]; [simpl; lia|].
    apply Z.log2_lt_pow2; lia. }
  pose proof (Hlog a Ha). pose proof (Hlog b Hb). lia.
Qed.

Lemma bit_u64 (i : Z) : 0 <= Z.shiftl 1 (Z.land i 63) < 2 ^ 64.
Proof.
  rewrite land63, Z.shiftl_1_l.
  pose proof (Z.mod_pos_bound i 64 ltac:(lia)).
  split; [apply Z.pow_nonneg; lia|apply Z.pow_lt_mono_r; lia].
Qed.

Lemma setbit_u64 (bs bs' : list Z) (i : Z) :
  Forall (fun x => 0 <= x < 2 ^ 64) bs -> setbit bs i = Some bs' ->
  Forall (fun x => 0 <= x < 2 ^ 64) bs'.
Proof.
  intros Hbs. unfold setbit.
  destruct (bs !! Z.to_nat (Z.shiftr i 6)) as [w|] eqn:Hw; [|discriminate].
  simpl. intros [= <-]. apply Forall_insert; [assumption|].
  apply lor_u64; [|apply bit_u64].
  exact (proj1 (Forall_lookup _ bs) Hbs _ _ Hw).
Qed.

Lemma add_loop_u64 (hash mm : Z) (ks bs bs' : list Z) :
  Forall (fun x => 0 <= x < 2 ^ 64) bs -> add_loop hash mm ks bs = Some bs' ->
  Forall (fun x => 0 <= x < 2 ^ 64) bs'.
Proof.
  revert bs. induction ks as [|key ks IH]; intros bs Hbs; simpl.
  - intros [= <-]. assumption.
  - destruct (umod (Z.lxor hash key) mm) as [i|]; [|discriminate]. simpl.
    destruct (setbit bs i) as [bs1|] eqn:Hs; [|discriminate]. simpl.
    apply IH. eapply setbit_u64; eassumption.
Qed.

Lemma unionInPlace_loop_u64 (i : nat) (src dst dst' : list Z) :
  Forall (fun x => 0 <= x < 2 ^ 64) src -> Forall (fun x => 0 <= x < 2 ^ 64) dst ->
  unionInPlace_loop i src dst = Some dst' ->
  Forall (fun x => 0 <= x < 2 ^ 64) dst'.
Proof.
  intros Hsrc. revert i dst. induction Hsrc as [|b src Hb Hsrc IH]; intros i dst Hdst; simpl.
  - intros [= <-]. assumption.
  - destruct (dst !! i) as [w|] eqn:Hw; [|discriminate]. simpl.
    apply IH. apply Forall_insert; [assumption|].
    apply lor_u64; [|assumption]. exact (proj1 (Forall_lookup _ dst) Hdst _ _ Hw).
Qed.

Lemma union_loop_u64 (i : nat) (src fb out out' : list Z) :
  Forall (fun x => 0 <= x < 2 ^ 64) src -> Forall (fun x => 0 <= x < 2 ^ 64) fb ->
  Forall (fun x => 0 <= x < 2 ^ 64) out ->
  union_loop i src fb out = Some out' ->
  Forall (fun x => 0 <= x < 2 ^ 64) out'.
Proof.
  intros Hsrc Hfb. revert i out.
  induction Hsrc as [|b src Hb Hsrc IH]; intros i out Hout; simpl.
  - intros [= <-]. assumption.
  - destruct (fb !! i) as [w|] eqn:Hw; [|discriminate]. simpl.
    destruct (out !! i) as [x|]; [|discriminate]. simpl.
    apply IH. apply Forall_insert; [assumption|].
    apply lor_u64; [|assumption]. exact (proj1 (Forall_lookup _ fb) Hfb _ _ Hw).
Qed.

Lemma u64_range (x : Z) : 0 <= u64 x < 2 ^ 64.
Proof. apply Z.mod_pos_bound. lia. Qed.

Lemma AddHash_typed (f f' : Filter) (hash : Z) :
  typed f -> AddHash f hash = Some f' -> typed f'.
Proof.
  intros [Hn Hk Hks Hbs]. unfold AddHash.
  destruct (add_loop hash (m f) (keys f) (bits f)) as [bs|] eqn:Hloop; [|discriminate].
  simpl. intros [= <-]. constructor; simpl; try assumption.
  - apply u64_range.
  - eapply add_loop_u64; eassumption.
Qed.

Lemma UnionInPlace_typed (f g f' : Filter) (err : option error) :
  typed f -> typed g -> UnionInPlace f g = Some (f', err) -> typed f'.
Proof.
  intros Hf Hg. unfold UnionInPlace.
  destruct (negb (IsCompatible f g)); [intros [= <- _]; assumption|].
  destruct (unionInPlace_loop 0 (bits g) (bits f)) as [bs|] eqn:Hloop; [|discriminate].
  simpl. intros [= <- _]. destruct Hf as [Hn Hk Hks Hbs].
  constructor; simpl; try assumption.
  - apply u64_range.
  - eapply unionInPlace_loop_u64; [apply (typed_bits g Hg)|exact Hbs|eassumption].
Qed.

Lemma replicate_u64 (w : nat) : Forall (fun x => 0 <= x < 2 ^ 64) (replicate w 0).
Proof. apply Forall_replicate. lia. Qed.

Lemma Union_typed (f g out : Filter) :
  typed f -> typed g -> Union f g = Some (Ok out) -> typed out.
Proof.
  intros Hf Hg. unfold Union.
  destruct (negb (IsCompatible f g)); [discriminate|].
  unfold NewCompatible, NewWithKeys, newBits.
  destruct (m f <? MMin); [discriminate|].
  unfold newKeysCopy, newKeysBlank.
  destruct (negb (uniqueKeys (keys f))); [discriminate|].
  destruct (len (keys f) <? KMin); [discriminate|].
  cbn [bits keys m n]. rewrite copy_blank.
  destruct (union_loop 0 (bits g) (bits f) (make 0 (wordsFor (m f)))) as [bs|] eqn:Hloop;
    [|discriminate].
  simpl. intros [= <-]. destruct Hf as [Hn Hk Hks Hbs].
  constructor; simpl; try assumption.
  - apply u64_range.
  - eapply union_loop_u64;
      [apply (typed_bits g Hg)|exact Hbs|apply replicate_u64|eassumption].
Qed.

Lemma step_typed {V} `{Hash64 V} (f f' : Filter) (o : op V) :
  typed f -> (forall g, operand o = Some g -> typed g) ->
  step f o = Some f' -> typed f'.
Proof.
  intros Hf Hop. destruct o as [v|hash|g|g|g|g]; simpl.
  - rewrite Add_AddHash. apply AddHash_typed. assumption.
  - apply AddHash_typed. assumption.
  - destruct (UnionInPlace f g) as [[u err]|] eqn:Hu; [|discriminate].
    simpl. intros [= <-]. eapply UnionInPlace_typed; [exact Hf|apply Hop; reflexivity|eassumption].
  - destruct (Union f g) as [[out|e]|] eqn:Hu; simpl; [| |discriminate].
    + intros [= <-]. eapply Union_typed; [exact Hf|apply Hop; reflexivity|eassumption].
    + intros [= <-]. assumption.
  - destruct (UnionInPlace g f) as [[u err]|] eqn:Hu; [|discriminate].
    simpl. intros [= <-]. eapply UnionInPlace_typed; [apply Hop; reflexivity|exact Hf|eassumption].
  - destruct (Union g f) as [[out|e]|] eqn:Hu; simpl; [| |discriminate].
    + intros [= <-]. eapply Union_typed; [apply Hop; reflexivity|exact Hf|eassumption].
    + intros [= <-]. assumption.
Qed.

(** X10.  Every insertion and every union with a compatible filter of the
    data model returns, and leaves a filter of the data model whose fields
    hold [uint64] values, with the bit width and the key sequence it had:
    no operation changes [M], [K] or [Keys], and no word or count leaves
    the range of its type. *)
Theorem operations_keep_invariant {V} `{Hash64 V} (f : Filter) (ops : list (op V)) :
  valid f -> typed f ->
  Forall (fun o => forall g, operand o = Some g ->
                     valid g /\ typed g /\ IsCompatible f g = true) ops ->
  exists f',
    run f ops = Some f' /\ valid f' /\ typed f' /\
    M f' = M f /\ K f' = K f /\ Keys f' = Keys f.
Proof.
  intros Hv Ht Hops.
  assert (Hgen : forall f1, valid f1 -> typed f1 -> m f1 = m f -> keys f1 = keys f ->
            exists f', run f1 ops = Some f' /\ valid f' /\ typed f' /\
                       m f' = m f /\ keys f' = keys f).
  { induction Hops as [|o ops Ho Hops IH]; intros f1 Hv1 Ht1 Hm1 Hk1; simpl.
    - exists f1. auto.
    - destruct (step_spec f1 o Hv1) as (f2 & Hstep & Hv2 & Hm2 & Hk2 & _).
      { intros g Hg. destruct (Ho g Hg) as (? & ? & Hc).
        rewrite <- (IsCompatible_shape f f1 g) by assumption. auto. }
      rewrite Hstep. simpl.
      apply IH; [assumption| |congruence|congruence].
      apply (step_typed f1 f2 o Ht1); [|assumption].
      intros g Hg. apply (Ho g Hg). }
  destruct (Hgen f Hv Ht eq_refl eq_refl) as (f' & Hrun & Hv' & Ht' & Hm' & Hk').
  exists f'. unfold M, K, Keys. rewrite Hk', Hm'.
  repeat (split; [assumption || reflexivity|]). reflexivity.
Qed.

(** ** Fresh filters *)

Lemma bitAt_zeros (w : nat) (j : Z) : bitAt (replicate w 0) j = false.
Proof.
  unfold bitAt.
  destruct (replicate w 0 !! Z.to_nat (j / 64)) as [x|] eqn:Hx; simpl.
  - apply lookup_replicate in Hx as [-> _]. apply Z.bits_0.
  - apply Z.bits_0.
Qed.

Lemma NewWithKeys_Ok_inv (mm : Z) (ks : list Z) (f : Filter) :
  NewWithKeys mm ks = Ok f -> MMin <= mm /\ KMin <= len ks /\ NoDup ks.
Proof.
  intros Hnew.
  destruct (Z_lt_dec mm MMin) as [Hm|Hm];
    [destruct (NewWithKeys_rejects mm ks) as (e & He & _); [auto|congruence]|].
  destruct (Z_lt_dec (len ks) KMin) as [Hk|Hk];
    [destruct (NewWithKeys_rejects mm ks) as (e & He & _); [auto|congruence]|].
  destruct (NoDup_dec ks) as [Hnd|Hnd];
    [|destruct (NewWithKeys_rejects mm ks) as (e & He & _); [auto|congruence]].
  split; [lia|]. split; [lia|assumption].
Qed.

(** X11.  A filter that [NewWithKeys] has returned for a bit width of at
    most [2^64-64] and [uint64] keys: the bit width was at least [MMin], the
    keys were at least [KMin] and pairwise distinct, and the filter is of
    the data model, holds [uint64] values in its fields, the bit width and
    the keys it was given and no element, with every bit at 0; every query
    on it returns false. *)
Theorem NewWithKeys_empty (mm : Z) (ks : list Z) (f : Filter) :
  NewWithKeys mm ks = Ok f ->
  mm <= 2 ^ 64 - 64 -> len ks < 2 ^ 64 -> Forall (fun x => 0 <= x < 2 ^ 64) ks ->
  (MMin <= mm /\ KMin <= len ks /\ NoDup ks) /\
  valid f /\ typed f /\ m f = mm /\ keys f = ks /\ n f = 0 /\
  (forall j, bitAt (bits f) j = false) /\
  (forall hash, ContainsHash f hash = Some false).
Proof.
  intros Hret Hm Hkl Hks.
  destruct (NewWithKeys_Ok_inv mm ks f Hret) as (Hmin & Hk & Hnd).
  split; [auto|].
  destruct (NewWithKeys_valid mm ks (conj Hmin Hm) Hk Hnd)
    as (f0 & Hnew & Hv & Hfm & Hfk & Hfn & Hfb).
  assert (f0 = f) as -> by congruence.
  split; [assumption|]. split; [|split; [assumption|split; [assumption|split; [assumption|]]]].
  - constructor; rewrite ?Hfn, ?Hfk, ?Hfb; try lia; try assumption.
    apply replicate_u64.
  - split.
    + intros j. rewrite Hfb. apply bitAt_zeros.
    + intros hash. rewrite ContainsHash_spec by (apply valid_addressable; assumption).
      f_equal. unfold positions. rewrite Hfk, Hfb.
      destruct ks as [|key ks]; [unfold len, KMin in Hk; simpl in Hk; lia|].
      simpl. rewrite bitAt_zeros. reflexivity.
Qed.

(** ** Input that ends early *)

Lemma pending_nil (cs : list (list byte)) : concat cs = [] -> pending cs = [].
Proof.
  induction cs as [|c cs IH]; [reflexivity|]. simpl.
  intros [-> Hcs]%app_eq_nil. apply IH, Hcs.
Qed.

Lemma Read_exhausted (h : hashingReader Reader) (p : list byte) :
  stream (reader h) = [] ->
  Read h p
  = ({| reader := {| chunks := []; final := final (reader h) |};
        hasher := hasher h; tot := i64 (tot h + 0) |},
     p, 0, Some (final (reader h))).
Proof. intros Hs. unfold_Read. rewrite (pending_nil _ Hs). reflexivity. Qed.

Lemma Read_stream_final (h : hashingReader Reader) (p : list byte) :
  p <> [] -> stream (reader h) <> [] ->
  exists h' k,
    (0 < k <= length p)%nat /\ (k <= length (stream (reader h)))%nat /\
    Read h p = (h', take k (stream (reader h)) ++ drop k p, Z.of_nat k, None) /\
    stream (reader h') = drop k (stream (reader h)) /\
    tot h' = i64 (tot h + Z.of_nat k) /\
    final (reader h') = final (reader h).
Proof.
  intros Hp Hs. unfold stream in *.
  destruct (pending (chunks (reader h))) as [|c cs] eqn:Hpend.
  { exfalso. apply Hs. rewrite <- pending_concat, Hpend. reflexivity. }
  pose proof (pending_head _ _ _ Hpend) as Hc.
  assert (Hcat : concat (chunks (reader h)) = c ++ concat cs).
  { rewrite <- pending_concat, Hpend. reflexivity. }
  assert (0 < length p)%nat by (destruct p; simpl; [congruence|lia]).
  assert (0 < length c)%nat by (destruct c; simpl; [congruence|lia]).
  eexists. exists (Nat.min (length p) (length c)).
  split; [lia|]. split; [rewrite Hcat, length_app; lia|].
  unfold_Read. rewrite Hpend. cbn [reader chunks final hasher tot].
  rewrite Hcat. rewrite take_app_le, drop_app_le by lia.
  split; [reflexivity|]. cbn [reader chunks tot concat final]. auto.
Qed.

(** [io.ReadFull] on a reader that runs dry before the buffer is full: the
    error is the reader's own, or [io.ErrUnexpectedEOF] when the reader
    ends with [io.EOF] after some bytes. *)
Lemma readAtLeast_loop_short (fuel : nat) (h : hashingReader Reader)
    (got rest : list byte) :
  (length rest <= fuel)%nat ->
  (length (stream (reader h)) < length rest)%nat ->
  i64 (tot h) = tot h ->
  exists h' buf,
    readAtLeast_loop fuel h got rest
    = Some (h', buf,
            Some (if (0 <? len got + len (stream (reader h)))
                     && bool_decide (final (reader h) = EOF)
                  then ErrUnexpectedEOF else final (reader h))) /\
    stream (reader h') = [] /\
    tot h' = i64 (tot h + len (stream (reader h))).
Proof.
  revert h got rest. induction fuel as [|fuel IH]; intros h got rest Hfuel Hlen Htot.
  { lia. }
  assert (Hne : rest <> []) by (apply nonempty_length; lia).
  rewrite readAtLeast_loop_S by assumption.
  destruct (stream (reader h)) as [|b0 s0] eqn:Hs.
  - rewrite (Read_exhausted h rest Hs). cbv beta iota zeta.
    change (Z.to_nat 0) with 0%nat. rewrite take_0, drop_0, app_nil_r.
    destruct rest as [|b rest0]; [congruence|].
    unfold len. simpl length. change (Z.of_nat 0) with 0. rewrite !Z.add_0_r.
    eexists _, _. split.
    { destruct (_ && _); reflexivity. }
    split; reflexivity.
  - rewrite <- Hs in *.
    destruct (Read_stream_final h rest Hne) as (h1 & k & Hk & Hks & Hread & Hs1 & Ht1 & Hf1).
    { rewrite Hs. discriminate. }
    rewrite Hread. cbv beta iota zeta. rewrite Nat2Z.id.
    rewrite take_app_length', drop_app_length' by (rewrite length_take; lia).
    destruct (IH h1 (got ++ take k (stream (reader h))) (drop k rest))
      as (h' & buf & Hloop & Hs' & Ht').
    { rewrite length_drop. lia. }
    { rewrite Hs1, !length_drop. lia. }
    { rewrite Ht1. apply i64_idem. }
    assert (Hsum : len (got ++ take k (stream (reader h)))
                   + len (drop k (stream (reader h)))
                   = len got + len (stream (reader h))).
    { unfold len. rewrite length_app, length_take, length_drop. lia. }
    rewrite Hs1, Hf1, Hsum in Hloop.
    exists h', buf. split; [exact Hloop|]. split; [assumption|].
    rewrite Ht', Ht1, Hs1, i64_add_l. unfold len. rewrite length_drop. f_equal. lia.
Qed.

Lemma binary_Read_short (h : hashingReader Reader) (size : Z) :
  (length (stream (reader h)) < Z.to_nat size)%nat ->
  i64 (tot h) = tot h ->
  exists h',
    binary_Read h size
    = Some (h', Err (if (0 <? len (stream (reader h)))
                        && bool_decide (final (reader h) = EOF)
                     then ErrUnexpectedEOF else final (reader h))) /\
    stream (reader h') = [] /\
    tot h' = i64 (tot h + len (stream (reader h))).
Proof.
  intros Hlen Htot. unfold binary_Read, ReadFull.
  destruct (readAtLeast_loop_short (length (make x00 size)) h [] (make x00 size))
    as (h' & buf & -> & Hs & Ht); [lia|rewrite make_length; lia|assumption|].
  exists h'. cbn [mbind option_bind]. auto.
Qed.

Lemma i64_small (x : Z) : - 2 ^ 63 <= x < 2 ^ 63 -> i64 x = x.
Proof. intros Hx. unfold i64. rewrite Z.mod_small by lia. lia. Qed.

Section EarlyEnd.
Variable sha384 : list byte -> list byte.

(** X12.  Decoding into a receiver from a reader that holds fewer than 8
    bytes returns the reader's final error (for a byte slice [io.EOF]) when
    it holds no byte, [io.ErrUnexpectedEOF] when it holds some and ends
    with [io.EOF]; the count is the number of bytes it held.  The receiver
    is not left as it was: its bit width and its element count are set to
    0, beside keys and words that stay. *)
Theorem UnmarshalFromReader_short_input (f : Filter) :
  (forall r : Reader,
     (length (stream r) < 8)%nat ->
     UnmarshalFromReader sha384 f r
     = Some ({| bits := bits f; keys := keys f; m := 0; n := 0 |},
             len (stream r),
             Some (if (0 <? len (stream r)) && bool_decide (final r = EOF)
                   then ErrUnexpectedEOF else final r))) /\
  (forall data : list byte,
     (length data < 8)%nat ->
     UnmarshalBinary sha384 f data
     = Some ({| bits := bits f; keys := keys f; m := 0; n := 0 |},
             Some (match data with [] => EOF | _ :: _ => ErrUnexpectedEOF end))).
Proof.
  assert (Hgen : forall r : Reader,
     (length (stream r) < 8)%nat ->
     UnmarshalFromReader sha384 f r
     = Some ({| bits := bits f; keys := keys f; m := 0; n := 0 |},
             len (stream r),
             Some (if (0 <? len (stream r)) && bool_decide (final r = EOF)
                   then ErrUnexpectedEOF else final r))).
  { intros r Hlen. unfold UnmarshalFromReader, unmarshalBinaryHeader, binary_Read_uint64.
    destruct (binary_Read_short {| reader := r; hasher := []; tot := 0 |} Uint64Bytes)
      as (h' & -> & _ & Ht); [exact Hlen|reflexivity|].
    cbn [mbind option_bind reader]. rewrite Ht. cbn [tot reader].
    rewrite Z.add_0_l, i64_small by (unfold len; lia). reflexivity. }
  split; [exact Hgen|].
  intros data Hlen. unfold UnmarshalBinary.
  assert (Hs : stream (NewBuffer data) = data) by apply app_nil_r.
  rewrite Hgen by (rewrite Hs; exact Hlen). rewrite Hs.
  cbn [mbind option_bind final NewBuffer].
  destruct data; reflexivity.
Qed.
End EarlyEnd.

(** ** What the decoder accepts *)

Lemma stream_bufferAt (data : list byte) (j : nat) :
  stream (reader (bufferAt data j)) = drop j data.
Proof. apply app_nil_r. Qed.

Lemma tot_bufferAt (data : list byte) (j : nat) :
  i64 (tot (bufferAt data j)) = tot (bufferAt data j).
Proof. apply i64_idem. Qed.

Lemma binary_Read_bufferAt_short (data : list byte) (j : nat) (size : Z) :
  0 < size -> (length data < j + Z.to_nat size)%nat ->
  exists h' e, binary_Read (bufferAt data j) size = Some (h', Err e).
Proof.
  intros Hsize Hlen.
  destruct (binary_Read_short (bufferAt data j) size) as (h' & -> & _).
  - rewrite stream_bufferAt, length_drop. lia.
  - apply tot_bufferAt.
  - eauto.
Qed.

Lemma binary_Read_uint64_bufferAt_short (data : list byte) (j : nat) (old : Z) :
  (length data < j + 8)%nat ->
  exists h' e, binary_Read_uint64 (bufferAt data j) old = Some (h', old, Some e).
Proof.
  intros Hlen. unfold binary_Read_uint64.
  destruct (binary_Read_bufferAt_short data j Uint64Bytes) as (h' & e & ->);
    [reflexivity|exact Hlen|]. simpl. eauto.
Qed.

Lemma unmarshalBinaryKeys_bufferAt_short (data : list byte) (j : nat) (k : Z) :
  KMin <= k -> (length data < j + 8 * Z.to_nat k)%nat ->
  exists h' ks e, unmarshalBinaryKeys (bufferAt data j) k = Some (h', ks, Some e).
Proof.
  intros Hk Hlen. unfold unmarshalBinaryKeys, KMin in *.
  destruct (binary_Read_bufferAt_short data j (8 * len (make 0 k))) as (h' & e & ->).
  - unfold len. rewrite make_length. lia.
  - unfold len. rewrite make_length. lia.
  - simpl. eauto.
Qed.

(** The words of a buffer that ends inside the bit array: the loop stops
    on an error, or it goes through on a short read of the last word and
    leaves nothing to read. *)
Lemma unmarshalBinaryBits_loop_truncated (todo : list Z) (h : hashingReader Reader)
    (c bs : list byte) (done : list Z) :
  chunks (reader h) = [c] -> (length c < 8 * length todo)%nat ->
  length bs = 8%nat ->
  exists h' ws err,
    unmarshalBinaryBits_loop h bs done todo = (h', ws, err) /\
    (err <> None \/ (stream (reader h') = [] /\ i64 (tot h') = tot h')).
Proof.
  revert h c bs done. induction todo as [|w todo IH]; intros h c bs done Hc Hlen Hbs.
  { simpl in Hlen. lia. }
  cbn [unmarshalBinaryBits_loop].
  destruct c as [|b c0] eqn:Hceq.
  - unfold_Read. rewrite Hc. cbn [pending]. cbv beta iota zeta.
    eexists _, _, _. split; [reflexivity|]. left. discriminate.
  - rewrite <- Hceq in *.
    assert (Hcne : c <> []) by (rewrite Hceq; discriminate).
    unfold_Read. rewrite Hc, (pending_cons c [] Hcne). cbv beta iota zeta.
    destruct todo as [|w' todo'].
    + cbn [unmarshalBinaryBits_loop length] in *.
      eexists _, _, _. split; [reflexivity|]. right. cbn [reader tot stream chunks concat].
      split; [|apply i64_idem].
      rewrite Hbs, Nat.min_r, drop_all by lia. reflexivity.
    + apply (IH _ (drop (Nat.min (length bs) (length c)) c)).
      * reflexivity.
      * rewrite length_drop, Hbs. cbn [length] in *. lia.
      * rewrite length_app, length_take, length_drop, Hbs. lia.
Qed.

Lemma unmarshalBinaryBits_bufferAt_truncated (data : list byte) (j : nat) (mm : Z) :
  MMin <= mm -> (j <= length data < j + 8 * Z.to_nat (wordsFor mm))%nat ->
  exists h' ws err,
    unmarshalBinaryBits (bufferAt data j) mm = (h', ws, err) /\
    (err <> None \/ (stream (reader h') = [] /\ i64 (tot h') = tot h')).
Proof.
  intros Hm Hlen. unfold unmarshalBinaryBits, newBits.
  destruct (Z.ltb_spec mm MMin); [lia|].
  apply (unmarshalBinaryBits_loop_truncated _ _ (drop j data)).
  - reflexivity.
  - rewrite length_drop, make_length. lia.
  - reflexivity.
Qed.

Section Acceptance.
Variable sha384 : list byte -> list byte.

Lemma UnmarshalFromReader_buffer_rejects (f : Filter) (data : list byte) :
  ~ (KMin <= Uint64 data /\ MMin <= Uint64 (drop 16 data) /\
     (24 + 8 * Z.to_nat (Uint64 data)
        + 8 * Z.to_nat (wordsFor (Uint64 (drop 16 data))) + 48 <= length data)%nat) ->
  exists f' cnt e, UnmarshalFromReader sha384 f (NewBuffer data) = Some (f', cnt, Some e).
Proof.
  intros Hbad. unfold UnmarshalFromReader.
  change ({| reader := NewBuffer data; hasher := []; tot := 0 |}) with (bufferAt data 0).
  unfold unmarshalBinaryHeader.
  destruct (le_lt_dec 8 (length data)) as [H8|H8].
  2:{ destruct (binary_Read_uint64_bufferAt_short data 0 0) as (h' & e & ->); [lia|].
      cbn [mbind option_bind]. eauto. }
  rewrite binary_Read_uint64_bufferAt by lia. cbn [mbind option_bind Nat.add].
  rewrite drop_0.
  destruct (Z.ltb_spec (Uint64 data) KMin) as [Hk|Hk]; [cbn [mbind option_bind]; eauto|].
  destruct (le_lt_dec 16 (length data)) as [H16|H16].
  2:{ destruct (binary_Read_uint64_bufferAt_short data 8 0) as (h' & e & ->); [lia|].
      cbn [mbind option_bind]. eauto. }
  rewrite binary_Read_uint64_bufferAt by lia. cbn [mbind option_bind Nat.add].
  destruct (le_lt_dec 24 (length data)) as [H24|H24].
  2:{ destruct (binary_Read_uint64_bufferAt_short data 16 0) as (h' & e & ->); [lia|].
      cbn [mbind option_bind]. eauto. }
  rewrite binary_Read_uint64_bufferAt by lia. cbn [mbind option_bind Nat.add].
  destruct (Z.ltb_spec (Uint64 (drop 16 data)) MMin) as [Hm|Hm];
    [cbn [mbind option_bind]; eauto|].
  cbn [mbind option_bind bits keys m n].
  set (k := Uint64 data) in *. set (mm := Uint64 (drop 16 data)) in *.
  destruct (le_lt_dec (24 + 8 * Z.to_nat k) (length data)) as [Hkeys|Hkeys].
  2:{ destruct (unmarshalBinaryKeys_bufferAt_short data 24 k) as (h' & ks & e & ->);
        [assumption|lia|].
      cbn [mbind option_bind]. eauto. }
  rewrite unmarshalBinaryKeys_bufferAt by (assumption || lia).
  cbn [mbind option_bind bits keys m n].
  destruct (le_lt_dec (24 + 8 * Z.to_nat k + 8 * Z.to_nat (wordsFor mm)) (length data))
    as [Hbits|Hbits].
  - rewrite unmarshalBinaryBits_bufferAt by (assumption || lia).
    destruct (binary_Read_bufferAt_short data
                (24 + 8 * Z.to_nat k + 8 * Z.to_nat (wordsFor mm)) Size384)
      as (h' & e & ->).
    { reflexivity. }
    { change (Z.to_nat Size384) with 48%nat. lia. }
    cbn [mbind option_bind]. eauto.
  - destruct (unmarshalBinaryBits_bufferAt_truncated data (24 + 8 * Z.to_nat k) mm Hm)
      as (h3 & ws & err & -> & Herr); [lia|].
    destruct err as [e|]; [eauto|].
    destruct Herr as [Herr|[Hs Ht]]; [congruence|].
    destruct (binary_Read_short h3 Size384) as (h' & -> & _).
    + rewrite Hs. change (Z.to_nat Size384) with 48%nat. simpl. lia.
    + assumption.
    + cbn [mbind option_bind]. eauto.
Qed.

(** X13.  [UnmarshalBinary] returns no error exactly on the byte slices
    that hold a key count [k] of at least [KMin], an element count, a bit
    width [m] of at least [MMin], then [k] keys, the words [newBits]
    allocates for [m], and 48 bytes equal to the digest of all bytes before
    them; the receiver's four fields are then the decoded ones.  Nothing
    else is checked: the keys may repeat, and bytes after the digest are
    not looked at. *)
Theorem UnmarshalBinary_accepts_iff (f f' : Filter) (data : list byte) :
  let k := Uint64 data in
  let mm := Uint64 (drop 16 data) in
  let plen := (24 + 8 * Z.to_nat k + 8 * Z.to_nat (wordsFor mm))%nat in
  UnmarshalBinary sha384 f data = Some (f', None) <->
  KMin <= k /\ MMin <= mm /\ (plen + 48 <= length data)%nat /\
  take 48 (drop plen data) = sha384 (take plen data) /\
  f' = {| bits := Uint64s (Z.to_nat (wordsFor mm)) (drop (24 + 8 * Z.to_nat k) data);
          keys := Uint64s (Z.to_nat k) (drop 24 data);
          m := mm; n := Uint64 (drop 8 data) |}.
Proof.
  intros k mm plen. unfold UnmarshalBinary. split.
  - intros Hok.
    destruct (Z_le_dec KMin k) as [Hk|Hk];
      [destruct (Z_le_dec MMin mm) as [Hm|Hm];
       [destruct (le_dec (plen + 48) (length data)) as [Hlen|Hlen]|]|].
    + rewrite (UnmarshalFromReader_buffer sha384 f data Hk Hm Hlen) in Hok.
      fold k mm plen in Hok. cbn [mbind option_bind] in Hok.
      case_bool_decide as Hd; [|discriminate].
      injection Hok as <-. auto.
    + destruct (UnmarshalFromReader_buffer_rejects f data) as (f1 & cnt & e & Hrej);
        [fold k mm plen; tauto|].
      rewrite Hrej in Hok. discriminate.
    + destruct (UnmarshalFromReader_buffer_rejects f data) as (f1 & cnt & e & Hrej);
        [fold k mm plen; tauto|].
      rewrite Hrej in Hok. discriminate.
    + destruct (UnmarshalFromReader_buffer_rejects f data) as (f1 & cnt & e & Hrej);
        [fold k mm plen; tauto|].
      rewrite Hrej in Hok. discriminate.
  - intros (Hk & Hm & Hlen & Hd & ->).
    rewrite (UnmarshalFromReader_buffer sha384 f data Hk Hm Hlen).
    fold k mm plen. rewrite bool_decide_eq_true_2 by congruence. reflexivity.
Qed.
End Acceptance.

(** ** What a decoded filter is *)

Lemma decode_range (l : list byte) :
  0 <= fold_right (fun b acc => Z.of_N (Byte.to_N b) + 256 * acc) 0 l
    < 256 ^ Z.of_nat (length l).
Proof.
  induction l as [|b l IH].
  - simpl. lia.
  - cbn [fold_right length]. rewrite Nat2Z.inj_succ, Z.pow_succ_r by lia.
    pose proof (Byte.to_N_bounded b). lia.
Qed.

Lemma Uint64_range (bs : list byte) : 0 <= Uint64 bs < 2 ^ 64.
Proof.
  unfold Uint64. pose proof (decode_range (take 8 bs)) as Hr.
  assert (256 ^ Z.of_nat (length (take 8 bs)) <= 256 ^ 8).
  { apply Z.pow_le_mono_r; [lia|]. rewrite length_take. lia. }
  change (256 ^ 8) with (2 ^ 64) in *. lia.
Qed.

Lemma Uint64s_range (k : nat) (bs : list byte) :
  Forall (fun x => 0 <= x < 2 ^ 64) (Uint64s k bs).
Proof.
  revert bs. induction k as [|k IH]; intros bs; simpl; constructor.
  - apply Uint64_range.
  - apply IH.
Qed.

Lemma words_hold_bits (mm : Z) :
  0 <= mm < 2 ^ 64 -> (mm <= 64 * wordsFor mm <-> mm <= 2 ^ 64 - 64).
Proof.
  intros Hm. unfold wordsFor, u64. split.
  - intros Hw. destruct (Z_le_dec mm (2 ^ 64 - 64)) as [|Hbig]; [assumption|].
    exfalso.
    replace ((mm + 63) mod 2 ^ 64) with (mm + 63 - 2 ^ 64) in Hw.
    + assert ((mm + 63 - 2 ^ 64) / 64 <= 0).
      { apply Z.lt_succ_r, Z.div_lt_upper_bound; lia. }
      lia.
    + apply (Z.mod_unique _ _ 1); lia.
  - intros Hsmall. rewrite Z.mod_small by lia.
    pose proof (Z.div_mod (mm + 63) 64 ltac:(lia)).
    pose proof (Z.mod_pos_bound (mm + 63) 64 ltac:(lia)). lia.
Qed.

Section Decoded.
Variable sha384 : list byte -> list byte.

Lemma UnmarshalBinary_Ok_inv (f f' : Filter) (data : list byte) :
  UnmarshalBinary sha384 f data = Some (f', None) ->
  KMin <= Uint64 data /\ MMin <= Uint64 (drop 16 data) /\
  f' = {| bits := Uint64s (Z.to_nat (wordsFor (Uint64 (drop 16 data))))
                    (drop (24 + 8 * Z.to_nat (Uint64 data)) data);
          keys := Uint64s (Z.to_nat (Uint64 data)) (drop 24 data);
          m := Uint64 (drop 16 data); n := Uint64 (drop 8 data) |}.
Proof.
  unfold UnmarshalBinary. intros Hok.
  destruct (Z_le_dec KMin (Uint64 data)) as [Hk|Hk];
    [destruct (Z_le_dec MMin (Uint64 (drop 16 data))) as [Hm|Hm];
     [destruct (le_dec (24 + 8 * Z.to_nat (Uint64 data)
                          + 8 * Z.to_nat (wordsFor (Uint64 (drop 16 data))) + 48)
                       (length data)) as [Hlen|Hlen]|]|].
  - rewrite (UnmarshalFromReader_buffer sha384 f data Hk Hm Hlen) in Hok.
    cbn [mbind option_bind] in Hok.
    case_bool_decide as Hd; [|discriminate].
    injection Hok as <-. auto.
  - destruct (UnmarshalFromReader_buffer_rejects sha384 f data) as (f1 & cnt & e & Hrej);
      [tauto|]. rewrite Hrej in Hok. discriminate.
  - destruct (UnmarshalFromReader_buffer_rejects sha384 f data) as (f1 & cnt & e & Hrej);
      [tauto|]. rewrite Hrej in Hok. discriminate.
  - destruct (UnmarshalFromReader_buffer_rejects sha384 f data) as (f1 & cnt & e & Hrej);
      [tauto|]. rewrite Hrej in Hok. discriminate.
Qed.

(** X14.  A filter that [UnmarshalBinary] has decoded without error has at
    least [MMin] bits and [KMin] keys, the words [newBits] allocates for its
    bit width, and [uint64] values in all fields.  It is a filter of the
    data model exactly if its keys are pairwise distinct and its bit width
    is at most [2^64-64]: the decoder checks neither. *)
Theorem UnmarshalBinary_decoded (f f' : Filter) (data : list byte) :
  UnmarshalBinary sha384 f data = Some (f', None) ->
  MMin <= m f' < 2 ^ 64 /\ KMin <= len (keys f') /\
  len (bits f') = wordsFor (m f') /\ typed f' /\
  (valid f' <-> NoDup (keys f') /\ m f' <= 2 ^ 64 - 64).
Proof.
  intros Hok. destruct (UnmarshalBinary_Ok_inv f f' data Hok) as (Hk & Hm & ->).
  cbn [bits keys m n].
  pose proof (Uint64_range data) as Rk.
  pose proof (Uint64_range (drop 16 data)) as Rm.
  pose proof (Uint64_range (drop 8 data)) as Rn.
  set (k := Uint64 data) in *. set (mm := Uint64 (drop 16 data)) in *.
  assert (Hw0 : 0 <= wordsFor mm).
  { unfold wordsFor, u64. apply Z.div_pos; [|lia]. apply Z.mod_pos_bound. lia. }
  assert (Hlk : len (Uint64s (Z.to_nat k) (drop 24 data)) = k).
  { unfold len, KMin in *. rewrite Uint64s_length. lia. }
  assert (Hlb : len (Uint64s (Z.to_nat (wordsFor mm)) (drop (24 + 8 * Z.to_nat k) data))
                = wordsFor mm).
  { unfold len. rewrite Uint64s_length. lia. }
  split; [lia|]. split; [lia|]. split; [exact Hlb|]. split.
  - constructor; cbn [bits keys m n]; try lia; apply Uint64s_range.
  - split.
    + intros [_ _ Hnd Hws Hbs]. cbn [bits keys m n] in *.
      split; [assumption|]. apply words_hold_bits; [lia|]. lia.
    + intros [Hnd Hsmall]. constructor; cbn [bits keys m n]; try lia; try assumption.
      rewrite Hlb. apply words_hold_bits; lia.
Qed.
End Decoded.

(** ** Random keys *)

Lemma binary_Read_plain (r : Reader) (size : Z) :
  binary_Read r size
  = (fun '(h', res) => (reader h', res))
      <$> binary_Read {| reader := r; hasher := []; tot := 0 |} size.
Proof.
  unfold binary_Read, ReadFull.
  rewrite (readAtLeast_loop_reader _ {| reader := r; hasher := []; tot := 0 |}).
  destruct (readAtLeast_loop _ _ _ _) as [[[h' bs] err]|]; reflexivity.
Qed.

(** X15.  [New] draws its keys from the random source.  Whatever
    [New(m, k)] returns, the source held the [8k] bytes and the result is
    that of [NewWithKeys] on the [k] words they decode to: no filter but an
    error when two of the random words are equal.  When the source runs dry
    before, the call panics, whatever [m] is. *)
Theorem New_from_random (crand : Reader) (mm k : Z) :
  (forall r : result Filter,
     New crand mm k = Some r ->
     (8 * Z.to_nat k <= length (stream crand))%nat /\
     r = NewWithKeys mm (Uint64s (Z.to_nat k) (stream crand)) /\
     (~ NoDup (Uint64s (Z.to_nat k) (stream crand)) ->
      r = Err (if mm <? MMin then errBits mm else errKeysUnique))) /\
  ((length (stream crand) < 8 * Z.to_nat k)%nat -> New crand mm k = None).
Proof.
  assert (Hsize : Z.to_nat (8 * len (make 0 k)) = (8 * Z.to_nat k)%nat).
  { unfold len. rewrite make_length. lia. }
  assert (Hshort : (length (stream crand) < 8 * Z.to_nat k)%nat -> New crand mm k = None).
  { intros Hlen. unfold New, newRandKeys. rewrite binary_Read_plain.
    destruct (binary_Read_short {| reader := crand; hasher := []; tot := 0 |}
                (8 * len (make 0 k))) as (h' & -> & _);
      [rewrite Hsize; exact Hlen|reflexivity|].
    reflexivity. }
  split; [|exact Hshort].
  intros r Hr.
  destruct (le_lt_dec (8 * Z.to_nat k) (length (stream crand))) as [Hlen|Hlen];
    [|rewrite (Hshort Hlen) in Hr; discriminate].
  split; [exact Hlen|].
  assert (Hnew : New crand mm k
                 = Some (NewWithKeys mm (Uint64s (Z.to_nat k) (stream crand)))).
  { unfold New, newRandKeys. rewrite binary_Read_plain.
    unfold binary_Read, ReadFull.
    destruct (readAtLeast_loop_stream (length (make x00 (8 * len (make 0 k))))
                {| reader := crand; hasher := []; tot := 0 |} []
                (make x00 (8 * len (make 0 k)))) as (h' & -> & _);
      [lia|rewrite make_length, Hsize; exact Hlen|reflexivity|].
    cbn [fmap option_fmap option_map mbind option_bind app reader].
    rewrite !make_length, Hsize, Uint64s_take. reflexivity. }
  rewrite Hnew in Hr. injection Hr as <-.
  split; [reflexivity|]. intros Hdup.
  destruct (Z.ltb_spec mm MMin) as [Hm|Hm].
  - unfold NewWithKeys, newBits. destruct (Z.ltb_spec mm MMin); [reflexivity|lia].
  - apply NewWithKeys_Err_unique; assumption.
Qed.

(** ** Short reads and the digest *)

Lemma Read_bufferFrom (pre data : list byte) (j0 j : nat) (p : list byte) :
  (j0 <= j)%nat -> (0 < length p)%nat -> (j + length p <= length data)%nat ->
  Read (bufferFrom pre data j0 j) p
  = (bufferFrom pre data j0 (j + length p), take (length p) (drop j data),
     Z.of_nat (length p), None).
Proof.
  intros Hj0 Hp Hj.
  assert (Hd : (length p <= length (drop j data))%nat) by (rewrite length_drop; lia).
  unfold_Read. unfold bufferFrom. cbn [reader chunks final hasher tot].
  rewrite pending_cons by (apply nonempty_length; lia).
  rewrite Nat.min_l by assumption.
  rewrite drop_all, app_nil_r, drop_drop, i64_add_l, Nat2Z.inj_add.
  rewrite <- (take_take_drop data j (length p)).
  rewrite drop_app_le by (rewrite length_take; lia).
  rewrite <- app_assoc. reflexivity.
Qed.

Section FullReads.
Variables (pre data : list byte) (j0 : nat).

Lemma ReadFull_bufferFrom (j k : nat) :
  (j0 <= j)%nat -> (0 < k)%nat -> (j + k <= length data)%nat ->
  ReadFull (bufferFrom pre data j0 j) (replicate k x00)
  = Some (bufferFrom pre data j0 (j + k), take k (drop j data), None).
Proof.
  intros Hj0 Hk Hj. unfold ReadFull. rewrite length_replicate.
  destruct k as [|k]; [lia|].
  rewrite readAtLeast_loop_S by (simpl; congruence).
  rewrite Read_bufferFrom by (rewrite ?length_replicate; lia).
  rewrite length_replicate. cbv beta iota zeta.
  rewrite Nat2Z.id, take_idemp.
  rewrite (drop_ge (take (S k) (drop j data)) (S k))
    by (rewrite length_take, length_drop; lia).
  apply readAtLeast_loop_nil.
Qed.

Lemma binary_Read_bufferFrom (j : nat) (size : Z) :
  (j0 <= j)%nat -> 0 < size -> (j + Z.to_nat size <= length data)%nat ->
  binary_Read (bufferFrom pre data j0 j) size
  = Some (bufferFrom pre data j0 (j + Z.to_nat size),
          Ok (take (Z.to_nat size) (drop j data))).
Proof.
  intros Hj0 Hs Hj. unfold binary_Read, make.
  rewrite ReadFull_bufferFrom by lia. reflexivity.
Qed.

Lemma binary_Read_uint64_bufferFrom (j : nat) (old : Z) :
  (j0 <= j)%nat -> (j + 8 <= length data)%nat ->
  binary_Read_uint64 (bufferFrom pre data j0 j) old
  = Some (bufferFrom pre data j0 (j + 8), Uint64 (drop j data), None).
Proof.
  intros Hj0 Hj. unfold binary_Read_uint64, Uint64Bytes.
  rewrite binary_Read_bufferFrom by (simpl; lia).
  change (Z.to_nat 8) with 8%nat. simpl. rewrite Uint64_take. reflexivity.
Qed.

Lemma unmarshalBinaryKeys_bufferFrom (j : nat) (k : Z) :
  (j0 <= j)%nat -> KMin <= k -> (j + 8 * Z.to_nat k <= length data)%nat ->
  unmarshalBinaryKeys (bufferFrom pre data j0 j) k
  = Some (bufferFrom pre data j0 (j + 8 * Z.to_nat k),
          Uint64s (Z.to_nat k) (drop j data), None).
Proof.
  intros Hj0 Hk Hj. unfold unmarshalBinaryKeys, KMin in *.
  assert (Hlen : len (make 0 k) = k) by (unfold len; rewrite make_length; lia).
  rewrite Hlen.
  rewrite binary_Read_bufferFrom by lia.
  replace (Z.to_nat (8 * k)) with (8 * Z.to_nat k)%nat by lia.
  cbn [mbind option_bind]. rewrite make_length, Uint64s_take. reflexivity.
Qed.

Lemma unmarshalBinaryBits_loop_bufferFrom (todo : list Z) (j : nat)
    (bs : list byte) (done : list Z) :
  (j0 <= j)%nat -> length bs = 8%nat -> (j + 8 * length todo <= length data)%nat ->
  unmarshalBinaryBits_loop (bufferFrom pre data j0 j) bs done todo
  = (bufferFrom pre data j0 (j + 8 * length todo),
     done ++ Uint64s (length todo) (drop j data), None).
Proof.
  revert j bs done. induction todo as [|w todo IH]; intros j bs done Hj0 Hbs Hj.
  - simpl. rewrite Nat.add_0_r, app_nil_r. reflexivity.
  - cbn [unmarshalBinaryBits_loop length Uint64s]. cbn [length] in Hj.
    rewrite Read_bufferFrom by lia. rewrite Hbs.
    rewrite IH.
    + rewrite Uint64_take, drop_drop, <- app_assoc. simpl.
      do 3 f_equal. lia.
    + lia.
    + rewrite length_take, length_drop. lia.
    + lia.
Qed.

Lemma unmarshalBinaryBits_bufferFrom (j : nat) (mm : Z) :
  (j0 <= j)%nat -> MMin <= mm ->
  (j + 8 * Z.to_nat (wordsFor mm) <= length data)%nat ->
  unmarshalBinaryBits (bufferFrom pre data j0 j) mm
  = (bufferFrom pre data j0 (j + 8 * Z.to_nat (wordsFor mm)),
     Uint64s (Z.to_nat (wordsFor mm)) (drop j data), None).
Proof.
  intros Hj0 Hm Hj. unfold unmarshalBinaryBits, newBits.
  destruct (Z.ltb_spec mm MMin); [lia|].
  rewrite unmarshalBinaryBits_loop_bufferFrom; rewrite ?make_length; try reflexivity;
    assumption.
Qed.

End FullReads.

(** The first field, read in two calls from a stream that arrives in two
    chunks, the first of [j] bytes: the buffer holds the right 8 bytes and
    the hasher was given [16 - j]. *)
Lemma ReadFull_split (data : list byte) (j : nat) :
  (0 < j < 8)%nat -> (8 <= length data)%nat ->
  ReadFull {| reader := {| chunks := [take j data; drop j data]; final := EOF |};
              hasher := []; tot := 0 |} (replicate 8 x00)
  = Some (bufferFrom (splitField data j) data 8 8, take 8 data, None).
Proof.
  intros Hj Hlen. unfold ReadFull. rewrite length_replicate.
  rewrite readAtLeast_loop_S by discriminate.
  unfold_Read. cbn [reader chunks final hasher tot].
  rewrite pending_cons by (apply nonempty_length; rewrite length_take; lia).
  cbv beta iota zeta.
  rewrite length_replicate, length_take, (Nat.min_l j) by lia.
  rewrite (Nat.min_r 8 j), Nat2Z.id by lia.
  rewrite take_idemp, drop_replicate.
  rewrite (drop_ge (take j data) j) by (rewrite length_take; lia).
  rewrite take_app_length', drop_app_length' by (rewrite length_take; lia).
  rewrite readAtLeast_loop_S by (apply nonempty_length; rewrite length_replicate; lia).
  unfold_Read. cbn [reader chunks final hasher tot].
  change (pending ([] :: [drop j data])) with (pending [drop j data]).
  rewrite pending_cons by (apply nonempty_length; rewrite length_drop; lia).
  cbv beta iota zeta.
  rewrite length_replicate, length_drop.
  rewrite (Nat.min_l (8 - j)), Nat2Z.id by lia.
  rewrite drop_replicate, Nat.sub_diag. cbn [replicate]. rewrite app_nil_r.
  rewrite take_idemp.
  rewrite (drop_ge (take (8 - j) (drop j data)) (8 - j))
    by (rewrite length_take, length_drop; lia).
  rewrite readAtLeast_loop_nil. cbn [app].
  assert (Hgot : take j data ++ take (8 - j) (drop j data) = take 8 data).
  { rewrite take_take_drop. f_equal. lia. }
  assert (Hrest : drop (8 - j) (drop j data) = drop 8 data).
  { rewrite drop_drop. f_equal. lia. }
  assert (Htot : i64 (i64 (0 + Z.of_nat j) + Z.of_nat (8 - j)) = i64 (Z.of_nat 8)).
  { rewrite i64_add_l. f_equal. lia. }
  rewrite Hgot, Hrest, Htot. unfold bufferFrom, splitField.
  rewrite (drop_ge (take 8 data) 8) by (rewrite length_take; lia).
  rewrite app_nil_r. reflexivity.
Qed.

Lemma binary_Read_uint64_split (data : list byte) (j : nat) (old : Z) :
  (0 < j < 8)%nat -> (8 <= length data)%nat ->
  binary_Read_uint64
    {| reader := {| chunks := [take j data; drop j data]; final := EOF |};
       hasher := []; tot := 0 |} old
  = Some (bufferFrom (splitField data j) data 8 8, Uint64 data, None).
Proof.
  intros Hj Hlen. unfold binary_Read_uint64, binary_Read.
  change (make x00 Uint64Bytes) with (replicate 8 x00).
  rewrite ReadFull_split by lia.
  cbn [mbind option_bind]. rewrite Uint64_take. reflexivity.
Qed.

Section ShortRead.
Variable sha384 : list byte -> list byte.

(** X16.  [hashingReader.Read] writes its whole buffer to the hasher also
    when the read was short.  From a stream that holds a complete encoding
    and arrives in two chunks, the first ending inside the key count, the
    decoder sets the receiver to the fields of the encoding, as it would
    from a byte slice, but checks the stored digest against the digest of
    other bytes than it read: [8 - j] zero bytes more, after the first
    [j].  So it returns the digest error on an encoding whose digest is
    right, unless the two digests agree. *)
Theorem UnmarshalFromReader_short_read (f : Filter) (data : list byte) (j : nat) :
  let k := Uint64 data in
  let mm := Uint64 (drop 16 data) in
  let plen := (24 + 8 * Z.to_nat k + 8 * Z.to_nat (wordsFor mm))%nat in
  let hashed := splitField data j ++ drop 8 (take plen data) in
  (0 < j < 8)%nat ->
  KMin <= k -> MMin <= mm -> (plen + 48 <= length data)%nat ->
  UnmarshalFromReader sha384 f
    {| chunks := [take j data; drop j data]; final := EOF |}
  = Some ({| bits := Uint64s (Z.to_nat (wordsFor mm)) (drop (24 + 8 * Z.to_nat k) data);
             keys := Uint64s (Z.to_nat k) (drop 24 data);
             m := mm; n := Uint64 (drop 8 data) |},
          i64 (Z.of_nat (plen + 48)),
          if bool_decide (sha384 hashed = take 48 (drop plen data))
          then None else Some errHash) /\
  length hashed = (plen + (8 - j))%nat /\
  hashed <> take plen data.
Proof.
  intros k mm plen hashed Hj Hk Hm Hlen.
  assert (Hhl : length hashed = (plen + (8 - j))%nat).
  { unfold hashed, splitField.
    rewrite !length_app, !length_take, length_replicate, !length_drop, length_take. lia. }
  split; [|split; [exact Hhl|]].
  2:{ intros Heq. rewrite Heq, length_take in Hhl. lia. }
  unfold UnmarshalFromReader, unmarshalBinaryHeader.
  rewrite binary_Read_uint64_split by lia.
  cbn [mbind option_bind]. fold k.
  destruct (Z.ltb_spec k KMin); [lia|].
  rewrite binary_Read_uint64_bufferFrom by lia. cbn [mbind option_bind Nat.add].
  rewrite binary_Read_uint64_bufferFrom by lia. cbn [mbind option_bind Nat.add].
  fold mm. destruct (Z.ltb_spec mm MMin); [lia|].
  cbn [mbind option_bind bits keys m n].
  rewrite unmarshalBinaryKeys_bufferFrom by (assumption || lia).
  cbn [mbind option_bind bits keys m n].
  rewrite unmarshalBinaryBits_bufferFrom by (assumption || lia).
  cbn [mbind option_bind bits keys m n].
  unfold Size384. rewrite binary_Read_bufferFrom by (simpl; lia).
  cbn [mbind option_bind hasher tot bufferFrom].
  fold plen hashed. change (Z.to_nat 48) with 48%nat.
  destruct (bool_decide _); reflexivity.
Qed.
End ShortRead.

(** ** Bounds of the bit array *)

Lemma setbit_is_Some (bs : list Z) (i : Z) :
  is_Some (setbit bs i) <-> (Z.to_nat (i / 64) < length bs)%nat.
Proof.
  unfold setbit. rewrite shiftr6, <- lookup_lt_is_Some.
  destruct (bs !! Z.to_nat (i / 64)); simpl; split; intros [x Hx]; eauto; discriminate.
Qed.

Lemma add_loop_is_Some (hash mm : Z) (ks bs : list Z) :
  is_Some (add_loop hash mm ks bs) <->
  (ks = [] \/ mm <> 0) /\
  Forall (fun key => (Z.to_nat (Z.lxor hash key mod mm / 64) < length bs)%nat) ks.
Proof.
  revert bs. induction ks as [|key ks IH]; intros bs; simpl.
  - split; [intros _; split; [left; reflexivity|constructor]|eauto].
  - unfold umod. destruct (Z.eqb_spec mm 0) as [->|Hmm]; simpl.
    + split; [intros [x Hx]; discriminate|].
      intros [[Hnil|Hne] _]; [discriminate|congruence].
    + destruct (setbit bs (Z.lxor hash key mod mm)) as [bs1|] eqn:Hs; simpl.
      * rewrite IH, (setbit_length _ _ _ Hs), Forall_cons.
        assert (Hidx : (Z.to_nat (Z.lxor hash key mod mm / 64) < length bs)%nat).
        { apply setbit_is_Some. rewrite Hs. eauto. }
        split; [intros [_ Hall]; auto|intros [_ [_ Hall]]; auto].
      * split; [intros [x Hx]; discriminate|].
        intros [_ [Hidx _]%Forall_cons]. apply setbit_is_Some in Hidx.
        rewrite Hs in Hidx. destruct Hidx as [x Hx]. discriminate.
Qed.

(** X17.  [AddHash] returns exactly when the filter has no key, or a bit
    width other than 0 and a word for the position of each key; otherwise
    the modulo by 0 or the index out of range panics. *)
Theorem AddHash_returns_iff (f : Filter) (hash : Z) :
  is_Some (AddHash f hash) <->
  (keys f = [] \/ m f <> 0) /\
  forall key, key ∈ keys f ->
    (Z.to_nat (Z.lxor hash key mod m f / 64) < length (bits f))%nat.
Proof.
  unfold AddHash. rewrite <- Forall_forall, <- add_loop_is_Some.
  destruct (add_loop hash (m f) (keys f) (bits f)); simpl;
    split; intros [x Hx]; eauto; discriminate.
Qed.

(** X18.  A filter without keys, as the zero value of [Filter] is, answers
    true to every query; an insertion into it changes nothing but the
    count. *)
Theorem no_keys_contains_all (f : Filter) (hash : Z) :
  keys f = [] ->
  ContainsHash f hash = Some true /\
  AddHash f hash = Some {| bits := bits f; keys := []; m := m f; n := u64 (n f + 1) |}.
Proof.
  intros Hk. unfold ContainsHash, AddHash. rewrite Hk. split; reflexivity.
Qed.

Lemma unionInPlace_loop_overrun (src pre d : list Z) :
  (length d < length src)%nat -> unionInPlace_loop (length pre) src (pre ++ d) = None.
Proof.
  revert pre d. induction src as [|b src IH]; intros pre d Hl; simpl in *; [lia|].
  destruct d as [|w d].
  - rewrite app_nil_r, lookup_ge_None_2 by lia. reflexivity.
  - rewrite list_lookup_middle by reflexivity. simpl.
    rewrite insert_app_r_alt, Nat.sub_diag by lia. simpl.
    specialize (IH (pre ++ [Z.lor w b]) d ltac:(simpl in Hl; lia)).
    rewrite length_app, <- app_assoc in IH. simpl in IH.
    rewrite Nat.add_1_r in IH. exact IH.
Qed.

(** X19.  [UnionInPlace] with a compatible filter goes by the words of
    the argument: when the argument has no more words than the receiver,
    the first words of the receiver are ORed with them and the others
    stay; when it has more, the index runs out of the receiver's bit array
    and the call panics. *)
Theorem UnionInPlace_words (f g : Filter) :
  IsCompatible f g = true ->
  ((length (bits g) <= length (bits f))%nat ->
   UnionInPlace f g
   = Some ({| bits := zip_with Z.lor (take (length (bits g)) (bits f)) (bits g)
                      ++ drop (length (bits g)) (bits f);
              keys := keys f; m := m f; n := u64 (n f + n g) |}, None)) /\
  ((length (bits f) < length (bits g))%nat -> UnionInPlace f g = None).
Proof.
  intros Hc. unfold UnionInPlace. rewrite Hc. simpl. split; intros Hl.
  - pose proof (unionInPlace_loop_spec (bits g) [] (bits f) Hl) as Hloop.
    simpl in Hloop. rewrite Hloop. reflexivity.
  - pose proof (unionInPlace_loop_overrun (bits g) [] (bits f) Hl) as Hloop.
    simpl in Hloop. rewrite Hloop. reflexivity.
Qed.

(** ** The order of insertions *)

Lemma forallb_agree (p q : Z -> bool) (l : list Z) :
  (forall x, In x l -> p x = q x) -> forallb p l = forallb q l.
Proof.
  induction l as [|x l IH]; intros Hpq; simpl; [reflexivity|].
  rewrite (Hpq x) by (left; reflexivity). rewrite IH; [reflexivity|].
  intros y Hy. apply Hpq. right. assumption.
Qed.

(** X20.  Two insertions in either order: on a filter whose bit array holds
    a word for each of its bits both orders return, and the two filters
    have the same keys, bit width, count and bits, and so give the same
    answer to every query. *)
Theorem AddHash_order (f : Filter) (a b : Z) :
  0 < m f <= 64 * len (bits f) ->
  exists fa fab fb fba,
    AddHash f a = Some fa /\ AddHash fa b = Some fab /\
    AddHash f b = Some fb /\ AddHash fb a = Some fba /\
    keys fab = keys fba /\ m fab = m fba /\ n fab = n fba /\
    (forall j, 0 <= j -> bitAt (bits fab) j = bitAt (bits fba) j) /\
    (forall hash, ContainsHash fab hash = ContainsHash fba hash).
Proof.
  intros Hm.
  destruct (AddHash_spec f a Hm) as (fa & Ha & Hba & Hla & Hka & Hma & Hna).
  destruct (AddHash_spec f b Hm) as (fb & Hb & Hbb & Hlb & Hkb & Hmb & Hnb).
  assert (Hma' : 0 < m fa <= 64 * len (bits fa)) by (unfold len in *; rewrite Hma, Hla; lia).
  assert (Hmb' : 0 < m fb <= 64 * len (bits fb)) by (unfold len in *; rewrite Hmb, Hlb; lia).
  destruct (AddHash_spec fa b Hma') as (fab & Hab & Hbab & Hlab & Hkab & Hmab & Hnab).
  destruct (AddHash_spec fb a Hmb') as (fba & Hbba & Hbba' & Hlba & Hkba & Hmba & Hnba).
  exists fa, fab, fb, fba. repeat (split; [assumption|]).
  assert (Hbits : forall j, 0 <= j -> bitAt (bits fab) j = bitAt (bits fba) j).
  { intros j Hj. rewrite (Hbab j Hj), (Hbba' j Hj), (Hba j Hj), (Hbb j Hj).
    unfold positions. rewrite Hka, Hma, Hkb, Hmb.
    rewrite <- !orb_assoc. f_equal. apply orb_comm. }
  split; [congruence|]. split; [congruence|].
  split; [rewrite Hnab, Hnba, Hna, Hnb, !u64_add_l; reflexivity|].
  split; [exact Hbits|].
  intros hash.
  assert (Hmab' : 0 < m fab <= 64 * len (bits fab))
    by (unfold len in *; rewrite Hmab, Hlab; lia).
  assert (Hmba' : 0 < m fba <= 64 * len (bits fba))
    by (unfold len in *; rewrite Hmba, Hlba; lia).
  rewrite !ContainsHash_spec by assumption. f_equal.
  unfold positions. rewrite Hkab, Hmab, Hkba, Hmba, Hka, Hma, Hkb, Hmb.
  apply forallb_agree. intros j Hj. apply Hbits.
  apply in_map_iff in Hj as (key & <- & _). apply position_range. lia.
Qed.

(** ** Instances of the further properties *)

Lemma filter64_typed : typed filter64.
Proof. constructor; cbn; unfold len; cbn; try lia; repeat constructor; lia. Qed.

Lemma filter64_other_typed : typed filter64_other.
Proof. constructor; cbn; unfold len; cbn; try lia; repeat constructor; lia. Qed.

Lemma filter64_42_compatible : IsCompatible filter64_42 filter64_other = true.
Proof. reflexivity. Qed.

Lemma Copy_spec_witness :
  MMin <= m wideWords /\ KMin <= len (keys wideWords) /\
  wordsFor (m wideWords) <= len (bits wideWords) /\ NoDup (keys wideWords) /\
  Copy wideWords
  = Ok {| bits := take (Z.to_nat (wordsFor (m wideWords))) (bits wideWords);
          keys := keys wideWords; m := m wideWords; n := n wideWords |}.
Proof.
  assert (Hm : MMin <= m wideWords) by (vm_compute; discriminate).
  assert (Hk : KMin <= len (keys wideWords)) by (vm_compute; discriminate).
  assert (Hw : wordsFor (m wideWords) <= len (bits wideWords)) by (vm_compute; discriminate).
  pose proof (valid_keys _ filter64_valid) as Hnd.
  split; [exact Hm|]. split; [exact Hk|]. split; [exact Hw|]. split; [exact Hnd|].
  exact (proj1 (proj1 (Copy_spec wideWords Hm Hk Hw) Hnd)).
Defined.

Lemma newWithKeysAndBits_spec_witness :
  MMin <= 64 /\ KMin <= len [1; 2; 3] /\ NoDup [1; 2; 3] /\
  wordsFor 64 <= len [5; 6; 7] /\
  exists f,
    newWithKeysAndBits 64 [1; 2; 3] [5; 6; 7] 9 = Ok f /\
    keys f = [1; 2; 3] /\ m f = 64 /\ n f = 9 /\
    len (bits f) = wordsFor 64 /\
    bits f = take (Z.to_nat (wordsFor 64)) [5; 6; 7].
Proof.
  pose proof (valid_m _ filter64_valid) as Hm.
  pose proof (valid_k _ filter64_valid) as Hk.
  pose proof (valid_keys _ filter64_valid) as Hnd.
  assert (Hw : wordsFor 64 <= len [5; 6; 7]) by (vm_compute; discriminate).
  split; [exact Hm|]. split; [exact Hk|]. split; [exact Hnd|]. split; [exact Hw|].
  exact (newWithKeysAndBits_spec 64 [1; 2; 3] [5; 6; 7] 9 Hm Hk Hnd Hw).
Defined.

Lemma Union_comm_witness :
  valid filter64_42 /\ valid filter64_other /\
  IsCompatible filter64_42 filter64_other = true /\
  Union filter64_42 filter64_other = Union filter64_other filter64_42 /\
  exists u, Union filter64_42 filter64_other = Some (Ok u).
Proof.
  split; [exact filter64_42_valid|]. split; [exact filter64_other_valid|].
  split; [exact filter64_42_compatible|].
  exact (Union_comm filter64_42 filter64_other filter64_42_valid filter64_other_valid
           filter64_42_compatible).
Defined.

Lemma Union_assoc_witness :
  valid filter64_42 /\ valid filter64_other /\ valid filter64 /\
  IsCompatible filter64_42 filter64_other = true /\
  IsCompatible filter64_other filter64 = true /\
  exists fg gh u,
    Union filter64_42 filter64_other = Some (Ok fg) /\
    Union filter64_other filter64 = Some (Ok gh) /\
    Union fg filter64 = Some (Ok u) /\ Union filter64_42 gh = Some (Ok u).
Proof.
  assert (Hc : IsCompatible filter64_other filter64 = true) by reflexivity.
  split; [exact filter64_42_valid|]. split; [exact filter64_other_valid|].
  split; [exact filter64_valid|]. split; [exact filter64_42_compatible|].
  split; [exact Hc|].
  exact (Union_assoc filter64_42 filter64_other filter64 filter64_42_valid
           filter64_other_valid filter64_valid filter64_42_compatible Hc).
Defined.

Lemma Union_is_Copy_UnionInPlace_witness :
  valid filter64_42 /\ valid filter64_other /\
  IsCompatible filter64_42 filter64_other = true /\
  exists c u,
    Copy filter64_42 = Ok c /\ UnionInPlace c filter64_other = Some (u, None) /\
    Union filter64_42 filter64_other = Some (Ok u).
Proof.
  split; [exact filter64_42_valid|]. split; [exact filter64_other_valid|].
  split; [exact filter64_42_compatible|].
  exact (Union_is_Copy_UnionInPlace filter64_42 filter64_other filter64_42_valid
           filter64_other_valid filter64_42_compatible).
Defined.

Lemma Union_keeps_members_witness :
  valid filter64_42 /\ valid filter64_other /\
  IsCompatible filter64_42 filter64_other = true /\
  ContainsHash filter64_42 42 = Some true /\
  exists u v,
    Union filter64_42 filter64_other = Some (Ok u) /\ ContainsHash u 42 = Some true /\
    Union filter64_other filter64_42 = Some (Ok v) /\ ContainsHash v 42 = Some true.
Proof.
  assert (Hin : ContainsHash filter64_42 42 = Some true) by reflexivity.
  split; [exact filter64_42_valid|]. split; [exact filter64_other_valid|].
  split; [exact filter64_42_compatible|]. split; [exact Hin|].
  exact (Union_keeps_members filter64_42 filter64_other 42 filter64_42_valid
           filter64_other_valid filter64_42_compatible Hin).
Defined.

Lemma UnionInPlace_self_witness :
  store64 !! 1%positive = Some filter64_42 /\
  UnionInPlace_at 1 1 store64
  = Some (<[1%positive := {| bits := bits filter64_42; keys := keys filter64_42;
                             m := m filter64_42; n := u64 (2 * n filter64_42) |}]> store64,
          None).
Proof.
  assert (H1 : store64 !! 1%positive = Some filter64_42) by reflexivity.
  split; [exact H1|].
  exact (UnionInPlace_self store64 1 filter64_42 H1).
Defined.

Lemma operations_keep_invariant_witness :
  valid filter64 /\ typed filter64 /\
  Forall (fun o => forall g, operand o = Some g ->
                     valid g /\ typed g /\ IsCompatible filter64 g = true) laterOps /\
  exists f',
    @run Z selfHash filter64 laterOps = Some f' /\ valid f' /\ typed f' /\
    M f' = M filter64 /\ K f' = K filter64 /\ Keys f' = Keys filter64.
Proof.
  assert (Hops : Forall (fun o : op Z => forall g, operand o = Some g ->
                           valid g /\ typed g /\ IsCompatible filter64 g = true) laterOps).
  { unfold laterOps.
    repeat (apply Forall_cons_2;
              [intros g Hg; try discriminate Hg; injection Hg as <-;
               (split; [apply filter64_other_valid|
                        split; [apply filter64_other_typed|reflexivity]])|]).
    apply Forall_nil_2. }
  split; [exact filter64_valid|]. split; [exact filter64_typed|]. split; [exact Hops|].
  exact (@operations_keep_invariant Z selfHash filter64 laterOps filter64_valid
           filter64_typed Hops).
Defined.

Lemma NewWithKeys_empty_witness :
  NewWithKeys 64 [1; 2; 3] = Ok filter64 /\
  64 <= 2 ^ 64 - 64 /\ len [1; 2; 3] < 2 ^ 64 /\
  Forall (fun x => 0 <= x < 2 ^ 64) [1; 2; 3] /\
  (MMin <= 64 /\ KMin <= len [1; 2; 3] /\ NoDup [1; 2; 3]) /\
  valid filter64 /\ typed filter64 /\
  m filter64 = 64 /\ keys filter64 = [1; 2; 3] /\ n filter64 = 0 /\
  (forall j, bitAt (bits filter64) j = false) /\
  (forall hash, ContainsHash filter64 hash = Some false).
Proof.
  assert (Hret : NewWithKeys 64 [1; 2; 3] = Ok filter64) by reflexivity.
  assert (Hm : 64 <= 2 ^ 64 - 64) by lia.
  assert (Hk : len [1; 2; 3] < 2 ^ 64) by (unfold len; simpl; lia).
  pose proof (typed_keys _ filter64_typed) as Hks.
  split; [exact Hret|]. split; [exact Hm|]. split; [exact Hk|]. split; [exact Hks|].
  exact (NewWithKeys_empty 64 [1; 2; 3] filter64 Hret Hm Hk Hks).
Defined.

Lemma UnmarshalBinary_decoded_witness :
  UnmarshalBinary lengthDigest filter1024 (MarshalBinary lengthDigest filter64_42)
  = Some (filter64_42, None) /\
  MMin <= m filter64_42 < 2 ^ 64 /\ KMin <= len (keys filter64_42) /\
  len (bits filter64_42) = wordsFor (m filter64_42) /\ typed filter64_42 /\
  (valid filter64_42 <-> NoDup (keys filter64_42) /\ m filter64_42 <= 2 ^ 64 - 64).
Proof.
  assert (Hok : UnmarshalBinary lengthDigest filter1024
                  (MarshalBinary lengthDigest filter64_42)
                = Some (filter64_42, None)) by (vm_compute; reflexivity).
  split; [exact Hok|].
  exact (UnmarshalBinary_decoded lengthDigest filter1024 filter64_42
           (MarshalBinary lengthDigest filter64_42) Hok).
Defined.

Lemma UnmarshalFromReader_short_read_witness :
  (0 < 4 < 8)%nat /\ KMin <= Uint64 encoded64 /\ MMin <= Uint64 (drop 16 encoded64) /\
  (24 + 8 * Z.to_nat (Uint64 encoded64)
     + 8 * Z.to_nat (wordsFor (Uint64 (drop 16 encoded64))) + 48 <= length encoded64)%nat /\
  UnmarshalBinary lengthDigest newFilter encoded64 = Some (filter64_42, None) /\
  UnmarshalFromReader lengthDigest newFilter
    {| chunks := [take 4 encoded64; drop 4 encoded64]; final := EOF |}
  = Some (filter64_42, 104, Some errHash).
Proof.
  assert (Hj : (0 < 4 < 8)%nat) by lia.
  assert (Hk : KMin <= Uint64 encoded64) by (vm_compute; discriminate).
  assert (Hm : MMin <= Uint64 (drop 16 encoded64)) by (vm_compute; discriminate).
  assert (Hlen : (24 + 8 * Z.to_nat (Uint64 encoded64)
     + 8 * Z.to_nat (wordsFor (Uint64 (drop 16 encoded64))) + 48 <= length encoded64)%nat)
    by (vm_compute; lia).
  split; [exact Hj|]. split; [exact Hk|]. split; [exact Hm|]. split; [exact Hlen|].
  split; [vm_compute; reflexivity|].
  rewrite (proj1 (UnmarshalFromReader_short_read lengthDigest newFilter encoded64 4
                    Hj Hk Hm Hlen)).
  vm_compute. reflexivity.
Defined.

Lemma no_keys_contains_all_witness :
  keys newFilter = [] /\
  ContainsHash newFilter 42 = Some true /\
  AddHash newFilter 42
  = Some {| bits := bits newFilter; keys := []; m := m newFilter;
            n := u64 (n newFilter + 1) |}.
Proof. split; [reflexivity|]. exact (no_keys_contains_all newFilter 42 eq_refl). Defined.

Lemma UnionInPlace_words_witness :
  IsCompatible filter1024 wideWords = true /\
  (length (bits filter1024) < length (bits wideWords))%nat /\
  UnionInPlace filter1024 wideWords = None.
Proof.
  assert (Hc : IsCompatible filter1024 wideWords = true) by reflexivity.
  assert (Hl : (length (bits filter1024) < length (bits wideWords))%nat)
    by (vm_compute; lia).
  split; [exact Hc|]. split; [exact Hl|].
  exact (proj2 (UnionInPlace_words filter1024 wideWords Hc) Hl).
Defined.

Lemma AddHash_order_witness :
  0 < m filter64 <= 64 * len (bits filter64) /\
  exists fa fab fb fba,
    AddHash filter64 42 = Some fa /\ AddHash fa 7 = Some fab /\
    AddHash filter64 7 = Some fb /\ AddHash fb 42 = Some fba /\
    keys fab = keys fba /\ m fab = m fba /\ n fab = n fba /\
    (forall j, 0 <= j -> bitAt (bits fab) j = bitAt (bits fba) j) /\
    (forall hash, ContainsHash fab hash = ContainsHash fba hash).
Proof.
  assert (Hm : 0 < m filter64 <= 64 * len (bits filter64)) by (vm_compute; split; congruence).
  split; [exact Hm|].
  exact (AddHash_order filter64 42 7 Hm).
Defined.

(** ** The empty compatible filter and the stored form *)

Lemma zip_lor_zeros (a : list Z) (w : nat) :
  length a = w -> zip_with Z.lor a (replicate w 0) = a.
Proof.
  revert w. induction a as [|x a IH]; intros [|w] Hl; simpl in *; try lia; try reflexivity.
  rewrite Z.lor_0_r, IH by lia. reflexivity.
Qed.

(** X21.  [NewCompatible] of a filter of the data model whose fields hold
    [uint64] values returns an empty filter that is compatible with it (in
    the modelled sense: same bit width, same keys), answers false to every
    query, and is neutral for [Union] on either side: the union is the
    filter itself, count included. *)
Theorem NewCompatible_neutral (f : Filter) :
  valid f -> typed f ->
  exists e,
    NewCompatible f = Ok e /\ valid e /\ IsCompatible f e = true /\ n e = 0 /\
    (forall hash, ContainsHash e hash = Some false) /\
    Union f e = Some (Ok f) /\ Union e f = Some (Ok f).
Proof.
  intros Hv Ht.
  pose proof (valid_m_range f Hv) as Hr.
  assert (Hm : MMin <= m f <= 2 ^ 64 - 64).
  { split; [apply (valid_m f Hv)|].
    apply words_hold_bits; [assumption|].
    rewrite <- (valid_words f Hv). apply (valid_bits f Hv). }
  destruct (NewWithKeys_valid (m f) (keys f) Hm (valid_k f Hv) (valid_keys f Hv))
    as (e & Hnew & Hve & _ & Hek & _ & Heb).
  assert (Hq : forall hash, ContainsHash e hash = Some false).
  { intros hash. rewrite ContainsHash_spec by (apply valid_addressable; assumption).
    f_equal. unfold positions. rewrite Hek, Heb.
    pose proof (valid_k f Hv) as Hk.
    destruct (keys f) as [|key ks]; [unfold len, KMin in Hk; simpl in Hk; lia|].
    simpl. rewrite bitAt_zeros. reflexivity. }
  pose proof (NewCompatible_Ok f Hv) as Hnc.
  assert (He : e = {| bits := make 0 (wordsFor (m f)); keys := keys f; m := m f; n := 0 |}).
  { unfold NewCompatible in Hnc. rewrite Hnew in Hnc. congruence. }
  exists e. split; [exact Hnew|]. split; [exact Hve|].
  assert (Hc : IsCompatible f e = true).
  { apply IsCompatible_iff. rewrite He. split; reflexivity. }
  split; [exact Hc|]. split; [rewrite He; reflexivity|]. split; [exact Hq|].
  pose proof (compatible_words f e Hv Hve Hc) as Hl.
  assert (Hbits : zip_with Z.lor (bits f) (bits e) = bits f).
  { rewrite He. cbn [bits]. unfold make. apply zip_lor_zeros.
    rewrite <- (valid_words f Hv). unfold len. rewrite Nat2Z.id. reflexivity. }
  assert (Hn : u64 (n f + 0) = n f).
  { rewrite Z.add_0_r. unfold u64. apply Z.mod_small, (typed_n f Ht). }
  split.
  - rewrite (Union_spec f e Hv Hc Hl), Hbits.
    replace (n e) with 0 by (rewrite He; reflexivity). rewrite Hn.
    destruct f; reflexivity.
  - rewrite (Union_spec e f Hve (IsCompatible_sym f e Hc) (eq_sym Hl)).
    rewrite zip_lor_comm, Hbits.
    replace (n e) with 0 by (rewrite He; reflexivity).
    rewrite Z.add_0_l.
    replace (u64 (n f)) with (n f)
      by (symmetry; unfold u64; apply Z.mod_small, (typed_n f Ht)).
    rewrite He. cbn [keys m]. destruct f; reflexivity.
Qed.

Section Stored.
Variable sha384 : list byte -> list byte.
Hypothesis sha384_length : forall x, length (sha384 x) = 48%nat.
Context {R : Type}.
Variable gzip_NewReader : R -> result Reader.

(** X22.  Reading back a stored filter: when the decompressor hands over the
    encoding of a filter of the data model whose fields hold [uint64]
    values in one piece, the package function [ReadFrom] returns that filter
    and the length of the encoding, and the method [Filter.ReadFrom] turns
    any receiver into that filter, with the same count and no error. *)
Theorem ReadFrom_roundtrip (f g : Filter) (r : R) :
  valid f -> typed f ->
  gzip_NewReader r = Ok (NewBuffer (MarshalBinary sha384 f)) ->
  ReadFrom sha384 gzip_NewReader r
  = Some (Ok (f, i64 (Z.of_nat (length (MarshalBinary sha384 f))))) /\
  Filter_ReadFrom sha384 gzip_NewReader g r
  = Some (f, i64 (Z.of_nat (length (MarshalBinary sha384 f))), None).
Proof.
  intros Hv Ht Hgz.
  assert (Hread : ReadFrom sha384 gzip_NewReader r
                  = Some (Ok (f, i64 (Z.of_nat (length (MarshalBinary sha384 f)))))).
  { unfold ReadFrom. rewrite Hgz.
    rewrite (UnmarshalFromReader_MarshalBinary sha384 newFilter f sha384_length Hv Ht).
    reflexivity. }
  split; [exact Hread|].
  unfold Filter_ReadFrom. rewrite Hread. cbn [mbind option_bind].
  destruct f; reflexivity.
Qed.
End Stored.

Lemma NewCompatible_neutral_witness :
  valid filter64_42 /\ typed filter64_42 /\
  exists e,
    NewCompatible filter64_42 = Ok e /\ valid e /\ IsCompatible filter64_42 e = true /\
    n e = 0 /\ (forall hash, ContainsHash e hash = Some false) /\
    Union filter64_42 e = Some (Ok filter64_42) /\
    Union e filter64_42 = Some (Ok filter64_42).
Proof.
  split; [exact filter64_42_valid|]. split; [exact filter64_42_typed|].
  exact (NewCompatible_neutral filter64_42 filter64_42_valid filter64_42_typed).
Defined.

Lemma ReadFrom_roundtrip_witness :
  valid filter64_42 /\ typed filter64_42 /\
  storedStream (NewBuffer encoded64) = Ok (NewBuffer (MarshalBinary lengthDigest filter64_42)) /\
  ReadFrom lengthDigest storedStream (NewBuffer encoded64)
  = Some (Ok (filter64_42, i64 (Z.of_nat (length (MarshalBinary lengthDigest filter64_42))))) /\
  Filter_ReadFrom lengthDigest storedStream filter1024 (NewBuffer encoded64)
  = Some (filter64_42, i64 (Z.of_nat (length (MarshalBinary lengthDigest filter64_42))), None).
Proof.
  split; [exact filter64_42_valid|]. split; [exact filter64_42_typed|].
  split; [reflexivity|].
  exact (ReadFrom_roundtrip lengthDigest lengthDigest_length storedStream
           filter64_42 filter1024 (NewBuffer encoded64)
           filter64_42_valid filter64_42_typed eq_refl).
Defined.

(** ** A digest that was not computed over the bytes before it *)

Section ForgedStream.
Variable sha384 : list byte -> list byte.

Lemma UnmarshalFromReader_two_chunks (f : Filter) (data : list byte) (j : nat) :
  let k := Uint64 data in
  let mm := Uint64 (drop 16 data) in
  let plen := (24 + 8 * Z.to_nat k + 8 * Z.to_nat (wordsFor mm))%nat in
  (0 < j < 8)%nat ->
  KMin <= k -> MMin <= mm -> (plen + 48 <= length data)%nat ->
  UnmarshalFromReader sha384 f
    {| chunks := [take j data; drop j data]; final := EOF |}
  = Some ({| bits := Uint64s (Z.to_nat (wordsFor mm)) (drop (24 + 8 * Z.to_nat k) data);
             keys := Uint64s (Z.to_nat k) (drop 24 data);
             m := mm; n := Uint64 (drop 8 data) |},
          i64 (Z.of_nat (plen + 48)),
          if bool_decide (sha384 (splitField data j ++ drop 8 (take plen data))
                          = take 48 (drop plen data))
          then None else Some errHash).
Proof.
  intros k mm plen Hj Hk Hm Hlen.
  unfold UnmarshalFromReader, unmarshalBinaryHeader.
  rewrite binary_Read_uint64_split by lia.
  cbn [mbind option_bind]. fold k.
  destruct (Z.ltb_spec k KMin); [lia|].
  rewrite binary_Read_uint64_bufferFrom by lia. cbn [mbind option_bind Nat.add].
  rewrite binary_Read_uint64_bufferFrom by lia. cbn [mbind option_bind Nat.add].
  fold mm. destruct (Z.ltb_spec mm MMin); [lia|].
  cbn [mbind option_bind bits keys m n].
  rewrite unmarshalBinaryKeys_bufferFrom by (assumption || lia).
  cbn [mbind option_bind bits keys m n].
  rewrite unmarshalBinaryBits_bufferFrom by (assumption || lia).
  cbn [mbind option_bind bits keys m n].
  unfold Size384. rewrite binary_Read_bufferFrom by (simpl; lia).
  cbn [mbind option_bind hasher tot bufferFrom].
  fold plen. change (Z.to_nat 48) with 48%nat.
  destruct (bool_decide _); reflexivity.
Qed.

(** C8.  The digest check does not hold for every input.  Take bytes that
    hold a header with a key count [k] and a bit width [m] that pass, [k]
    keys, the words for [m] and 48 more bytes, the stored digest.  Let the
    stored digest differ from the digest of all bytes before it, and be the
    digest of those bytes with [8 - j] zero bytes put in after the first
    [j], for some [j] between 1 and 7.  Decoded from a byte slice, the
    bytes are refused with the digest error.  Decoded from a reader whose
    first read ends after [j] bytes, the same bytes are accepted: the
    decoder returns no error, and the receiver holds the decoded fields. *)
Theorem UnmarshalFromReader_accepts_forged (f : Filter) (data : list byte) (j : nat) :
  let k := Uint64 data in
  let mm := Uint64 (drop 16 data) in
  let plen := (24 + 8 * Z.to_nat k + 8 * Z.to_nat (wordsFor mm))%nat in
  (0 < j < 8)%nat ->
  KMin <= k -> MMin <= mm -> (plen + 48 <= length data)%nat ->
  take 48 (drop plen data) <> sha384 (take plen data) ->
  take 48 (drop plen data) = sha384 (splitField data j ++ drop 8 (take plen data)) ->
  exists f',
    UnmarshalBinary sha384 f data = Some (f', Some errHash) /\
    UnmarshalFromReader sha384 f
      {| chunks := [take j data; drop j data]; final := EOF |}
    = Some (f', i64 (Z.of_nat (plen + 48)), None) /\
    m f' = mm /\ len (keys f') = k.
Proof.
  intros k mm plen Hj Hk Hm Hlen Hdiff Hforged.
  eexists. split; [|split; [|split]].
  - unfold UnmarshalBinary.
    rewrite (UnmarshalFromReader_buffer sha384 f data Hk Hm Hlen).
    fold k mm plen. rewrite bool_decide_eq_false_2 by congruence.
    cbn [mbind option_bind]. reflexivity.
  - rewrite (UnmarshalFromReader_two_chunks f data j Hj Hk Hm Hlen).
    fold k mm plen. rewrite bool_decide_eq_true_2 by congruence. reflexivity.
  - reflexivity.
  - cbn [keys]. unfold len. rewrite Uint64s_length.
    unfold KMin in Hk. fold k. lia.
Qed.
End ForgedStream.

Lemma UnmarshalFromReader_accepts_forged_witness :
  (0 < 4 < 8)%nat /\ KMin <= Uint64 forged /\ MMin <= Uint64 (drop 16 forged) /\
  (24 + 8 * Z.to_nat (Uint64 forged)
     + 8 * Z.to_nat (wordsFor (Uint64 (drop 16 forged))) + 48 <= length forged)%nat /\
  take 48 (drop (24 + 8 * Z.to_nat (Uint64 forged)
                   + 8 * Z.to_nat (wordsFor (Uint64 (drop 16 forged)))) forged)
  <> lengthDigest (take (24 + 8 * Z.to_nat (Uint64 forged)
                           + 8 * Z.to_nat (wordsFor (Uint64 (drop 16 forged)))) forged) /\
  exists f',
    UnmarshalBinary lengthDigest filter1024 forged = Some (f', Some errHash) /\
    UnmarshalFromReader lengthDigest filter1024
      {| chunks := [take 4 forged; drop 4 forged]; final := EOF |}
    = Some (f', i64 (Z.of_nat (24 + 8 * Z.to_nat (Uint64 forged)
                                 + 8 * Z.to_nat (wordsFor (Uint64 (drop 16 forged))) + 48)),
            None) /\
    m f' = Uint64 (drop 16 forged) /\ len (keys f') = Uint64 forged.
Proof.
  assert (Hj : (0 < 4 < 8)%nat) by lia.
  assert (Hk : KMin <= Uint64 forged) by (vm_compute; discriminate).
  assert (Hm : MMin <= Uint64 (drop 16 forged)) by (vm_compute; discriminate).
  assert (Hlen : (24 + 8 * Z.to_nat (Uint64 forged)
     + 8 * Z.to_nat (wordsFor (Uint64 (drop 16 forged))) + 48 <= length forged)%nat)
    by (vm_compute; lia).
  assert (Hdiff : take 48 (drop (24 + 8 * Z.to_nat (Uint64 forged)
                   + 8 * Z.to_nat (wordsFor (Uint64 (drop 16 forged)))) forged)
    <> lengthDigest (take (24 + 8 * Z.to_nat (Uint64 forged)
                           + 8 * Z.to_nat (wordsFor (Uint64 (drop 16 forged)))) forged))
    by (vm_compute; discriminate).
  assert (Hforged : take 48 (drop (24 + 8 * Z.to_nat (Uint64 forged)
                   + 8 * Z.to_nat (wordsFor (Uint64 (drop 16 forged)))) forged)
    = lengthDigest (splitField forged 4
                      ++ drop 8 (take (24 + 8 * Z.to_nat (Uint64 forged)
                           + 8 * Z.to_nat (wordsFor (Uint64 (drop 16 forged)))) forged)))
    by (vm_compute; reflexivity).
  split; [exact Hj|]. split; [exact Hk|]. split; [exact Hm|]. split; [exact Hlen|].
  split; [exact Hdiff|].
  exact (UnmarshalFromReader_accepts_forged lengthDigest filter1024 forged 4
           Hj Hk Hm Hlen Hdiff Hforged).
Defined.

Lemma New_from_random_witness :
  New zeroKeyCount 64 1
  = Some (Ok {| bits := [0]; keys := [0]; m := 64; n := 0 |}) /\
  (8 * Z.to_nat 1 <= length (stream zeroKeyCount))%nat /\
  Ok {| bits := [0]; keys := [0]; m := 64; n := 0 |}
  = NewWithKeys 64 (Uint64s (Z.to_nat 1) (stream zeroKeyCount)).
Proof.
  assert (Hret : New zeroKeyCount 64 1
                 = Some (Ok {| bits := [0]; keys := [0];
                               m := 64; n := 0 |})) by (vm_compute; reflexivity).
  split; [exact Hret|].
  destruct (proj1 (New_from_random zeroKeyCount 64 1) _ Hret) as (Hlen & Heq & _).
  split; [exact Hlen|exact Heq].
Defined.
